(** * peer-1on1: mentor/mentee pairing, three implementation variants

    The repository holds three stand-alone Deno scripts that solve the same
    problem: given a roster, a list of forbidden pairs and a history of past
    months, append one new month of mentor/mentee assignments.

    - [Randomized]        : [peer-1on1-chatgpt-o3-mini-high.ts]
                            (shuffle, split in halves, 1000 attempts, retry);
    - [CreateAssignments] : first script of the second file
                            ([createAssignments], separate mentor and mentee pools);
    - [Greedy]            : second script of the second file
                            ([generateNewAssignments], most-constrained-first).

    Names are byte strings.  A JavaScript [Set<string>] that is only ever
    queried with [has] is a [gset string]; the [Record<string, Record<string,
    number>>] matrix of the greedy script is a [gmap] of [gmap]s; arrays are
    lists, indexed with stdpp's lookup. *)

From Stdlib Require Import Ascii String DecimalString DecimalN.
From stdpp Require Import strings list gmap.

(** ** Shared data *)

(** [interface Assignment { mentor: string; mentee: string }], identical in the
    three scripts. *)
Record Assignment := mkAssignment { mentor : string; mentee : string }.

#[global] Instance Assignment_eq_dec : EqDecision Assignment.
Proof. solve_decision. Defined.

(** The assignment with mentor and mentee exchanged. *)
Definition swapRoles (a : Assignment) : Assignment :=
  {| mentor := mentee a; mentee := mentor a |}.

(** The names occurring in a list of assignments, mentor first. *)
Definition participants (l : list Assignment) : list string :=
  l ≫= (λ a, [mentor a; mentee a]).

(** ** The random source

    [Math.random()] is the only source of randomness.  Every use in the
    repository has the shape [Math.floor(Math.random() * n)] with [n >= 1]: an
    index below [n].  The source is an infinite sequence of draws and a cursor;
    a draw [d] used for a bound [n] yields [d mod n], so every index below [n]
    can come out. *)
Record Rng := mkRng { draws : nat → nat; cursor : nat }.

(** Computations that consume random draws. *)
Definition Rand (A : Type) : Type := Rng → A * Rng.

Definition ret {A} (a : A) : Rand A := λ g, (a, g).

Definition bind {A B} (m : Rand A) (k : A → Rand B) : Rand B :=
  λ g, let '(a, g') := m g in k a g'.

Notation "'let!' x ':=' m 'in' k" := (bind m (λ x, k))
  (at level 10, x name, m at level 100, k at level 200).

(** [Math.floor(Math.random() * n)]. *)
Definition randomIndex (n : nat) : Rand nat :=
  λ g, (match n with 0 => 0 | S _ => draws g (cursor g) `mod` n end,
        {| draws := draws g; cursor := S (cursor g) |}).

(** Two sources that will hand out the same draws from now on. *)
Definition same_draws (g1 g2 : Rng) : Prop :=
  ∀ i, draws g1 (cursor g1 + i) = draws g2 (cursor g2 + i).

(** A non-negative integer in a template string: its decimal digits. *)
Definition numberToString (n : N) : string :=
  NilZero.string_of_uint (N.to_uint n).

(** ** Variant 1: randomized search *)
Module Randomized.

(** [skip?: string | string[]]. *)
Inductive SkipField :=
| SkipName (name : string)
| SkipNames (names : list string).

(** [interface Month]; the optional fields are options. *)
Record Month := mkMonth {
  month : string;
  skip : option SkipField;
  assignments : option (list Assignment);
  extraSkip : option SkipField
}.

(** [interface InputData]. *)
Record InputData := mkInputData {
  members : list string;
  excluded : option (list (string * string));
  months : list Month
}.

(** [interface AssignmentResult]. *)
Record AssignmentResult := mkResult {
  res_assignments : list Assignment;
  res_extraSkip : list string
}.

(** *** Month labels: [parseMonth] and [formatMonth]

    [monthStr.match(/(\d+)年(\d+)月/)]: the leftmost place where a non-empty
    run of ASCII digits is followed by 年, a second non-empty run and 月.
    Both groups are greedy and are followed by a non-digit, so each group is
    the maximal run. *)
Definition isDigit (c : ascii) : bool :=
  let n := nat_of_ascii c in (48 <=? n) && (n <=? 57).

Fixpoint spanDigits (s : string) : string * string :=
  match s with
  | String c s' =>
      if isDigit c
      then let '(d, r) := spanDigits s' in (String c d, r)
      else ("", s)
  | EmptyString => ("", "")
  end.

Fixpoint stripPrefix (p s : string) : option string :=
  match p, s with
  | EmptyString, _ => Some s
  | String a p', String b s' =>
      if Ascii.eqb a b then stripPrefix p' s' else None
  | String _ _, EmptyString => None
  end.

Definition matchHere (s : string) : option (string * string) :=
  let '(y, r1) := spanDigits s in
  if String.eqb y "" then None else
  match stripPrefix "年" r1 with
  | None => None
  | Some r2 =>
      let '(m, r3) := spanDigits r2 in
      if String.eqb m "" then None else
      match stripPrefix "月" r3 with
      | None => None
      | Some _ => Some (y, m)
      end
  end.

Fixpoint matchMonth (s : string) : option (string * string) :=
  match matchHere s with
  | Some r => Some r
  | None =>
      match s with
      | String _ s' => matchMonth s'
      | EmptyString => None
      end
  end.

(** JavaScript numbers are doubles.  [parseInt], [+ 1], [++], [> 12] and the
    conversion to a string are exact on the safe integers, the naturals below
    2^53, and these are followed: [Safe n].  Every other number that comes up
    here (the rounded or infinite result of [parseInt] on a long run of
    digits, and what [+ 1] makes of it) is a double from 2^53 on, whose value
    is not followed: [Unsafe].  A [Safe n] with [n] from 2^53 on is treated
    like [Unsafe] by every function below. *)
Inductive Number :=
| Safe (n : N)
| Unsafe.

Definition toNumber (n : N) : Number :=
  if (n <? 2 ^ 53)%N then Safe n else Unsafe.

(** [parseInt(digits, 10)] on a non-empty run of digits: the number that the
    digits spell when it is a safe integer, otherwise a double from 2^53
    on. *)
Definition parseInt (digits : string) : Number :=
  match NilEmpty.uint_of_string digits with
  | Some u => toNumber (N.of_uint u)
  | None => Safe 0
  end.

Definition parseMonth (monthStr : string) : option (Number * Number) :=
  match matchMonth monthStr with
  | None => None
  | Some (y, m) => Some (parseInt y, parseInt m)
  end.

(** A number in a template string: the decimal digits of a safe integer.
    From 2^53 on JavaScript prints the digits of the double that it holds
    (in exponent notation from 10^21 on, [Infinity] in the end); [None]
    stands for such a string, which is not followed. *)
Definition showNumber (x : Number) : option string :=
  match x with
  | Safe n => if (n <? 2 ^ 53)%N then Some (numberToString n) else None
  | Unsafe => None
  end.

Definition formatMonth (year month : Number) : option string :=
  match showNumber year, showNumber month with
  | Some y, Some m => Some (y +:+ "年" +:+ m +:+ "月")
  | _, _ => None
  end.

(** [x + 1] and [x++]. *)
Definition increment (x : Number) : Number :=
  match x with
  | Safe n => toNumber (n + 1)
  | Unsafe => Unsafe
  end.

(** [x > 12]; a number that is not followed is at least 2^53. *)
Definition above12 (x : Number) : bool :=
  match x with
  | Safe n => (12 <? n)%N
  | Unsafe => true
  end.

(** The successor computed in [main]: month + 1, rolling over after 12. *)
Definition nextMonth (parsed : Number * Number) : Number * Number :=
  let '(year, m) := parsed in
  let newMonthNum := increment m in
  if above12 newMonthNum then (increment year, Safe 1) else (year, newMonthNum).

(** *** Utilities *)

(** [[copy[i], copy[j]] = [copy[j], copy[i]]]: the right-hand side is read
    first, then [copy[i]] and [copy[j]] are written in that order. *)
Definition swap {A} (i j : nat) (copy : list A) : list A :=
  match copy !! i, copy !! j with
  | Some ci, Some cj => <[j := ci]> (<[i := cj]> copy)
  | _, _ => copy
  end.

(** The loop of [shuffleArray], [i] running from its start value down to 1. *)
Fixpoint shuffleLoop {A} (i : nat) (copy : list A) : Rand (list A) :=
  match i with
  | 0 => ret copy
  | S i' =>
      let! j := randomIndex (i + 1) in
      shuffleLoop i' (swap i j copy)
  end.

Definition shuffleArray {A} (array : list A) : Rand (list A) :=
  shuffleLoop (length array - 1) array.

(** One iteration of the loop of [generateCandidate]: the reads
    [shuffled[i]] and [shuffled[i + half]].  [generateAssignments] makes the
    list even before it calls [generateCandidate] (see
    [generateAssignments_Some]), so [half] is a whole number and both reads
    are in range; on an odd length JavaScript's [half] would be fractional
    and the mentee read [undefined]. *)
Definition pairAt (shuffled : list string) (half i : nat) : option Assignment :=
  match shuffled !! i, shuffled !! (i + half) with
  | Some m, Some e => Some {| mentor := m; mentee := e |}
  | _, _ => None
  end.

Definition generateCandidate (eligible : list string) : Rand (list Assignment) :=
  let! shuffled := shuffleArray eligible in
  let half := length shuffled / 2 in
  ret (omap (pairAt shuffled half) (seq 0 half)).

(** The template string [`${a.mentor}|${a.mentee}`]. *)
Definition key (a : Assignment) : string := mentor a +:+ "|" +:+ mentee a.

Definition keySet (l : list Assignment) : gset string :=
  list_to_set (key <$> l).

(** [isSamePairing]: equal lengths, then the two sets of keys have the same
    size and every key of the first is in the second.  The loop over [set1]
    only reads, so the order in which it visits the keys does not matter. *)
Definition isSamePairing (a1 a2 : list Assignment) : bool :=
  if decide (length a1 ≠ length a2) then false else
  let set1 := keySet a1 in
  let set2 := keySet a2 in
  if decide (size set1 ≠ size set2) then false else
  forallb (λ pair, bool_decide (pair ∈ set2)) (elements set1).

Definition countOverlap (a1 a2 : list Assignment) : nat :=
  let set := keySet a2 in
  length (filter (λ a, key a ∈ set) a1).

(** *** Excluded combinations *)

(** [pair.join("|")] and [pair.slice().reverse().join("|")] on a 2-tuple. *)
Definition buildExcludedSet (excluded : option (list (string * string))) : gset string :=
  match excluded with
  | None => ∅
  | Some l =>
      foldl (λ set pair,
               set ∪ {[ pair.1 +:+ "|" +:+ pair.2 ]} ∪ {[ pair.2 +:+ "|" +:+ pair.1 ]})
            ∅ l
  end.

Definition candidateHasExcluded (candidate : list Assignment) (excludedSet : gset string) : bool :=
  existsb (λ pair, bool_decide (key pair ∈ excludedSet)) candidate.

(** *** Pairing generation *)

(** [skip ? members.filter(m => m !== skip) : members.slice()]; an empty
    string is falsy like [undefined]. *)
Definition initialEligible (members : list string) (skip : option string) : list string :=
  match skip with
  | Some s => if decide (s = "") then members else filter (λ m, m ≠ s) members
  | None => members
  end.

(** The three statements that occur twice in [generateAssignments]:
    draw an index, [extraSkipped.push(eligible[index])], and
    [eligible.splice(index, 1)].  Returns the new [eligible] and
    [extraSkipped]. *)
Definition removeRandom (eligible extraSkipped : list string) : Rand (list string * list string) :=
  let! index := randomIndex (length eligible) in
  ret (delete index eligible,
       extraSkipped ++ match eligible !! index with Some x => [x] | None => [] end).

(** [pastSet]: the keys of every assignment of every month of the global
    [data]. *)
Definition pastSet (dataMonths : list Month) : gset string :=
  keySet (dataMonths ≫= (λ m, default [] (assignments m))).

(** The penalty of one candidate, as accumulated in the attempt loop. *)
Definition penaltyOf (past : gset string) (prevAssignments : option (list Assignment))
    (candidate : list Assignment) : nat :=
  length (filter (λ pair, key pair ∈ past) candidate)
  + match prevAssignments with
    | Some prev => countOverlap candidate prev
    | None => 0
    end.

(** [penalty < bestPenalty], with [None] for [Infinity]. *)
Definition belowBest (penalty : nat) (bestPenalty : option nat) : bool :=
  match bestPenalty with
  | None => true
  | Some b => penalty <? b
  end.

(** The [for] loop over the attempts; [n] is the number of iterations left.
    It returns [bestCandidate] ([None] for [null]). *)
Fixpoint attemptLoop (n : nat) (eligible : list string) (past : gset string)
    (prevAssignments : option (list Assignment)) (excludedSet : gset string)
    (bestCandidate : option (list Assignment)) (bestPenalty : option nat)
    : Rand (option (list Assignment)) :=
  match n with
  | 0 => ret bestCandidate
  | S n' =>
      let! candidate := generateCandidate eligible in
      if candidateHasExcluded candidate excludedSet
      then attemptLoop n' eligible past prevAssignments excludedSet bestCandidate bestPenalty
      else
        let penalty := penaltyOf past prevAssignments candidate in
        if belowBest penalty bestPenalty
        then
          if penalty =? 0 then ret (Some candidate)
          else attemptLoop n' eligible past prevAssignments excludedSet
                 (Some candidate) (Some penalty)
        else attemptLoop n' eligible past prevAssignments excludedSet bestCandidate bestPenalty
  end.

Definition attempts : nat := 1000.

(** [generateAssignments]; [dataMonths] is the global [data.months] it reads.
    The function calls itself without a measure that decreases, so the model
    takes fuel: [None] means the call did not return within [fuel] nested
    calls.  Note the arguments of the nested call: [members], not the
    shortened [eligible]. *)
Fixpoint generateAssignments (fuel : nat) (dataMonths : list Month)
    (members : list string) (skip : option string)
    (prevAssignments : option (list Assignment)) (excludedSet : gset string)
    (g : Rng) : option (AssignmentResult * Rng) :=
  match fuel with
  | 0 => None
  | S fuel' =>
      let eligible := initialEligible members skip in
      let extraSkipped : list string := [] in
      let '((eligible, extraSkipped), g) :=
        if decide (length eligible `mod` 2 ≠ 0)
        then removeRandom eligible extraSkipped g
        else ((eligible, extraSkipped), g) in
      let '(bestCandidate, g) :=
        attemptLoop attempts eligible (pastSet dataMonths) prevAssignments excludedSet
          None None g in
      match bestCandidate with
      | None =>
          if decide (length eligible = 0)
          then Some ({| res_assignments := []; res_extraSkip := extraSkipped |}, g)
          else
            let '(_, g) := removeRandom eligible extraSkipped g in
            generateAssignments fuel' dataMonths members skip prevAssignments excludedSet g
      | Some best =>
          Some ({| res_assignments := best; res_extraSkip := extraSkipped |}, g)
      end
  end.

(** *** Orientation adjustment *)

(** [new Set([x, y])]: insertion order, duplicates dropped. *)
Definition setOf (a : Assignment) : list string := remove_dups [mentor a; mentee a].

(** [pairSet.size === aSet.size && [...pairSet].every(x => aSet.has(x))]. *)
Definition sameSet (pair a : Assignment) : bool :=
  let pairSet := setOf pair in
  let aSet := setOf a in
  bool_decide (length pairSet = length aSet)
  && forallb (λ x, bool_decide (x ∈ aSet)) pairSet.

(** What the callback returns once a history entry [a] on the same set of
    names is found. *)
Definition onFound (pair a : Assignment) : Assignment :=
  if decide (mentor a = mentor pair ∧ mentee a = mentee pair) then
    let flipped := {| mentor := mentee pair; mentee := mentor pair |} in
    if decide (mentor a = mentor flipped ∧ mentee a = mentee flipped)
    then pair
    else flipped
  else pair.

(** The inner loop over one month's assignments: [Some r] when it returned
    [r], [None] when it ran to its end. *)
Fixpoint scanAssignments (pair : Assignment) (l : list Assignment) : option Assignment :=
  match l with
  | [] => None
  | a :: l' => if sameSet pair a then Some (onFound pair a) else scanAssignments pair l'
  end.

(** The outer loop, over the months from the last to the first. *)
Fixpoint scanHistory (pair : Assignment) (latestFirst : list Month) : Assignment :=
  match latestFirst with
  | [] => pair
  | m :: older =>
      match assignments m with
      | Some l =>
          match scanAssignments pair l with
          | Some r => r
          | None => scanHistory pair older
          end
      | None => scanHistory pair older
      end
  end.

Definition adjustOne (history : list Month) (pair : Assignment) : Assignment :=
  scanHistory pair (reverse history).

Definition adjustAssignments (candidate : list Assignment) (history : list Month)
    : list Assignment :=
  adjustOne history <$> candidate.

(** *** Main *)

(** How a run ends: [Deno.exit(1)] after a message on standard error, a
    chain of nested calls that never returns (in JavaScript it ends when the
    call stack is exhausted), or the JSON printed on standard output.
    [Unfollowed] is a run that prints a new month whose label holds a number
    that is not a safe integer: what it prints is not followed. *)
Inductive Outcome :=
| Exit (code : nat)
| NoReturn
| Printed (data : InputData)
| Unfollowed.

(** The loop that looks for [prevAssignments]: months [length - 2] down to 0,
    the first one whose [assignments] is set. *)
Fixpoint firstAssignments (latestFirst : list Month) : option (list Assignment) :=
  match latestFirst with
  | [] => None
  | m :: older =>
      match assignments m with
      | Some a => Some a
      | None => firstAssignments older
      end
  end.

Definition findPrevAssignments (dataMonths : list Month) : option (list Assignment) :=
  firstAssignments (reverse (take (length dataMonths - 1) dataMonths)).

(** The [skip] field of the new month. *)
Definition skipOf (extraSkip : list string) : option SkipField :=
  if 0 <? length extraSkip then
    if length extraSkip =? 1
    then SkipName <$> extraSkip !! 0
    else Some (SkipNames extraSkip)
  else None.

(** [main] after the input file has been read and parsed into [data]. *)
Definition main (fuel : nat) (data : InputData) (g : Rng) : Outcome :=
  let excludedSet := buildExcludedSet (excluded data) in
  match last (months data) with
  | None => Exit 1
  | Some lastMonth =>
      match parseMonth (month lastMonth) with
      | None => Exit 1
      | Some parsed =>
          let '(newYear, newMonthNum) := nextMonth parsed in
          let newMonthStr := formatMonth newYear newMonthNum in
          let history := months data in
          let prevAssignments := findPrevAssignments (months data) in
          match generateAssignments fuel (months data) (members data) None
                  prevAssignments excludedSet g with
          | None => NoReturn
          | Some (result, _) =>
              let newAssignments := adjustAssignments (res_assignments result) history in
              match newMonthStr with
              | None => Unfollowed
              | Some label =>
                  let newMonth :=
                    {| month := label;
                       skip := skipOf (res_extraSkip result);
                       assignments := Some newAssignments;
                       extraSkip := None |} in
                  Printed {| members := members data;
                             excluded := excluded data;
                             months := months data ++ [newMonth] |}
              end
          end
      end
  end.

End Randomized.

(** ** Variant 2: separate mentor and mentee pools *)
Module CreateAssignments.

(** [interface MonthData]; [skip] is a string or [null]. *)
Record MonthData := mkMonthData {
  month : string;
  skip : option string;
  assignments : list Assignment
}.

Definition isExcluded (pair : string * string) (excludedList : list (string * string)) : bool :=
  existsb (λ excludedPair,
             bool_decide (excludedPair.1 = pair.1 ∧ excludedPair.2 = pair.2)
             || bool_decide (excludedPair.1 = pair.2 ∧ excludedPair.2 = pair.1))
          excludedList.

(** [Array.prototype.find]. *)
Definition find {A} (f : A → bool) (l : list A) : option A := List.find f l.

(** The loop of [getRecentPair], months from the last to the first. *)
Fixpoint recentPairFrom (member : string) (latestFirst : list MonthData) : option Assignment :=
  match latestFirst with
  | [] => None
  | monthData :: older =>
      match find (λ a, bool_decide (mentor a = member) || bool_decide (mentee a = member))
                 (assignments monthData) with
      | Some a => Some a
      | None => recentPairFrom member older
      end
  end.

Definition getRecentPair (member : string) (months : list MonthData) : option Assignment :=
  recentPairFrom member (reverse months).

Definition getPastPairs (pair : string * string) (months : list MonthData) : list Assignment :=
  months ≫= (λ monthData,
    filter (λ a, (mentor a = pair.1 ∧ mentee a = pair.2)
                 ∨ (mentor a = pair.2 ∧ mentee a = pair.1))
           (assignments monthData)).

(** The mutable locals of [createAssignments] that its closures share. *)
Record State := mkState {
  availableMentors : list string;
  availableMentees : list string;
  st_assignments : list Assignment;
  usedPairs : gset string
}.

Definition pairKey (mentorName menteeName : string) : string :=
  mentorName +:+ ":" +:+ menteeName.

Definition isPairUsed (st : State) (mentorName menteeName : string) : bool :=
  bool_decide (pairKey mentorName menteeName ∈ usedPairs st)
  || bool_decide (pairKey menteeName mentorName ∈ usedPairs st).

(** [l.splice(l.indexOf(x), 1)]: the first occurrence goes; with no
    occurrence [indexOf] is -1 and [splice(-1, 1)] drops the last element. *)
Definition spliceIndexOf (x : string) (l : list string) : list string :=
  match list_find (λ y, y = x) l with
  | Some (i, _) => delete i l
  | None => delete (length l - 1) l
  end.

(** The closure [assignPair]: its result and the state it leaves. *)
Definition assignPair (excludedList : list (string * string)) (pastMonths : list MonthData)
    (mentorName menteeName : string) (st : State) : bool * State :=
  if decide (mentorName = menteeName) then (false, st) else
  if isExcluded (mentorName, menteeName) excludedList then (false, st) else
  if isPairUsed st mentorName menteeName then (false, st) else
  let recentMentorPair := getRecentPair mentorName pastMonths in
  let recentMenteePair := getRecentPair menteeName pastMonths in
  if bool_decide (mentee <$> recentMentorPair = Some menteeName) then (false, st) else
  if bool_decide (mentor <$> recentMenteePair = Some mentorName) then (false, st) else
  (true,
   {| st_assignments :=
        st_assignments st ++ [ {| mentor := mentorName; mentee := menteeName |} ];
      availableMentors := spliceIndexOf mentorName (availableMentors st);
      availableMentees := spliceIndexOf menteeName (availableMentees st);
      usedPairs := usedPairs st ∪ {[ pairKey mentorName menteeName ]} |}).

(** Body of the first double loop, for one [member1] and one [member2]. *)
Definition flipStep (excludedList : list (string * string)) (pastMonths : list MonthData)
    (member1 : string) (st : State) (member2 : string) : State :=
  if decide (member1 = member2) then st else
  let pastDirectPairs := getPastPairs (member1, member2) pastMonths in
  match last pastDirectPairs with
  | Some mostRecentPair =>
      if decide (mentor mostRecentPair = member1) then
        if bool_decide (member2 ∈ availableMentors st)
           && bool_decide (member1 ∈ availableMentees st)
        then (assignPair excludedList pastMonths member2 member1 st).2
        else st
      else st
  | None => st
  end.

(** The inner loop of the second double loop: the mentees are tried in
    roster order until [assignPair] succeeds ([break]). *)
Fixpoint tryMentees (excludedList : list (string * string)) (pastMonths : list MonthData)
    (mentorName : string) (mentees : list string) (st : State) : State :=
  match mentees with
  | [] => st
  | menteeName :: rest =>
      if bool_decide (menteeName ∈ availableMentees st) then
        let '(ok, st') := assignPair excludedList pastMonths mentorName menteeName st in
        if ok then st' else tryMentees excludedList pastMonths mentorName rest st'
      else tryMentees excludedList pastMonths mentorName rest st
  end.

Definition fillStep (excludedList : list (string * string)) (pastMonths : list MonthData)
    (members : list string) (st : State) (mentorName : string) : State :=
  if bool_decide (mentorName ∈ availableMentors st)
  then tryMentees excludedList pastMonths mentorName members st
  else st.

Definition createAssignments (members : list string)
    (excludedList : list (string * string)) (pastMonths : list MonthData)
    : list Assignment * list string :=
  let st0 := {| availableMentors := members; availableMentees := members;
                st_assignments := []; usedPairs := ∅ |} in
  let st1 := foldl (λ st member1,
                      foldl (flipStep excludedList pastMonths member1) st members)
                   st0 members in
  let st2 := foldl (fillStep excludedList pastMonths members) st1 members in
  (st_assignments st2, availableMentors st2 ++ availableMentees st2).

(** [interface InputData]. *)
Record InputData := mkInputData {
  members : list string;
  excluded : list (string * string);
  months : list MonthData
}.

(** [main] once [readInput] has answered [inputData], for a clock that reads
    [fullYear] and the zero-based [monthIndex]; the result is the data that
    is printed as JSON (after a banner line with the label).
    [skip.join(", ")] is [String.concat]. *)
Definition main (fullYear monthIndex : N) (inputData : InputData) : InputData :=
  let currentMonth :=
    numberToString fullYear +:+ "年" +:+ numberToString (monthIndex + 1) +:+ "月" in
  let '(newAssignments, newSkip) :=
    createAssignments (members inputData) (excluded inputData) (months inputData) in
  let newMonthData :=
    {| month := currentMonth;
       skip := if 0 <? length newSkip then Some (String.concat ", " newSkip) else None;
       assignments := newAssignments |} in
  {| members := members inputData;
     excluded := excluded inputData;
     months := months inputData ++ [newMonthData] |}.

End CreateAssignments.

(** ** Variant 3: greedy, most-constrained-first *)
Module Greedy.

(** [interface Month]; [skip] is always an array here. *)
Record Month := mkMonth {
  month : string;
  skip : list string;
  assignments : list Assignment
}.

(** [interface InputData] as [main] reads it from JSON: a field that is
    missing (or, for the arrays, not an array) is [None]. *)
Record InputData := mkInputData {
  members : option (list string);
  excluded : option (list (list string));
  months : option (list Month)
}.

(** [pair[0] === mentor && pair[1] === mentee], or the same with the two
    names exchanged; [pair] is any array of strings. *)
Definition isPairExcluded (mentorName menteeName : string) (excluded : list (list string)) : bool :=
  existsb (λ pair : list string,
             bool_decide (pair !! 0 = Some mentorName ∧ pair !! 1 = Some menteeName)
             || bool_decide (pair !! 0 = Some menteeName ∧ pair !! 1 = Some mentorName))
          excluded.

Definition isRecentPairing (mentorName menteeName : string) (previousMonth : option Month) : bool :=
  match previousMonth with
  | None => false
  | Some pm =>
      existsb (λ a,
                 bool_decide (mentor a = mentorName ∧ mentee a = menteeName)
                 || bool_decide (mentor a = menteeName ∧ mentee a = mentorName))
              (assignments pm)
  end.

(** [pairingHistory[mentor][mentee] || 0]: when [pairingHistory[mentor]] is
    undefined the property access throws a [TypeError] ([None]); an undefined
    entry of a row that exists counts as 0. *)
Definition timesPaired (pairingHistory : gmap string (gmap string nat))
    (mentorName menteeName : string) : option nat :=
  (λ row : gmap string nat, default 0 (row !! menteeName)) <$> pairingHistory !! mentorName.

(** [None] when the lookup of the count throws. *)
Definition getPairingScore (mentorName menteeName : string)
    (pairingHistory : gmap string (gmap string nat)) (previousMonth : option Month)
    : option nat :=
  (λ score, if isRecentPairing mentorName menteeName previousMonth
            then score + 100 else score)
  <$> timesPaired pairingHistory mentorName menteeName.

(** The matrix with a zero for every ordered pair of distinct members. *)
Definition emptyHistory (members : list string) : gmap string (gmap string nat) :=
  foldl (λ h mentorName,
           <[ mentorName :=
                foldl (λ (row : gmap string nat) menteeName,
                         if decide (mentorName ≠ menteeName)
                         then <[ menteeName := 0 ]> row else row)
                      ∅ members ]> h)
        ∅ members.

(** [if (h[x] && h[x][y] !== undefined) h[x][y]++].  Names are taken not to
    be property names of [Object.prototype], so that [h[x]] is defined only
    for the roster members that were stored. *)
Definition bump (x y : string) (h : gmap string (gmap string nat))
    : gmap string (gmap string nat) :=
  match h !! x with
  | Some row =>
      match row !! y with
      | Some n => <[ x := <[ y := S n ]> row ]> h
      | None => h
      end
  | None => h
  end.

Definition countPairings (members : list string) (months : list Month)
    : gmap string (gmap string nat) :=
  foldl (λ h m,
           foldl (λ h a, bump (mentee a) (mentor a) (bump (mentor a) (mentee a) h))
                 h (assignments m))
        (emptyHistory members) months.

(** An entry [{mentee, score}] of [possiblePairings]. *)
Record Option_ := mkOption { opt_mentee : string; opt_score : nat }.

(** [Array.prototype.sort] with a comparator [(a, b) => f(a) - f(b)]: a
    stable sort by [f]. *)
Fixpoint insertBy {A} (f : A → nat) (x : A) (l : list A) : list A :=
  match l with
  | [] => [x]
  | y :: l' => if f x <=? f y then x :: l else y :: insertBy f x l'
  end.

Definition sortBy {A} (f : A → nat) (l : list A) : list A :=
  foldr (insertBy f) [] l.

(** The score that [generateNewAssignments] stores in [possiblePairings].
    The mentor is one of [availableMembers], and the matrix is the one built
    for these members, which has a row for each of them: the call of
    [getPairingScore] returns (see [getPairingScore_defined]), and the
    default is not taken. *)
Definition storedScore (mentorName menteeName : string)
    (pairingHistory : gmap string (gmap string nat)) (previousMonth : option Month) : nat :=
  default 0 (getPairingScore mentorName menteeName pairingHistory previousMonth).

(** The sorted array stored in [possiblePairings[mentor]]. *)
Definition optionsFor (availableMembers : list string) (excluded : list (list string))
    (pairingHistory : gmap string (gmap string nat)) (previousMonth : option Month)
    (mentorName : string) : list Option_ :=
  sortBy opt_score
    (omap (λ menteeName,
             if bool_decide (mentorName = menteeName)
                || isPairExcluded mentorName menteeName excluded
             then None
             else Some {| opt_mentee := menteeName;
                          opt_score := storedScore mentorName menteeName
                                         pairingHistory previousMonth |})
          availableMembers).

Definition buildPossiblePairings (availableMembers : list string)
    (excluded : list (list string))
    (pairingHistory : gmap string (gmap string nat)) (previousMonth : option Month)
    : gmap string (list Option_) :=
  foldl (λ pp mentorName,
           <[ mentorName :=
                optionsFor availableMembers excluded pairingHistory previousMonth mentorName ]> pp)
        ∅ availableMembers.

(** The mutable locals of the assignment loop. *)
Record State := mkState {
  st_assignments : list Assignment;
  usedMembers : gset string;
  st_skip : list string
}.

(** [possiblePairings[mentor].filter(p => !usedMembers.has(p.mentee))]. *)
Definition validMenteesOf (possiblePairings : gmap string (list Option_))
    (used : gset string) (mentorName : string) : list Option_ :=
  filter (λ p, opt_mentee p ∉ used) (default [] (possiblePairings !! mentorName)).

Definition assign (mentorName menteeName : string) (st : State) : State :=
  {| st_assignments :=
       st_assignments st ++ [ {| mentor := mentorName; mentee := menteeName |} ];
     usedMembers := usedMembers st ∪ {[ mentorName ]} ∪ {[ menteeName ]};
     st_skip := st_skip st |}.

(** One iteration of [for (const mentor of membersByOptionCount)]. *)
Definition step (excluded : list (list string)) (previousMonth : option Month)
    (possiblePairings : gmap string (list Option_)) (st : State) (mentorName : string) : State :=
  if decide (mentorName ∈ usedMembers st) then st else
  let validMentees := validMenteesOf possiblePairings (usedMembers st) mentorName in
  match validMentees with
  | [] =>
      {| st_assignments := st_assignments st;
         usedMembers := usedMembers st ∪ {[ mentorName ]};
         st_skip := st_skip st ++ [mentorName] |}
  | selectedPairing :: _ =>
      let sameAsLastMonth :=
        match previousMonth with
        | Some pm =>
            existsb (λ a, bool_decide (mentor a = mentorName
                                       ∧ mentee a = opt_mentee selectedPairing))
                    (assignments pm)
        | None => false
        end in
      if sameAsLastMonth then
        if bool_decide (opt_mentee selectedPairing ∉ usedMembers st)
           && negb (isPairExcluded (opt_mentee selectedPairing) mentorName excluded)
        then assign (opt_mentee selectedPairing) mentorName st
        else
          let selectedPairing :=
            if 1 <? length validMentees
            then default selectedPairing (validMentees !! 1)
            else selectedPairing in
          assign mentorName (opt_mentee selectedPairing) st
      else assign mentorName (opt_mentee selectedPairing) st
  end.

Definition generateNewAssignments (members : list string)
    (excluded : list (list string)) (months : list Month)
    : list Assignment * list string :=
  let pairingHistory := countPairings members months in
  let previousMonth := last months in
  let availableMembers := members in
  let possiblePairings :=
    buildPossiblePairings availableMembers excluded pairingHistory previousMonth in
  let membersByOptionCount :=
    sortBy (λ a, length (validMenteesOf possiblePairings ∅ a)) availableMembers in
  let st :=
    foldl (step excluded previousMonth possiblePairings)
          {| st_assignments := []; usedMembers := ∅; st_skip := [] |}
          membersByOptionCount in
  (st_assignments st,
   st_skip st ++ filter (λ member, member ∉ usedMembers st) availableMembers).

(** [getCurrentYearMonth] for a clock that reads [fullYear] and the
    zero-based [monthIndex]. *)
Definition getCurrentYearMonth (fullYear monthIndex : N) : string :=
  numberToString fullYear +:+ "年" +:+ numberToString (monthIndex + 1) +:+ "月".

(** [main] after the input file has been read and parsed into [inputData]:
    [inl 1] is [Deno.exit(1)], [inr data] is the JSON printed. *)
Definition main (fullYear monthIndex : N) (inputData : InputData) : nat + InputData :=
  match members inputData with
  | None => inl 1
  | Some membersList =>
      let excludedList := default [] (excluded inputData) in
      let monthsList := default [] (months inputData) in
      let '(newAssignments, newSkip) :=
        generateNewAssignments membersList excludedList monthsList in
      let newMonth :=
        {| month := getCurrentYearMonth fullYear monthIndex;
           skip := newSkip;
           assignments := newAssignments |} in
      inr {| members := Some membersList;
             excluded := Some excludedList;
             months := Some (monthsList ++ [newMonth]) |}
  end.

End Greedy.

(** ** Notions of the specification

    These follow the words of the specification, not the code; the theorems
    below relate the two. *)
Module Spec.
Import Randomized.

(** [a] is on the same unordered pair as [pair]: one of the two
    orientations. *)
Definition onSamePair (pair a : Assignment) : Prop := a = pair ∨ a = swapRoles pair.

(** No month of [ms] holds an assignment on the pair of [pair]. *)
Definition pairAbsent (pair : Assignment) (ms : list Month) : Prop :=
  ∀ m l a, m ∈ ms → assignments m = Some l → a ∈ l → ¬ onSamePair pair a.

(** [a] is an assignment on the pair of [pair] in the chronologically last
    month in which that pair occurs. *)
Definition mostRecentHas (history : list Month) (pair a : Assignment) : Prop :=
  ∃ older m l newer,
    history = older ++ m :: newer ∧ assignments m = Some l
    ∧ a ∈ l ∧ onSamePair pair a ∧ pairAbsent pair newer.

(** [a] is the most recent historical assignment on the pair of [pair]: the
    last month in which the pair occurs holds it as [a] and in no other
    orientation. *)
Definition mostRecentIs (history : list Month) (pair a : Assignment) : Prop :=
  ∃ older m l newer,
    history = older ++ m :: newer ∧ assignments m = Some l
    ∧ a ∈ l ∧ onSamePair pair a
    ∧ (∀ a', a' ∈ l → onSamePair pair a' → a' = a)
    ∧ pairAbsent pair newer.

(** [a] is the pair of an exclusion rule, in one orientation or the other. *)
Definition matchesRule (a : Assignment) (rule : string * string) : Prop :=
  (mentor a = rule.1 ∧ mentee a = rule.2) ∨ (mentor a = rule.2 ∧ mentee a = rule.1).

(** The same for the greedy variant, whose rules are arrays of any length:
    only positions 0 and 1 are read. *)
Definition matchesRuleL (a : Assignment) (rule : list string) : Prop :=
  (rule !! 0 = Some (mentor a) ∧ rule !! 1 = Some (mentee a))
  ∨ (rule !! 0 = Some (mentee a) ∧ rule !! 1 = Some (mentor a)).

(** The number of assignments of the history on the unordered pair of [x]
    and [y] (greedy variant). *)
Definition occurrences (x y : string) (months : list Greedy.Month) : nat :=
  length (filter (λ a, (mentor a = x ∧ mentee a = y) ∨ (mentor a = y ∧ mentee a = x))
                 (months ≫= Greedy.assignments)).

(** [x] and [y] are the two members of an assignment of [l], in one
    orientation or the other. *)
Definition pairedIn (l : list Assignment) (x y : string) : Prop :=
  ∃ a, a ∈ l ∧ ((mentor a = x ∧ mentee a = y) ∨ (mentor a = y ∧ mentee a = x)).

(** [l] is the assignment list of the single most recent Period with a
    non-empty assignment list, in a greedy history. *)
Definition mostRecentAssignmentsG (months : list Greedy.Month) (l : list Assignment) : Prop :=
  ∃ older m newer,
    months = older ++ m :: newer ∧ Greedy.assignments m = l ∧ l ≠ []
    ∧ ∀ m', m' ∈ newer → Greedy.assignments m' = [].

(** The same in a history of the randomized variant, where the list is
    optional: a Period without a list counts like one with an empty list. *)
Definition mostRecentAssignments (ms : list Month) (l : list Assignment) : Prop :=
  ∃ older m newer,
    ms = older ++ m :: newer ∧ assignments m = Some l ∧ l ≠ []
    ∧ ∀ m', m' ∈ newer → default [] (assignments m') = [].

(** The greedy score of two roster members, as [generateNewAssignments] has
    it computed. *)
Definition greedyScore (members : list string) (months : list Greedy.Month)
    (x y : string) : option nat :=
  Greedy.getPairingScore x y (Greedy.countPairings members months) (last months).

(** C3 read on the greedy scorer, first half: a pair of the most recent
    Period with assignments is charged a recency penalty on top of its
    count. *)
Definition recencyCharged : Prop :=
  ∀ members months l x y s,
    x ∈ members → y ∈ members → x ≠ y →
    mostRecentAssignmentsG months l → pairedIn l x y →
    greedyScore members months x y = Some s →
    occurrences x y months < s.

(** Second half: such a pair scores strictly higher than any pair that is
    not of that Period, whatever the counts. *)
Definition recencyDominates : Prop :=
  ∀ members months l x y x' y' s s',
    x ∈ members → y ∈ members → x ≠ y →
    x' ∈ members → y' ∈ members → x' ≠ y' →
    mostRecentAssignmentsG months l → pairedIn l x y → ¬ pairedIn l x' y' →
    greedyScore members months x' y' = Some s' →
    greedyScore members months x y = Some s →
    s' < s.

(** The penalty of a candidate in the randomized variant, as [main] has it
    computed from the history, and its recency part: what the candidate is
    charged for [prevAssignments]. *)
Definition candidatePenalty (ms : list Month) (c : list Assignment) : nat :=
  penaltyOf (pastSet ms) (findPrevAssignments ms) c.

Definition recencyPart (ms : list Month) (c : list Assignment) : nat :=
  penaltyOf ∅ (findPrevAssignments ms) c.

(** C3 read on the randomized scorer, first half: an assignment on a pair of
    the most recent Period with assignments, in either orientation, is
    charged a recency penalty. *)
Definition recencyChargedCandidates : Prop :=
  ∀ ms l a b,
    mostRecentAssignments ms l → b ∈ l → onSamePair b a →
    0 < recencyPart ms [a].

(** Second half: a candidate that is charged a recency penalty always has a
    strictly higher penalty than a candidate that is not. *)
Definition recencyDominatesCandidates : Prop :=
  ∀ ms c c',
    0 < recencyPart ms c → recencyPart ms c' = 0 →
    candidatePenalty ms c' < candidatePenalty ms c.

(** The last Period of a greedy history holds [x] and [y] as a pair. *)
Definition pairedInLast (months : list Greedy.Month) (x y : string) : Prop :=
  ∃ pm, last months = Some pm ∧ pairedIn (Greedy.assignments pm) x y.

(** The assignment lists of all Periods of a history of the randomized
    variant, in order. *)
Definition allAssignments (ms : list Month) : list Assignment :=
  ms ≫= (λ m, default [] (assignments m)).

(** How many assignments of [c] occur in [seen] with the same mentor and the
    same mentee, which the randomized variant tests on the keys. *)
Definition repeats (seen c : list Assignment) : nat :=
  length (filter (λ a, Exists (λ b, key b = key a) seen) c).

(** [l] is the assignment list of the latest Period before the last one that
    has a list. *)
Definition latestBeforeLast (ms : list Month) (l : list Assignment) : Prop :=
  ∃ older m newer lastMonth,
    ms = older ++ m :: newer ++ [lastMonth] ∧ assignments m = Some l
    ∧ ∀ m', m' ∈ newer → assignments m' = None.





(** What a run of the greedy [main] yields apart from the labels of its
    months: the exit status, or the roster, the rules and every month's skip
    list and assignments. *)
Definition withoutLabels (r : nat + Greedy.InputData)
    : nat + (option (list string) * option (list (list string))
             * option (list (list string * list Assignment))) :=
  match r with
  | inl status => inl status
  | inr d =>
      inr (Greedy.members d, Greedy.excluded d,
           fmap (M := list) (λ m, (Greedy.skip m, Greedy.assignments m))
             <$> Greedy.months d)
  end.

(** [name] takes part in [a]. *)
Definition takesPart (name : string) (a : Assignment) : Prop :=
  mentor a = name ∨ mentee a = name.

(** No member appears in more than one assignment of [l]. *)
Definition atMostOneAssignment (l : list Assignment) : Prop :=
  ∀ i j a b name,
    l !! i = Some a → l !! j = Some b → takesPart name a → takesPart name b → i = j.

End Spec.

(** ** Loop invariants

    The facts that the loops of the second and third variant maintain. *)
Module Invariants.

(** What [assignPair] of [CreateAssignments] guarantees of every assignment
    it pushes. *)
Definition admissible (excludedList : list (string * string)) (a : Assignment) : Prop :=
  mentor a ≠ mentee a ∧ ∀ rule, rule ∈ excludedList → ¬ Spec.matchesRule a rule.

(** The pools of [CreateAssignments] and the assignments made so far: every
    member is either still in the mentor pool or the mentor of one
    assignment, and likewise for mentees. *)
Definition poolsInv (members : list string) (excludedList : list (string * string))
    (st : CreateAssignments.State) : Prop :=
  (mentor <$> CreateAssignments.st_assignments st) ++ CreateAssignments.availableMentors st
    ≡ₚ members
  ∧ (mentee <$> CreateAssignments.st_assignments st) ++ CreateAssignments.availableMentees st
    ≡ₚ members
  ∧ Forall (admissible excludedList) (CreateAssignments.st_assignments st).

(** A computation that depends on the random source only through the draws
    it has ahead of it, and leaves two such sources in step. *)
Definition respects {A} (m : Rand A) : Prop :=
  ∀ g1 g2, same_draws g1 g2 →
    (m g1).1 = (m g2).1 ∧ same_draws (m g1).2 (m g2).2.

(** An entry of the pairing matrix of the greedy variant: [None] when
    [h[x]] or [h[x][y]] is undefined. *)
Definition entry (h : gmap string (gmap string nat)) (x y : string) : option nat :=
  h !! x ≫= (λ row, row !! y).

(** The greedy loop: the assigned and the skipped names are pairwise
    different, they are exactly the used members, all of them are on the
    roster, and no assignment matches an exclusion rule. *)
Definition greedyInv (members : list string) (excluded : list (list string))
    (st : Greedy.State) : Prop :=
  NoDup (participants (Greedy.st_assignments st) ++ Greedy.st_skip st)
  ∧ (∀ x, x ∈ Greedy.usedMembers st
          ↔ x ∈ participants (Greedy.st_assignments st) ++ Greedy.st_skip st)
  ∧ (∀ x, x ∈ Greedy.usedMembers st → x ∈ members)
  ∧ Forall (λ a, ∀ rule, rule ∈ excluded → ¬ Spec.matchesRuleL a rule)
           (Greedy.st_assignments st).

(** The greedy loop without exclusion rules: a member is skipped only once
    every member is used. *)
Definition skipInv (members : list string) (st : Greedy.State) : Prop :=
  Greedy.st_skip st = []
  ∨ (length (Greedy.st_skip st) = 1 ∧ ∀ m, m ∈ members → m ∈ Greedy.usedMembers st).

(** A string of ASCII digits only. *)
Fixpoint allDigits (s : string) : bool :=
  match s with
  | EmptyString => true
  | String c s' => Randomized.isDigit c && allDigits s'
  end.

(** A string without ASCII digits. *)
Fixpoint noDigit (s : string) : bool :=
  match s with
  | EmptyString => true
  | String c s' => negb (Randomized.isDigit c) && noDigit s'
  end.

(** The separator of the randomized variant's keys does not occur in [s]. *)
Fixpoint barFree (s : string) : bool :=
  match s with
  | EmptyString => true
  | String c s' => negb (Ascii.eqb c "|") && barFree s'
  end.

(** The recency test of [assignPair]: the mentor's latest assignment does
    not have this mentee, and the mentee's latest assignment does not have
    this mentor. *)
Definition notRecent (pastMonths : list CreateAssignments.MonthData) (a : Assignment) : Prop :=
  mentee <$> CreateAssignments.getRecentPair (mentor a) pastMonths ≠ Some (mentee a)
  ∧ mentor <$> CreateAssignments.getRecentPair (mentee a) pastMonths ≠ Some (mentor a).

(** No two assignments of [l] are on the same unordered pair. *)
Definition distinctPairs (l : list Assignment) : Prop :=
  ∀ i j a b, l !! i = Some a → l !! j = Some b → Spec.onSamePair a b → i = j.

(** The keys that [markPairUsed] has stored for the assignments [l]. *)
Definition usedKeys (l : list Assignment) : gset string :=
  list_to_set ((λ a, CreateAssignments.pairKey (mentor a) (mentee a)) <$> l).

(** What [createAssignments] maintains besides [poolsInv]. *)
Definition pairsInv (pastMonths : list CreateAssignments.MonthData)
    (st : CreateAssignments.State) : Prop :=
  Forall (notRecent pastMonths) (CreateAssignments.st_assignments st)
  ∧ CreateAssignments.usedPairs st = usedKeys (CreateAssignments.st_assignments st)
  ∧ distinctPairs (CreateAssignments.st_assignments st).

(** [st'] is a later state than [st]: the pools only lose names, the set of
    used pairs only gains keys. *)
Definition later (st st' : CreateAssignments.State) : Prop :=
  CreateAssignments.usedPairs st ⊆ CreateAssignments.usedPairs st'
  ∧ (∀ x, x ∈ CreateAssignments.availableMentors st' →
          x ∈ CreateAssignments.availableMentors st)
  ∧ (∀ x, x ∈ CreateAssignments.availableMentees st' →
          x ∈ CreateAssignments.availableMentees st).

(** [assignPair] refuses the pair in state [st]. *)
Definition refused (excludedList : list (string * string))
    (pastMonths : list CreateAssignments.MonthData)
    (st : CreateAssignments.State) (mentorName menteeName : string) : Prop :=
  (CreateAssignments.assignPair excludedList pastMonths mentorName menteeName st).1 = false.

(** The second loop of [createAssignments] after the mentors [done]: each of
    them that is still in the mentor pool is refused every name of the mentee
    pool. *)
Definition triedInv (excludedList : list (string * string))
    (pastMonths : list CreateAssignments.MonthData)
    (done : list string) (st : CreateAssignments.State) : Prop :=
  ∀ m e, m ∈ done → m ∈ CreateAssignments.availableMentors st →
    e ∈ CreateAssignments.availableMentees st →
    refused excludedList pastMonths st m e.

(** The skip list of the greedy loop: every member that a skipped member
    could have been paired with is used, and two skipped members are excluded
    from each other. *)
Definition skippedInv (members : list string) (excluded : list (list string))
    (st : Greedy.State) : Prop :=
  (∀ m e, m ∈ Greedy.st_skip st → e ∈ members → e ≠ m →
          Greedy.isPairExcluded m e excluded = false → e ∈ Greedy.usedMembers st)
  ∧ (∀ m m', m ∈ Greedy.st_skip st → m' ∈ Greedy.st_skip st → m ≠ m' →
             Greedy.isPairExcluded m m' excluded = true).

(** A list in non-decreasing order of [f]. *)
Fixpoint sortedBy {A} (f : A → nat) (l : list A) : Prop :=
  match l with
  | [] => True
  | x :: l' => (∀ y, y ∈ l' → f x ≤ f y) ∧ sortedBy f l'
  end.

(** The number of roster members that the rules allow as partners of [a]. *)
Definition optionCount (members : list string) (excluded : list (list string))
    (a : string) : nat :=
  length (filter (λ e, a ≠ e ∧ Greedy.isPairExcluded a e excluded = false) members).

End Invariants.

(** ** Sample inputs *)
Module Examples.

(** A random source, and a second one that is further along but has the
    same draws ahead. *)
Definition source0 : Rng := {| draws := λ i, i * 7 + 3; cursor := 0 |}.
Definition source1 : Rng := {| draws := λ i, (i - 5) * 7 + 3; cursor := 5 |}.

Definition roster5 : list string := ["A"; "B"; "C"; "D"; "E"].

Definition history2 : list Randomized.Month :=
  [ Randomized.mkMonth "2021年11月" None
      (Some [ {| mentor := "A"; mentee := "C" |}; {| mentor := "D"; mentee := "B" |} ]) None;
    Randomized.mkMonth "2021年12月" None None None ].

Definition input5 : Randomized.InputData :=
  Randomized.mkInputData roster5 (Some [("A", "B")]) history2.

(** A greedy history: A and B paired in 102 months, then A and C in the
    latest month. *)
Definition longHistory : list Greedy.Month :=
  replicate 102 (Greedy.mkMonth "m" [] [ {| mentor := "A"; mentee := "B" |} ])
  ++ [ Greedy.mkMonth "n" [] [ {| mentor := "A"; mentee := "C" |} ] ].

(** A randomized history of six members: an older month, the month that
    [main] takes [prevAssignments] from, and the latest month. *)
Definition prev6 : list Assignment :=
  [ {| mentor := "A"; mentee := "B" |}; {| mentor := "C"; mentee := "D" |};
    {| mentor := "E"; mentee := "F" |} ].

Definition history6 : list Randomized.Month :=
  [ Randomized.mkMonth "2021年10月" None
      (Some [ {| mentor := "A"; mentee := "D" |}; {| mentor := "B"; mentee := "E" |};
              {| mentor := "C"; mentee := "F" |} ]) None;
    Randomized.mkMonth "2021年11月" None (Some prev6) None;
    Randomized.mkMonth "2021年12月" None None None ].

Definition repeatsRecent : list Assignment :=
  [ {| mentor := "A"; mentee := "B" |}; {| mentor := "C"; mentee := "E" |};
    {| mentor := "D"; mentee := "F" |} ].

Definition repeatsOlder : list Assignment :=
  [ {| mentor := "A"; mentee := "D" |}; {| mentor := "B"; mentee := "E" |};
    {| mentor := "C"; mentee := "F" |} ].

(** A greedy history whose last Period has no assignment. *)
Definition idleHistory : list Greedy.Month :=
  [ Greedy.mkMonth "m" [] [ {| mentor := "A"; mentee := "B" |} ];
    Greedy.mkMonth "n" [] [] ].

(** Two randomized histories of two Periods: one in which only the first
    Period has a list, and one in which both have. *)
Definition historySwapped : list Randomized.Month :=
  [ Randomized.mkMonth "2021年11月" None (Some [ {| mentor := "A"; mentee := "B" |} ]) None;
    Randomized.mkMonth "2021年12月" None None None ].

Definition historyLast : list Randomized.Month :=
  [ Randomized.mkMonth "2021年11月" None (Some [ {| mentor := "C"; mentee := "D" |} ]) None;
    Randomized.mkMonth "2021年12月" None (Some [ {| mentor := "A"; mentee := "B" |} ]) None ].

End Examples.

(** * Properties *)

(** ** The orientation adjuster (randomized variant) *)
Section Adjuster.
Import Randomized Spec.

Lemma swapRoles_involutive a : swapRoles (swapRoles a) = a.
Proof. by destruct a. Qed.

Lemma swapRoles_fixed a : swapRoles a = a ↔ mentor a = mentee a.
Proof. destruct a; unfold swapRoles; cbn. split; [by intros [= ->]|by intros ->]. Qed.

Lemma setOf_cases a :
  setOf a = if decide (mentor a = mentee a) then [mentee a] else [mentor a; mentee a].
Proof.
  unfold setOf; cbn.
  destruct (decide_rel elem_of (mentor a) [mentee a]) as [H|H],
           (decide (mentor a = mentee a)) as [E|E];
    destruct (decide_rel elem_of (mentee a) []) as [H'|H'];
    try done; try (by apply elem_of_nil in H'); set_solver.
Qed.

(** The comparison of the two sets holds exactly for the two orientations of
    the candidate. *)
Lemma sameSet_spec pair a : sameSet pair a = true ↔ onSamePair pair a.
Proof.
  unfold sameSet, onSamePair. rewrite !setOf_cases.
  destruct pair as [pm pe], a as [am ae]; unfold swapRoles; cbn [mentor mentee].
  rewrite andb_true_iff, bool_decide_eq_true, forallb_forall.
  setoid_rewrite bool_decide_eq_true.
  setoid_rewrite <-list_elem_of_In.
  destruct (decide (pm = pe)) as [Hp|Hp], (decide (am = ae)) as [Ha|Ha];
    cbn [length];
    (split;
     [intros [? H]
     |intros [?|?]; simplify_eq/=; try (split; [done|]; set_solver)]);
    try done.
  - assert (pe ∈ [ae]) as ->%list_elem_of_singleton by (apply H; set_solver).
    left; congruence.
  - pose proof (H pm ltac:(set_solver)); pose proof (H pe ltac:(set_solver)).
    set_solver.
Qed.

Lemma sameSet_false pair a : sameSet pair a = false ↔ ¬ onSamePair pair a.
Proof. rewrite <-sameSet_spec. by destruct (sameSet pair a). Qed.

Lemma onSamePair_swapRoles pair a : onSamePair (swapRoles pair) a ↔ onSamePair pair a.
Proof. unfold onSamePair. rewrite swapRoles_involutive. tauto. Qed.

Lemma sameSet_swapRoles pair a : sameSet (swapRoles pair) a = sameSet pair a.
Proof.
  apply eq_true_iff_eq. by rewrite !sameSet_spec, onSamePair_swapRoles.
Qed.

(** On a history entry that really is on the candidate's pair, the callback
    flips exactly when the entry has the candidate's orientation. *)
Lemma onFound_eq pair a :
  onFound pair a = if decide (a = pair) then swapRoles pair else pair.
Proof.
  unfold onFound. destruct pair as [pm pe], a as [am ae]; unfold swapRoles; cbn.
  repeat case_decide; try done; destruct_and?; simplify_eq; try done.
  exfalso; tauto. 
Qed.

Lemma scanAssignments_None pair l :
  scanAssignments pair l = None ↔ ∀ a, a ∈ l → ¬ onSamePair pair a.
Proof.
  induction l as [|a l IH]; cbn.
  - split; [|done]. intros _ a H. by apply elem_of_nil in H.
  - destruct (sameSet pair a) eqn:E.
    + split; [done|]. intros H. apply sameSet_spec in E. destruct (H a); [left|done].
    + rewrite IH. apply sameSet_false in E. split.
      * intros H a' [->|?]%elem_of_cons; auto.
      * intros H a' ?. apply H. by right.
Qed.

Lemma scanAssignments_Some pair l r :
  scanAssignments pair l = Some r →
  ∃ a, a ∈ l ∧ onSamePair pair a ∧ r = onFound pair a.
Proof.
  induction l as [|a l IH]; cbn; [done|].
  destruct (sameSet pair a) eqn:E.
  - intros [= <-]. exists a. split; [left|]. by apply sameSet_spec in E.
  - intros (a' & ? & ? & ?)%IH. exists a'. split; [by right|done].
Qed.

Lemma scanAssignments_unique pair l a :
  a ∈ l → onSamePair pair a →
  (∀ a', a' ∈ l → onSamePair pair a' → a' = a) →
  scanAssignments pair l = Some (onFound pair a).
Proof.
  intros Hin Hon Huniq.
  destruct (scanAssignments pair l) as [r|] eqn:E.
  - apply scanAssignments_Some in E as (a' & ? & ? & ->).
    by rewrite (Huniq a').
  - rewrite scanAssignments_None in E. by destruct (E a).
Qed.

Lemma pairAbsent_cons pair m ms :
  pairAbsent pair (m :: ms) ↔
  (∀ l a, assignments m = Some l → a ∈ l → ¬ onSamePair pair a) ∧ pairAbsent pair ms.
Proof.
  unfold pairAbsent. split.
  - intros H. split; [intros l a; apply H; left|intros m' l a ?; apply H; by right].
  - intros [H1 H2] m' l a [->|?]%elem_of_cons; eauto.
Qed.

Lemma pairAbsent_app pair ms1 ms2 :
  pairAbsent pair (ms1 ++ ms2) ↔ pairAbsent pair ms1 ∧ pairAbsent pair ms2.
Proof.
  unfold pairAbsent. setoid_rewrite elem_of_app. naive_solver.
Qed.

Lemma pairAbsent_reverse pair ms : pairAbsent pair (reverse ms) ↔ pairAbsent pair ms.
Proof. unfold pairAbsent. by setoid_rewrite elem_of_reverse. Qed.

(** Months without the pair are passed over by the outer loop. *)
Lemma scanHistory_absent pair newer rest :
  pairAbsent pair newer → scanHistory pair (newer ++ rest) = scanHistory pair rest.
Proof.
  induction newer as [|m newer IH]; [done|].
  intros [Hm Hnewer]%pairAbsent_cons. cbn.
  destruct (assignments m) as [l|] eqn:El; [|by apply IH].
  assert (scanAssignments pair l = None) as ->; [|by apply IH].
  apply scanAssignments_None. eauto.
Qed.

(** The outer loop either stops at the latest month that has the pair, or
    finds the pair nowhere. *)
Lemma scanHistory_cases pair latestFirst :
  (∃ newer m l older a,
      latestFirst = newer ++ m :: older ∧ pairAbsent pair newer
      ∧ assignments m = Some l ∧ a ∈ l ∧ onSamePair pair a
      ∧ scanHistory pair latestFirst = onFound pair a)
  ∨ (pairAbsent pair latestFirst ∧ scanHistory pair latestFirst = pair).
Proof.
  induction latestFirst as [|m ms IH].
  - right. split; [|done]. intros m l a H. by apply elem_of_nil in H.
  - cbn. destruct (assignments m) as [l|] eqn:El.
    + destruct (scanAssignments pair l) as [r|] eqn:Es.
      * apply scanAssignments_Some in Es as (a & ? & ? & ->).
        left. exists [], m, l, ms, a. repeat split; try done.
        intros m' l' a' Hnil. by apply elem_of_nil in Hnil.
      * rewrite scanAssignments_None in Es.
        destruct IH as [(newer & m' & l' & older & a & -> & ? & ? & ? & ? & ?)|[? ?]].
        -- left. exists (m :: newer), m', l', older, a. repeat split; try done.
           apply pairAbsent_cons. split; [|done]. intros l0 a0 E0.
           assert (l0 = l) as -> by congruence. apply Es.
        -- right. split; [|done]. apply pairAbsent_cons. split; [|done].
           intros l0 a0 E0. assert (l0 = l) as -> by congruence. apply Es.
    + destruct IH as [(newer & m' & l' & older & a & -> & ? & ? & ? & ? & ?)|[? ?]].
      * left. exists (m :: newer), m', l', older, a. repeat split; try done.
        apply pairAbsent_cons. split; [|done]. congruence.
      * right. split; [|done]. apply pairAbsent_cons. split; [|done]. congruence.
Qed.

Lemma adjustOne_mostRecentIs history pair a :
  mostRecentIs history pair a → adjustOne history pair = onFound pair a.
Proof.
  intros (older & m & l & newer & -> & El & Hin & Hon & Huniq & Habs).
  unfold adjustOne. rewrite reverse_app, reverse_cons, <-app_assoc.
  rewrite scanHistory_absent by by apply pairAbsent_reverse.
  cbn. rewrite El. by rewrite (scanAssignments_unique pair l a).
Qed.

Lemma adjustOne_cases history pair :
  (∃ a, mostRecentHas history pair a ∧ adjustOne history pair = onFound pair a)
  ∨ (pairAbsent pair history ∧ adjustOne history pair = pair).
Proof.
  unfold adjustOne.
  destruct (scanHistory_cases pair (reverse history))
    as [(newer & m & l & older & a & E & ? & ? & ? & ? & ?)|[? ?]].
  - left. exists a. split; [|done].
    exists (reverse older), m, l, (reverse newer).
    apply (f_equal reverse) in E. rewrite reverse_involutive in E.
    rewrite E, reverse_app, reverse_cons, <-app_assoc. repeat split; try done.
    by apply pairAbsent_reverse.
  - right. split; [|done]. by apply pairAbsent_reverse.
Qed.

Lemma adjustOne_either history pair :
  adjustOne history pair = pair ∨ adjustOne history pair = swapRoles pair.
Proof.
  destruct (adjustOne_cases history pair) as [(a & _ & ->)|[_ ->]]; [|by left].
  rewrite onFound_eq. case_decide; [by right|by left].
Qed.

(** A second pass over an assignment that the first pass flipped. *)
Lemma scanAssignments_again pair l :
  match scanAssignments pair l with
  | Some r => r = swapRoles pair →
              scanAssignments (swapRoles pair) l = Some (swapRoles pair)
  | None => scanAssignments (swapRoles pair) l = None
  end.
Proof.
  induction l as [|a l IH]; cbn; [done|].
  rewrite sameSet_swapRoles. destruct (sameSet pair a); [|done].
  rewrite !onFound_eq, swapRoles_involutive. intros H. f_equal.
  repeat case_decide; congruence.
Qed.

Lemma scanHistory_again pair latestFirst :
  scanHistory pair latestFirst = swapRoles pair →
  scanHistory (swapRoles pair) latestFirst = swapRoles pair.
Proof.
  induction latestFirst as [|m ms IH]; cbn; [done|].
  destruct (assignments m) as [l|]; [|done].
  pose proof (scanAssignments_again pair l) as H.
  destruct (scanAssignments pair l) as [r|].
  - intros ->. by rewrite H.
  - by rewrite H.
Qed.

Lemma adjustOne_idempotent history pair :
  adjustOne history (adjustOne history pair) = adjustOne history pair.
Proof.
  destruct (adjustOne_either history pair) as [E|E]; rewrite E; [done|].
  by apply scanHistory_again.
Qed.

(** C4.  Position by position, [adjustAssignments] returns the candidate
    with mentor and mentee exchanged when the most recent historical
    assignment on the same unordered pair has the candidate's orientation;
    it returns the candidate unchanged when that assignment has the opposite
    orientation, and unchanged when the pair never occurs in the history.
    Conversely a candidate that comes out exchanged (and has two different
    names) occurs, in its own orientation, in the last month that holds its
    pair. *)
Theorem adjustAssignments_orientation (history : list Month) (candidate : list Assignment) :
  length (adjustAssignments candidate history) = length candidate
  ∧ ∀ i pair, candidate !! i = Some pair →
      ∃ r, adjustAssignments candidate history !! i = Some r
        ∧ (mostRecentIs history pair pair → r = swapRoles pair)
        ∧ (mostRecentIs history pair (swapRoles pair) → r = pair)
        ∧ (pairAbsent pair history → r = pair)
        ∧ (mentor pair ≠ mentee pair → r = swapRoles pair →
           mostRecentHas history pair pair).
Proof.
  unfold adjustAssignments. split; [by rewrite length_fmap|].
  intros i pair Hi. exists (adjustOne history pair).
  split; [by rewrite list_lookup_fmap, Hi|].
  repeat split.
  - intros ->%adjustOne_mostRecentIs. rewrite onFound_eq. by case_decide.
  - intros ->%adjustOne_mostRecentIs. rewrite onFound_eq.
    by case_decide.
  - intros Habs.
    destruct (adjustOne_cases history pair) as [(a & Hhas & _)|[_ ->]]; [|done].
    destruct Hhas as (older & m & l & newer & -> & ? & ? & ? & _).
    destruct (Habs m l a); [|done..]. apply elem_of_app. right. left.
  - intros Hne E.
    destruct (adjustOne_cases history pair) as [(a & Hhas & E')|[_ E']];
      rewrite E' in E.
    + rewrite onFound_eq in E. case_decide; [by subst a|].
      symmetry in E. by apply swapRoles_fixed in E.
    + symmetry in E. by apply swapRoles_fixed in E.
Qed.

Lemma adjustAssignments_orientation_witness :
  ∃ r,
    adjustAssignments
      [ {| mentor := "A"; mentee := "B" |}; {| mentor := "C"; mentee := "D" |} ]
      [ mkMonth "2021年10月" None (Some [ {| mentor := "A"; mentee := "B" |} ]) None ]
    !! 0 = Some r
    ∧ r = {| mentor := "B"; mentee := "A" |}.
Proof.
  destruct (proj2 (adjustAssignments_orientation
              [ mkMonth "2021年10月" None (Some [ {| mentor := "A"; mentee := "B" |} ]) None ]
              [ {| mentor := "A"; mentee := "B" |}; {| mentor := "C"; mentee := "D" |} ])
              0 {| mentor := "A"; mentee := "B" |} eq_refl)
    as (r & Hr & Hsame & _).
  exists r. split; [exact Hr|]. apply Hsame.
  exists [], (mkMonth "2021年10月" None (Some [ {| mentor := "A"; mentee := "B" |} ]) None),
         [ {| mentor := "A"; mentee := "B" |} ], [].
  split_and!; [done|done|by left|by left| |].
  - by intros a' ->%list_elem_of_singleton _.
  - intros m l a Hm. by apply elem_of_nil in Hm.
Defined.

(** C7.  The adjuster is idempotent: with the history fixed, adjusting an
    adjusted candidate list changes nothing. *)
Theorem adjustAssignments_idempotent (candidate : list Assignment) (history : list Month) :
  adjustAssignments (adjustAssignments candidate history) history
  = adjustAssignments candidate history.
Proof.
  unfold adjustAssignments. rewrite <-list_fmap_compose.
  apply list_fmap_ext. intros _ pair _. apply adjustOne_idempotent.
Qed.

End Adjuster.

(** ** The randomized search *)
Section RandomizedSearch.
Import Randomized Spec.

Lemma randomIndex_lt n g : 0 < n → (randomIndex n g).1 < n.
Proof.
  intros Hn. unfold randomIndex; cbn. destruct n; [lia|].
  apply Nat.mod_upper_bound. lia.
Qed.

Section Shuffle.
Context {A : Type}.
Implicit Types l copy array : list A.

Lemma swap_Permutation i j copy : swap i j copy ≡ₚ copy.
Proof.
  unfold swap.
  destruct (copy !! i) as [ci|] eqn:Ei; [|done].
  destruct (copy !! j) as [cj|] eqn:Ej; [|done].
  by apply Permutation_insert_swap.
Qed.

Lemma shuffleLoop_Permutation i copy g : (shuffleLoop i copy g).1 ≡ₚ copy.
Proof.
  revert copy g. induction i as [|i IH]; intros copy g; [done|].
  cbn [shuffleLoop]. unfold bind.
  destruct (randomIndex (S i + 1) g) as [j g'].
  by rewrite IH, swap_Permutation.
Qed.

Lemma shuffleArray_Permutation array g : (shuffleArray array g).1 ≡ₚ array.
Proof. apply shuffleLoop_Permutation. Qed.
End Shuffle.

Lemma participants_cons a l : participants (a :: l) = mentor a :: mentee a :: participants l.
Proof. done. Qed.

Lemma participants_app l1 l2 : participants (l1 ++ l2) = participants l1 ++ participants l2.
Proof. apply bind_app. Qed.

Lemma participants_zip l1 l2 :
  length l1 = length l2 → participants (zip_with mkAssignment l1 l2) ≡ₚ l1 ++ l2.
Proof.
  revert l2. induction l1 as [|x l1 IH]; intros [|y l2] [=]; [done|].
  cbn [zip_with]. rewrite participants_cons; cbn [mentor mentee].
  rewrite IH by done. cbn. by rewrite <-Permutation_middle.
Qed.

Lemma omap_pairAt l1 l2 k n :
  length l1 = length l2 →
  omap (pairAt (l1 ++ l2) (length l1)) (seq k n)
  = zip_with mkAssignment (take n (drop k l1)) (take n (drop k l2)).
Proof.
  intros Hlen. revert k. induction n as [|n IH]; intros k; [done|].
  cbn [seq omap list_omap]. fold (omap (pairAt (l1 ++ l2) (length l1)) (seq (S k) n)).
  rewrite IH. unfold pairAt.
  destruct (decide (k < length l1)) as [Hk|Hk].
  - destruct (lookup_lt_is_Some_2 l1 k Hk) as [x Hx].
    destruct (lookup_lt_is_Some_2 l2 k ltac:(lia)) as [y Hy].
    rewrite lookup_app_l, Hx by done.
    rewrite lookup_app_r by lia.
    replace (k + length l1 - length l1) with k by lia. rewrite Hy.
    rewrite (drop_S l1 x k), (drop_S l2 y k) by done. reflexivity.
  - rewrite (lookup_ge_None_2 (l1 ++ l2) (k + length l1)) by (rewrite length_app; lia).
    rewrite !drop_ge by lia.
    rewrite !take_nil. by destruct ((l1 ++ l2) !! k).
Qed.

Lemma omap_pairAt_halves l1 l2 half :
  length l1 = half → length l2 = half →
  omap (pairAt (l1 ++ l2) half) (seq 0 half) = zip_with mkAssignment l1 l2.
Proof.
  intros <- Hlen. rewrite omap_pairAt by done.
  by rewrite !drop_0, !firstn_all2 by lia.
Qed.

(** On an even number of names a candidate uses every name once. *)
Lemma generateCandidate_Permutation eligible g :
  length eligible `mod` 2 = 0 →
  participants (generateCandidate eligible g).1 ≡ₚ eligible.
Proof.
  intros Heven. unfold generateCandidate, bind.
  pose proof (shuffleArray_Permutation eligible g) as Hperm.
  destruct (shuffleArray eligible g) as [shuffled g']; cbn [fst snd ret] in *.
  rewrite <-Hperm. apply Permutation_length in Hperm.
  set (half := length shuffled / 2).
  assert (length shuffled = 2 * half) as Hlen.
  { subst half. rewrite Hperm. pose proof (Nat.div_mod_eq (length eligible) 2). lia. }
  unfold ret; cbn [fst].
  assert (length (take half shuffled) = half) as Htake by (rewrite length_take; lia).
  assert (length (drop half shuffled) = half) as Hdrop by (rewrite length_drop; lia).
  clearbody half.
  rewrite <-(take_drop half shuffled).
  rewrite omap_pairAt_halves by done.
  apply participants_zip. lia.
Qed.

(** One call of [generateAssignments], with the nested call left folded. *)
Lemma generateAssignments_S fuel dataMonths members skip prev excludedSet g :
  generateAssignments (S fuel) dataMonths members skip prev excludedSet g =
  let eligible := initialEligible members skip in
  let '((eligible, extraSkipped), g) :=
    if decide (length eligible `mod` 2 ≠ 0)
    then removeRandom eligible [] g
    else ((eligible, []), g) in
  let '(bestCandidate, g) :=
    attemptLoop attempts eligible (pastSet dataMonths) prev excludedSet None None g in
  match bestCandidate with
  | None =>
      if decide (length eligible = 0)
      then Some ({| res_assignments := []; res_extraSkip := extraSkipped |}, g)
      else
        let '(_, g) := removeRandom eligible extraSkipped g in
        generateAssignments fuel dataMonths members skip prev excludedSet g
  | Some best =>
      Some ({| res_assignments := best; res_extraSkip := extraSkipped |}, g)
  end.
Proof. reflexivity. Qed.

Lemma attemptLoop_Some n eligible past prev excludedSet best bestPenalty g c :
  (attemptLoop n eligible past prev excludedSet best bestPenalty g).1 = Some c →
  best = Some c
  ∨ ((∃ g', c = (generateCandidate eligible g').1)
     ∧ candidateHasExcluded c excludedSet = false).
Proof.
  revert best bestPenalty g. induction n as [|n IH]; intros best bestPenalty g.
  { cbn. by left. }
  cbn [attemptLoop]. unfold bind.
  destruct (generateCandidate eligible g) as [candidate g1] eqn:Ec.
  assert (candidate = (generateCandidate eligible g).1) as Hc by by rewrite Ec.
  destruct (candidateHasExcluded candidate excludedSet) eqn:Ex; [apply IH|].
  destruct (belowBest _ bestPenalty); [|apply IH].
  destruct (_ =? 0).
  - cbn. intros [= <-]. right. eauto.
  - intros [[= <-]|H]%IH; right; eauto.
Qed.

Lemma removeRandom_spec eligible extraSkipped g :
  0 < length eligible →
  ∃ index x, eligible !! index = Some x
    ∧ (removeRandom eligible extraSkipped g).1 = (delete index eligible, extraSkipped ++ [x]).
Proof.
  intros Hlen. unfold removeRandom, bind.
  pose proof (randomIndex_lt (length eligible) g Hlen) as Hlt.
  destruct (randomIndex (length eligible) g) as [index g1]; cbn [fst] in Hlt.
  destruct (lookup_lt_is_Some_2 eligible index Hlt) as [x Hx].
  exists index, x. by rewrite Hx.
Qed.

Lemma generateAssignments_Some fuel dataMonths members skip prev excludedSet g res g' :
  generateAssignments fuel dataMonths members skip prev excludedSet g = Some (res, g') →
  ∃ eligible,
    eligible ++ res_extraSkip res ≡ₚ initialEligible members skip
    ∧ length eligible `mod` 2 = 0
    ∧ length (res_extraSkip res) = length (initialEligible members skip) `mod` 2
    ∧ (∃ g'', res_assignments res = (generateCandidate eligible g'').1)
    ∧ candidateHasExcluded (res_assignments res) excludedSet = false.
Proof.
  revert g. induction fuel as [|fuel IH]; intros g; [done|].
  rewrite generateAssignments_S. cbv zeta.
  set (eligible0 := initialEligible members skip).
  assert (∃ eligible extra g1,
    (if decide (length eligible0 `mod` 2 ≠ 0)
     then removeRandom eligible0 [] g else (eligible0, [], g)) = (eligible, extra, g1)
    ∧ eligible ++ extra ≡ₚ eligible0
    ∧ length eligible `mod` 2 = 0
    ∧ length extra = length eligible0 `mod` 2)
    as (eligible & extra & g1 & -> & Hperm & Heven & Hextra).
  { case_decide as Hodd.
    - assert (0 < length eligible0) as Hpos.
      { destruct eligible0; cbn in *; [done|lia]. }
      destruct (removeRandom_spec eligible0 [] g Hpos) as (index & x & Hx & E).
      destruct (removeRandom eligible0 [] g) as [[el ex] g1]. cbn in E.
      injection E as -> ->. eexists _, _, _. split; [done|].
      pose proof (Nat.mod_upper_bound (length eligible0) 2 ltac:(lia)).
      pose proof (Nat.div_mod_eq (length eligible0) 2).
      pose proof (lookup_lt_Some _ _ _ Hx).
      split_and!.
      + rewrite (delete_Permutation eligible0 index x) at 2 by done.
        by rewrite <-Permutation_cons_append.
      + rewrite length_delete by eauto.
        replace (length eligible0 - 1) with (2 * (length eligible0 `div` 2)) by lia.
        by rewrite Nat.mul_comm, Nat.Div0.mod_mul.
      + cbn [length app]. lia.
    - eexists _, _, _. split; [done|]. rewrite app_nil_r.
      split_and!; [done| |cbn [length]]; lia. }
  destruct (attemptLoop _ _ _ _ _ _ _ g1) as [best g2] eqn:Eloop.
  destruct best as [best|].
  - intros [= <- <-]. exists eligible. cbn. split_and!; try done.
    + pose proof (attemptLoop_Some attempts eligible (pastSet dataMonths) prev
                    excludedSet None None g1 best) as H.
      rewrite Eloop in H. by destruct H as [?|[? _]].
    + pose proof (attemptLoop_Some attempts eligible (pastSet dataMonths) prev
                    excludedSet None None g1 best) as H.
      rewrite Eloop in H. by destruct H as [?|[_ ?]].
  - case_decide as Hnil.
    + intros [= <- <-]. apply nil_length_inv in Hnil as ->.
      exists []. cbn [res_assignments res_extraSkip]. split_and!; try done. by exists g.
    + destruct (removeRandom eligible extra g2) as [? g3]. apply IH.
Qed.

Lemma main_Printed fuel data g out :
  main fuel data g = Printed out →
  ∃ lastMonth parsed result g' label,
    last (months data) = Some lastMonth
    ∧ parseMonth (month lastMonth) = Some parsed
    ∧ generateAssignments fuel (months data) (members data) None
        (findPrevAssignments (months data)) (buildExcludedSet (excluded data)) g
      = Some (result, g')
    ∧ formatMonth (nextMonth parsed).1 (nextMonth parsed).2 = Some label
    ∧ out = {| members := members data;
               excluded := excluded data;
               months := months data ++
                 [ {| month := label;
                      skip := skipOf (res_extraSkip result);
                      assignments :=
                        Some (adjustAssignments (res_assignments result) (months data));
                      extraSkip := None |} ] |}.
Proof.
  unfold main.
  destruct (last (months data)) as [lastMonth|]; [|done].
  destruct (parseMonth (month lastMonth)) as [parsed|] eqn:Ep; [|done].
  destruct (nextMonth parsed) as [newYear newMonthNum] eqn:En.
  destruct (generateAssignments _ _ _ _ _ _ g) as [[result g']|]; [|done].
  destruct (formatMonth newYear newMonthNum) as [label|] eqn:El; [|done].
  intros [= <-]. exists lastMonth, parsed, result, g', label. by rewrite En.
Qed.

Lemma candidateHasExcluded_false candidate excludedSet :
  candidateHasExcluded candidate excludedSet = false ↔
  ∀ a, a ∈ candidate → key a ∉ excludedSet.
Proof.
  unfold candidateHasExcluded. rewrite <-not_true_iff_false, existsb_exists.
  setoid_rewrite bool_decide_eq_true. setoid_rewrite <-list_elem_of_In.
  naive_solver.
Qed.

Lemma elem_of_buildExcludedSet rules (rule : string * string) :
  rule ∈ rules →
  rule.1 +:+ "|" +:+ rule.2 ∈ buildExcludedSet (Some rules)
  ∧ rule.2 +:+ "|" +:+ rule.1 ∈ buildExcludedSet (Some rules).
Proof.
  unfold buildExcludedSet.
  set (f := λ (set : gset string) (pair : string * string),
              set ∪ {[ pair.1 +:+ "|" +:+ pair.2 ]} ∪ {[ pair.2 +:+ "|" +:+ pair.1 ]}).
  assert (∀ l acc k, k ∈ acc → k ∈ foldl f acc l) as Hmono.
  { induction l as [|p l IH]; intros acc k Hk; [done|]. apply IH. unfold f. set_solver. }
  generalize (∅ : gset string).
  induction rules as [|p rules IH]; intros acc Hin; [by apply elem_of_nil in Hin|].
  apply elem_of_cons in Hin as [->|Hin]; [|by apply IH].
  cbn [foldl]. split; apply Hmono; unfold f; set_solver.
Qed.

(** An assignment whose key is outside the excluded set matches no rule, and
    neither does the assignment with its roles exchanged. *)
Lemma key_not_excluded a rules rule :
  key a ∉ buildExcludedSet (Some rules) → rule ∈ rules →
  ¬ matchesRule a rule ∧ ¬ matchesRule (swapRoles a) rule.
Proof.
  intros Hkey [H1 H2]%elem_of_buildExcludedSet.
  unfold matchesRule, key in *. destruct a as [m e]; cbn in *.
  split; intros [[-> ->]|[-> ->]]; done.
Qed.

Lemma adjustAssignments_participants candidate history :
  participants (adjustAssignments candidate history) ≡ₚ participants candidate.
Proof.
  unfold adjustAssignments.
  induction candidate as [|pair candidate IH]; [done|].
  rewrite fmap_cons, !participants_cons, IH.
  destruct (adjustOne_either history pair) as [-> | ->]; [done|].
  cbn. apply Permutation_swap.
Qed.

Lemma elem_of_adjustAssignments r candidate history :
  r ∈ adjustAssignments candidate history →
  ∃ pair, pair ∈ candidate ∧ (r = pair ∨ r = swapRoles pair).
Proof.
  unfold adjustAssignments. intros (pair & -> & Hin)%list_elem_of_fmap.
  exists pair. split; [done|]. apply adjustOne_either.
Qed.

Lemma matchesRule_swapRoles a rule : matchesRule (swapRoles a) rule ↔ matchesRule a rule.
Proof. unfold matchesRule. destruct a; cbn. tauto. Qed.

Lemma randomized_pairs_valid fuel data g out :
  NoDup (members data) → main fuel data g = Printed out →
  ∃ newMonth l, 
    last (months out) = Some newMonth ∧ assignments newMonth = Some l
    ∧ NoDup (participants l)
    ∧ ∀ a rule, a ∈ l → rule ∈ default [] (excluded data) → ¬ matchesRule a rule.
Proof.
  intros Hnd (lastMonth & parsed & result & g' & label & _ & _ & Hgen & _ & ->)%main_Printed.
  eexists _, _. cbn [months assignments]. split; [by rewrite last_snoc|].
  split; [done|].
  apply generateAssignments_Some in Hgen
    as (eligible & Hperm & Heven & _ & [g'' Hcand] & Hex).
  split.
  - rewrite adjustAssignments_participants, Hcand, generateCandidate_Permutation by done.
    cbn [initialEligible] in Hperm. rewrite <-Hperm in Hnd.
    by apply NoDup_app in Hnd as [? _].
  - intros r rule (a & Ha & Hr)%elem_of_adjustAssignments Hrule.
    destruct (excluded data) as [rules|] eqn:Erules; [|by apply elem_of_nil in Hrule].
    rewrite candidateHasExcluded_false in Hex.
    destruct (key_not_excluded a rules rule (Hex a Ha) Hrule) as [H1 H2].
    by destruct Hr as [-> | ->].
Qed.

(** *** Inputs on which the search does not return *)

(** With two eligible members there are two candidates: the pair in one
    orientation or the other. *)
Lemma generateCandidate_two a b g :
  (generateCandidate [a; b] g).1 = [ {| mentor := a; mentee := b |} ]
  ∨ (generateCandidate [a; b] g).1 = [ {| mentor := b; mentee := a |} ].
Proof.
  unfold generateCandidate, shuffleArray, bind, randomIndex; cbn -[Nat.modulo].
  pose proof (Nat.mod_upper_bound (draws g (cursor g)) 2 ltac:(lia)) as Hlt.
  destruct (draws g (cursor g) `mod` 2) as [|[|j]]; [by right|by left|lia].
Qed.

Lemma attemptLoop_two_excluded n a b past prev excludedSet g :
  key {| mentor := a; mentee := b |} ∈ excludedSet →
  key {| mentor := b; mentee := a |} ∈ excludedSet →
  (attemptLoop n [a; b] past prev excludedSet None None g).1 = None.
Proof.
  intros Hab Hba. revert g. induction n as [|n IH]; intros g; [done|].
  cbn [attemptLoop]. unfold bind.
  pose proof (generateCandidate_two a b g) as Hc.
  destruct (generateCandidate [a; b] g) as [candidate g']; cbn in Hc.
  assert (candidateHasExcluded candidate excludedSet = true) as ->; [|apply IH].
  destruct Hc as [->| ->]; cbn; by rewrite bool_decide_eq_true_2.
Qed.

Lemma generateAssignments_two_excluded fuel dataMonths a b prev excludedSet g :
  key {| mentor := a; mentee := b |} ∈ excludedSet →
  key {| mentor := b; mentee := a |} ∈ excludedSet →
  generateAssignments fuel dataMonths [a; b] None prev excludedSet g = None.
Proof.
  intros Hab Hba. revert g. induction fuel as [|fuel IH]; intros g; [done|].
  rewrite generateAssignments_S. cbn [initialEligible].
  destruct (decide (length [a; b] `mod` 2 ≠ 0)) as [Hodd|_]; [done|].
  pose proof (attemptLoop_two_excluded attempts a b (pastSet dataMonths) prev
                excludedSet g Hab Hba) as H.
  destruct (attemptLoop _ _ _ _ _ _ _ g) as [best g']. cbn [fst] in H. subst best.
  destruct (decide (length [a; b] = 0)) as [|_]; [done|].
  destruct (removeRandom [a; b] [] g') as [? g'']. apply IH.
Qed.

End RandomizedSearch.

(** ** The two pools of [createAssignments] *)
Section PoolsInvariant.
Import CreateAssignments Spec Invariants.
Variable members : list string.
Variable excludedList : list (string * string).
Variable pastMonths : list MonthData.

Lemma spliceIndexOf_Permutation x l : x ∈ l → l ≡ₚ x :: spliceIndexOf x l.
Proof.
  intros Hin. unfold spliceIndexOf.
  destruct (list_find (λ y, y = x) l) as [[i y]|] eqn:E.
  - apply list_find_Some in E as (Hi & -> & _). by apply delete_Permutation.
  - apply list_find_None in E. rewrite Forall_forall in E. by destruct (E x).
Qed.

Lemma isExcluded_false mentorName menteeName :
  isExcluded (mentorName, menteeName) excludedList = false →
  ∀ rule, rule ∈ excludedList →
    ¬ matchesRule {| mentor := mentorName; mentee := menteeName |} rule.
Proof.
  unfold isExcluded. rewrite <-not_true_iff_false, existsb_exists.
  intros H rule Hrule Hm. apply H. exists rule. split; [by apply list_elem_of_In|].
  unfold matchesRule in Hm; cbn in Hm. apply orb_true_iff.
  rewrite !bool_decide_eq_true. naive_solver.
Qed.

Lemma assignPair_false mentorName menteeName st st' :
  assignPair excludedList pastMonths mentorName menteeName st = (false, st') → st' = st.
Proof.
  unfold assignPair. repeat (case_decide || case_match); congruence.
Qed.

Lemma assignPair_inv mentorName menteeName st :
  poolsInv members excludedList st →
  mentorName ∈ availableMentors st → menteeName ∈ availableMentees st →
  poolsInv members excludedList (assignPair excludedList pastMonths mentorName menteeName st).2.
Proof.
  intros (Hm & He & Hok) Hmin Hein. unfold assignPair, poolsInv.
  case_decide as Hne; [done|].
  destruct (isExcluded _ _) eqn:Hex; [done|].
  repeat (case_match; [done|]).
  split_and!; cbn.
  - rewrite fmap_app, <-app_assoc; cbn. rewrite <-Hm.
    by rewrite <-spliceIndexOf_Permutation.
  - rewrite fmap_app, <-app_assoc; cbn. rewrite <-He.
    by rewrite <-spliceIndexOf_Permutation.
  - apply Forall_app. split; [done|]. apply Forall_singleton.
    split; [done|]. by apply isExcluded_false.
Qed.

Lemma flipStep_inv member1 st member2 :
  poolsInv members excludedList st →
  poolsInv members excludedList (flipStep excludedList pastMonths member1 st member2).
Proof.
  intros Hinv. unfold flipStep.
  case_decide; [done|].
  destruct (last _) as [mostRecentPair|]; [|done].
  case_decide; [|done].
  destruct (_ && _) eqn:E; [|done].
  apply andb_true_iff in E as [?%bool_decide_eq_true ?%bool_decide_eq_true].
  by apply assignPair_inv.
Qed.

Lemma tryMentees_inv mentorName mentees st :
  poolsInv members excludedList st → mentorName ∈ availableMentors st →
  poolsInv members excludedList (tryMentees excludedList pastMonths mentorName mentees st).
Proof.
  revert st. induction mentees as [|menteeName rest IH]; intros st Hinv Hin; [done|].
  cbn [tryMentees]. case_bool_decide as He; [|by apply IH].
  pose proof (assignPair_inv mentorName menteeName st Hinv Hin He) as Hinv'.
  destruct (assignPair _ _ _ _ st) as [[] st'] eqn:E; [done|].
  apply assignPair_false in E as ->. by apply IH.
Qed.

Lemma fillStep_inv st mentorName :
  poolsInv members excludedList st →
  poolsInv members excludedList (fillStep excludedList pastMonths members st mentorName).
Proof.
  intros Hinv. unfold fillStep. case_bool_decide; [|done]. by apply tryMentees_inv.
Qed.

Lemma foldl_inv {A} (f : State → A → State) (l : list A) st :
  (∀ st x, poolsInv members excludedList st → poolsInv members excludedList (f st x)) →
  poolsInv members excludedList st → poolsInv members excludedList (foldl f st l).
Proof.
  intros Hf. revert st. induction l as [|x l IH]; intros st Hinv; [done|].
  cbn. apply IH. by apply Hf.
Qed.

Lemma createAssignments_inv :
  ∃ st, createAssignments members excludedList pastMonths
        = (st_assignments st, availableMentors st ++ availableMentees st)
      ∧ poolsInv members excludedList st.
Proof.
  unfold createAssignments. eexists. split; [done|].
  apply foldl_inv; [apply fillStep_inv|].
  apply foldl_inv.
  - intros st member1 Hinv. apply foldl_inv; [|done]. intros. by apply flipStep_inv.
  - by split_and!.
Qed.

End PoolsInvariant.

Lemma createAssignments_valid members excludedList pastMonths :
  NoDup members →
  let assignments := (CreateAssignments.createAssignments members excludedList pastMonths).1 in
  NoDup (mentor <$> assignments) ∧ NoDup (mentee <$> assignments)
  ∧ ∀ a, a ∈ assignments →
      mentor a ≠ mentee a ∧ ∀ rule, rule ∈ excludedList → ¬ Spec.matchesRule a rule.
Proof.
  intros Hnd.
  destruct (createAssignments_inv members excludedList pastMonths)
    as (st & -> & Hm & He & Hok).
  cbn [fst]. split_and!.
  - rewrite <-Hm in Hnd. by apply NoDup_app in Hnd as [? _].
  - rewrite <-He in Hnd. by apply NoDup_app in Hnd as [? _].
  - rewrite Forall_forall in Hok. intros a Ha. by apply Hok.
Qed.

(** ** The greedy loop *)
Section GreedyProperties.
Import Greedy Spec Invariants.

Lemma filter_none {A} (P : A → Prop) `{!∀ x, Decision (P x)} (l : list A) :
  (∀ x, x ∈ l → ¬ P x) → filter P l = [].
Proof.
  induction l as [|x l IH]; intros Hall; [done|].
  rewrite filter_cons_False by (apply Hall; by left).
  apply IH. intros y Hy. apply Hall. by right.
Qed.

Section Sorting.
Context {A : Type} (f : A → nat).

Lemma insertBy_Permutation x l : insertBy f x l ≡ₚ x :: l.
Proof.
  induction l as [|y l IH]; [done|]. cbn.
  case_match; [done|]. by rewrite IH, Permutation_swap.
Qed.

Lemma sortBy_Permutation l : sortBy f l ≡ₚ l.
Proof.
  unfold sortBy. induction l as [|x l IH]; [done|].
  cbn. by rewrite insertBy_Permutation, IH.
Qed.
End Sorting.

Section GreedyLoop.
Variable members : list string.
Variable excluded : list (list string).
Variable pairingHistory : gmap string (gmap string nat).
Variable previousMonth : option Month.

Let possiblePairings :=
  buildPossiblePairings members excluded pairingHistory previousMonth.

Lemma isPairExcluded_false x y :
  isPairExcluded x y excluded = false ↔
  ∀ rule, rule ∈ excluded → ¬ matchesRuleL {| mentor := x; mentee := y |} rule.
Proof.
  unfold isPairExcluded. rewrite <-not_true_iff_false, existsb_exists.
  setoid_rewrite orb_true_iff. setoid_rewrite bool_decide_eq_true.
  setoid_rewrite <-list_elem_of_In. unfold matchesRuleL; cbn. naive_solver.
Qed.

Lemma isPairExcluded_comm x y : isPairExcluded x y excluded = isPairExcluded y x excluded.
Proof.
  apply eq_true_iff_eq. unfold isPairExcluded. rewrite !existsb_exists.
  setoid_rewrite orb_true_iff. setoid_rewrite bool_decide_eq_true. naive_solver.
Qed.

Lemma lookup_foldl_insert {V} (F : string → V) (l : list string) (acc : gmap string V) k :
  foldl (λ pp x, <[ x := F x ]> pp) acc l !! k
  = if decide (k ∈ l) then Some (F k) else acc !! k.
Proof.
  revert acc. induction l as [|x l IH]; intros acc; cbn.
  - case_decide as H; [by apply elem_of_nil in H|done].
  - rewrite IH. destruct (decide (k = x)) as [->|Hne].
    + destruct (decide (x ∈ x :: l)) as [_|[]]; [|by left].
      case_decide; [done|]. by rewrite lookup_insert_eq.
    + rewrite lookup_insert_ne by done.
      destruct (decide (k ∈ l)), (decide (k ∈ x :: l)) as [Hin|Hnin]; try done.
      * destruct Hnin. by right.
      * by apply elem_of_cons in Hin as [?|?].
Qed.

Lemma possiblePairings_lookup mentorName :
  mentorName ∈ members →
  possiblePairings !! mentorName
  = Some (optionsFor members excluded pairingHistory previousMonth mentorName).
Proof.
  intros Hin. unfold possiblePairings, buildPossiblePairings.
  rewrite (lookup_foldl_insert
             (optionsFor members excluded pairingHistory previousMonth)).
  by case_decide.
Qed.

Lemma elem_of_optionsFor mentorName p :
  p ∈ optionsFor members excluded pairingHistory previousMonth mentorName ↔
  opt_mentee p ∈ members ∧ mentorName ≠ opt_mentee p
  ∧ isPairExcluded mentorName (opt_mentee p) excluded = false
  ∧ opt_score p = storedScore mentorName (opt_mentee p) pairingHistory previousMonth.
Proof.
  unfold optionsFor. rewrite sortBy_Permutation, list_elem_of_omap. split.
  - intros (e & He & Hp). destruct (_ || _) eqn:E; [done|].
    apply orb_false_iff in E as [?%bool_decide_eq_false ?].
    injection Hp as <-. by cbn.
  - intros (He & Hne & Hex & Hs). exists (opt_mentee p). split; [done|].
    rewrite Hex, bool_decide_eq_false_2 by done. cbn. destruct p; cbn in *. by subst.
Qed.

Lemma elem_of_validMenteesOf used mentorName p :
  mentorName ∈ members →
  p ∈ validMenteesOf possiblePairings used mentorName ↔
  (opt_mentee p ∉ used) ∧ opt_mentee p ∈ members ∧ mentorName ≠ opt_mentee p
  ∧ isPairExcluded mentorName (opt_mentee p) excluded = false
  ∧ opt_score p = storedScore mentorName (opt_mentee p) pairingHistory previousMonth.
Proof.
  intros Hin. unfold validMenteesOf.
  rewrite possiblePairings_lookup by done. cbn.
  by rewrite list_elem_of_filter, elem_of_optionsFor.
Qed.

(** The three ways in which one iteration can leave the state. *)
Lemma step_cases st mentorName :
  let st' := step excluded previousMonth possiblePairings st mentorName in
  (mentorName ∈ usedMembers st ∧ st' = st)
  ∨ ((mentorName ∉ usedMembers st)
     ∧ validMenteesOf possiblePairings (usedMembers st) mentorName = []
     ∧ st' = {| st_assignments := st_assignments st;
                usedMembers := usedMembers st ∪ {[ mentorName ]};
                st_skip := st_skip st ++ [mentorName] |})
  ∨ ((mentorName ∉ usedMembers st)
     ∧ ∃ p, p ∈ validMenteesOf possiblePairings (usedMembers st) mentorName
         ∧ (st' = assign mentorName (opt_mentee p) st
            ∨ st' = assign (opt_mentee p) mentorName st)).
Proof.
  cbv zeta. unfold step.
  case_decide as Hused; [by left|]. right.
  destruct (validMenteesOf _ _ _) as [|selected rest] eqn:Ev; [by left|]. right.
  split; [done|].
  destruct (match previousMonth with Some _ => _ | None => _ end).
  - destruct (_ && _).
    + exists selected. split; [left|by right].
    + case_match.
      * destruct rest as [|second rest']; [by cbn in *; lia|]. cbn.
        exists second. split; [right; left|by left].
      * exists selected. split; [left|by left].
  - exists selected. split; [left|by left].
Qed.

Lemma assign_inv st x y :
  greedyInv members excluded st →
  x ∈ members → y ∈ members → x ≠ y →
  x ∉ usedMembers st → y ∉ usedMembers st →
  isPairExcluded x y excluded = false →
  greedyInv members excluded (assign x y st).
Proof.
  intros (Hnd & Hused & Hmem & Hok) Hx Hy Hne Hxu Hyu Hex.
  unfold greedyInv, assign; cbn [st_assignments usedMembers st_skip].
  rewrite participants_app, participants_cons; cbn [mentor mentee participants mbind list_bind app].
  split_and!.
  - rewrite Hused in Hxu, Hyu.
    rewrite <-app_assoc. cbn [app].
    rewrite <-(Permutation_middle _ _ x), <-(Permutation_middle _ _ y).
    repeat constructor; [|done..].
    intros [?|?]%elem_of_cons; done.
  - intros z. rewrite !elem_of_union, !elem_of_singleton, Hused.
    rewrite !elem_of_app, !elem_of_cons, elem_of_nil. tauto.
  - intros z. rewrite !elem_of_union, !elem_of_singleton. intros [[?| ->]| ->]; auto.
  - apply Forall_app. split; [done|]. apply Forall_singleton.
    by apply isPairExcluded_false.
Qed.

Lemma step_inv st mentorName :
  mentorName ∈ members →
  greedyInv members excluded st →
  greedyInv members excluded (step excluded previousMonth possiblePairings st mentorName).
Proof.
  intros Hin Hinv.
  destruct (step_cases st mentorName)
    as [[_ ->]|[(Hu & _ & ->)|(Hu & p & Hp & [-> | ->])]]; [done|..].
  - destruct Hinv as (Hnd & Hused & Hmem & Hok).
    unfold greedyInv; cbn [st_assignments usedMembers st_skip]. split_and!; [| | |done].
    + rewrite app_assoc. apply NoDup_app. split_and!; [done| |apply NoDup_singleton].
      intros x Hx ->%list_elem_of_singleton. by apply Hused in Hx.
    + intros z. rewrite elem_of_union, elem_of_singleton, Hused.
      rewrite !elem_of_app, list_elem_of_singleton. tauto.
    + intros z. rewrite elem_of_union, elem_of_singleton. intros [?| ->]; auto.
  - apply elem_of_validMenteesOf in Hp as (? & ? & ? & ? & _); [|done].
    by apply assign_inv.
  - apply elem_of_validMenteesOf in Hp as (? & ? & ? & ? & _); [|done].
    apply assign_inv; try done. by rewrite isPairExcluded_comm.
Qed.

Lemma step_used_mono st mentorName x :
  x ∈ usedMembers st →
  x ∈ usedMembers (step excluded previousMonth possiblePairings st mentorName).
Proof.
  intros Hx.
  destruct (step_cases st mentorName)
    as [[_ ->]|[(Hu & _ & ->)|(Hu & p & Hp & [-> | ->])]]; [done|..];
    cbn; set_solver.
Qed.

Lemma step_uses st mentorName :
  mentorName ∈ usedMembers (step excluded previousMonth possiblePairings st mentorName).
Proof.
  destruct (step_cases st mentorName)
    as [[? ->]|[(Hu & _ & ->)|(Hu & p & Hp & [-> | ->])]]; [done|..];
    cbn; set_solver.
Qed.

Lemma loop_inv order st :
  (∀ x, x ∈ order → x ∈ members) →
  greedyInv members excluded st →
  greedyInv members excluded (foldl (step excluded previousMonth possiblePairings) st order)
  ∧ (∀ x, x ∈ usedMembers st →
          x ∈ usedMembers (foldl (step excluded previousMonth possiblePairings) st order))
  ∧ (∀ x, x ∈ order →
          x ∈ usedMembers (foldl (step excluded previousMonth possiblePairings) st order)).
Proof.
  revert st. induction order as [|m order IH]; intros st Hsub Hinv; cbn [foldl].
  { split_and!; [done..|]. intros x Hx. by apply elem_of_nil in Hx. }
  destruct (IH (step excluded previousMonth possiblePairings st m)) as (H1 & H2 & H3).
  { intros x Hx. apply Hsub. by right. }
  { apply step_inv; [|done]. apply Hsub. by left. }
  split_and!; [done| |].
  - intros x Hx. by apply H2, step_used_mono.
  - intros x [->|Hx]%elem_of_cons; [|by apply H3]. apply H2, step_uses.
Qed.

End GreedyLoop.

Lemma greedyInv_init members excluded :
  greedyInv members excluded {| st_assignments := []; usedMembers := ∅; st_skip := [] |}.
Proof.
  unfold greedyInv; cbn. split_and!; [constructor| | |done].
  - intros x. split; [set_solver|]. by intros ?%elem_of_nil.
  - set_solver.
Qed.

(** The loop state from which [generateNewAssignments] reads its result. *)
Lemma generateNewAssignments_inv members excluded months :
  ∃ st, generateNewAssignments members excluded months
        = (st_assignments st, st_skip st)
      ∧ st = foldl (step excluded (last months)
                      (buildPossiblePairings members excluded
                         (countPairings members months) (last months)))
                   {| st_assignments := []; usedMembers := ∅; st_skip := [] |}
                   (sortBy (λ a, length (validMenteesOf
                      (buildPossiblePairings members excluded
                         (countPairings members months) (last months)) ∅ a)) members)
      ∧ greedyInv members excluded st
      ∧ ∀ x, x ∈ members → x ∈ usedMembers st.
Proof.
  unfold generateNewAssignments.
  set (ph := countPairings members months).
  set (pp := buildPossiblePairings members excluded ph (last months)).
  set (order := sortBy _ members).
  destruct (loop_inv members excluded ph (last months) order
              {| st_assignments := []; usedMembers := ∅; st_skip := [] |})
    as (Hinv & _ & Hall).
  { intros x. unfold order. by rewrite sortBy_Permutation. }
  { apply greedyInv_init. }
  fold pp in Hinv, Hall.
  set (st := foldl _ _ order) in *.
  assert (∀ x, x ∈ members → x ∈ usedMembers st) as Hall'.
  { intros x Hx. apply Hall. unfold order. by rewrite sortBy_Permutation. }
  exists st. split_and!; [|done..].
  f_equal. rewrite <-(app_nil_r (st_skip st)) at 2. f_equal.
  apply filter_none. intros x Hx Hnot. by apply Hnot, Hall'.
Qed.

Lemma length_participants l : length (participants l) = 2 * length l.
Proof.
  induction l as [|a l IH]; [done|]. rewrite participants_cons. cbn [length]. lia.
Qed.

(** The greedy result splits the roster: every member is in one assignment or
    in the skip list, and in one only. *)
Lemma generateNewAssignments_Permutation members excluded months :
  NoDup members →
  participants (generateNewAssignments members excluded months).1
    ++ (generateNewAssignments members excluded months).2 ≡ₚ members.
Proof.
  intros Hnd.
  destruct (generateNewAssignments_inv members excluded months)
    as (st & -> & _ & (Hnd' & Hused & Hmem & _) & Hall).
  cbn [fst snd]. apply NoDup_Permutation; [done..|].
  intros x. rewrite <-Hused. split; [apply Hmem|apply Hall].
Qed.

Section NoExclusions.
Variable members : list string.
Variable pairingHistory : gmap string (gmap string nat).
Variable previousMonth : option Month.

Let possiblePairings :=
  buildPossiblePairings members [] pairingHistory previousMonth.

Lemma validMenteesOf_nil used mentorName e :
  mentorName ∈ members →
  validMenteesOf possiblePairings used mentorName = [] →
  e ∈ members → e ≠ mentorName → e ∈ used.
Proof.
  intros Hin Hnil He Hne.
  destruct (decide (e ∈ used)) as [|Hnu]; [done|].
  assert ({| opt_mentee := e;
             opt_score := storedScore mentorName e pairingHistory previousMonth |}
          ∈ validMenteesOf possiblePairings used mentorName) as Hp.
  { apply elem_of_validMenteesOf; [done|]. cbn. by split_and!. }
  rewrite Hnil in Hp. by apply elem_of_nil in Hp.
Qed.

Lemma step_skipInv st mentorName :
  mentorName ∈ members →
  skipInv members st →
  skipInv members (step [] previousMonth possiblePairings st mentorName).
Proof.
  intros Hin Hinv. unfold possiblePairings.
  destruct (step_cases members [] pairingHistory previousMonth st mentorName)
    as [[_ ->]|[(Hu & Hnil & ->)|(Hu & p & Hp & [-> | ->])]]; [done|..].
  - destruct Hinv as [Hskip|[_ Hall]]; [|exfalso; apply Hu, Hall, Hin].
    right. cbn [st_skip usedMembers]. rewrite Hskip. split; [done|].
    intros m Hm. destruct (decide (m = mentorName)) as [->|Hne]; [set_solver|].
    apply elem_of_union. left. by apply (validMenteesOf_nil (usedMembers st) mentorName m).
  - destruct Hinv as [Hskip|[_ Hall]]; [by left|exfalso; apply Hu, Hall, Hin].
  - destruct Hinv as [Hskip|[_ Hall]]; [by left|exfalso; apply Hu, Hall, Hin].
Qed.

Lemma loop_skipInv order st :
  (∀ x, x ∈ order → x ∈ members) →
  skipInv members st →
  skipInv members (foldl (step [] previousMonth possiblePairings) st order).
Proof.
  revert st. induction order as [|m order IH]; intros st Hsub Hinv; [done|].
  cbn [foldl]. apply IH.
  - intros x Hx. apply Hsub. by right.
  - apply step_skipInv; [|done]. apply Hsub. by left.
Qed.
End NoExclusions.

(** Without exclusion rules the greedy loop leaves at most one member out. *)
Lemma generateNewAssignments_skip_le members months :
  length (generateNewAssignments members [] months).2 ≤ 1.
Proof.
  destruct (generateNewAssignments_inv members [] months) as (st & -> & Est & _ & _).
  cbn [snd].
  assert (skipInv members st) as [E|[E _]]; [|rewrite E; cbn; lia..].
  rewrite Est. apply loop_skipInv; [|by left].
  intros x. by rewrite sortBy_Permutation.
Qed.

Lemma generateNewAssignments_skip_parity members months :
  NoDup members →
  length (generateNewAssignments members [] months).2 = length members `mod` 2.
Proof.
  intros Hnd.
  pose proof (generateNewAssignments_skip_le members months) as Hle.
  pose proof (generateNewAssignments_Permutation members [] months Hnd) as Hperm.
  apply Permutation_length in Hperm.
  rewrite length_app, length_participants in Hperm.
  rewrite <-Hperm, Nat.add_comm, Nat.mul_comm, Nat.Div0.mod_add.
  symmetry. apply Nat.mod_small.
  destruct (length (generateNewAssignments members [] months).2) as [|[|?]]; lia.
Qed.

End GreedyProperties.

(** ** Dependence on the random source *)
Section Determinism.
Import Randomized Spec Invariants.

Lemma respects_ret {A} (a : A) : respects (ret a).
Proof. by intros g1 g2 H. Qed.

Lemma respects_bind {A B} (m : Rand A) (k : A → Rand B) :
  respects m → (∀ a, respects (k a)) → respects (bind m k).
Proof.
  intros Hm Hk g1 g2 Hg. unfold bind.
  destruct (Hm g1 g2 Hg) as [E Hg'].
  destruct (m g1) as [a1 g1'], (m g2) as [a2 g2']. cbn [fst snd] in *. subst a2.
  by apply Hk.
Qed.

Lemma respects_randomIndex n : respects (randomIndex n).
Proof.
  intros g1 g2 Hg. unfold randomIndex; cbn [fst snd]. split.
  - pose proof (Hg 0) as H0. rewrite !Nat.add_0_r in H0. by rewrite H0.
  - intros i. cbn [draws cursor]. pose proof (Hg (S i)) as Hi.
    by rewrite !Nat.add_succ_r in Hi.
Qed.

Lemma respects_shuffleLoop {A} i (copy : list A) : respects (shuffleLoop i copy).
Proof.
  revert copy. induction i as [|i IH]; intros copy; [apply respects_ret|].
  cbn [shuffleLoop]. apply respects_bind; [apply respects_randomIndex|].
  intros j. apply IH.
Qed.

Lemma respects_generateCandidate eligible : respects (generateCandidate eligible).
Proof.
  unfold generateCandidate. apply respects_bind; [apply respects_shuffleLoop|].
  intros shuffled. apply respects_ret.
Qed.

Lemma respects_removeRandom eligible extraSkipped :
  respects (removeRandom eligible extraSkipped).
Proof.
  unfold removeRandom. apply respects_bind; [apply respects_randomIndex|].
  intros index. apply respects_ret.
Qed.

Lemma respects_attemptLoop n eligible past prev excludedSet best bestPenalty :
  respects (attemptLoop n eligible past prev excludedSet best bestPenalty).
Proof.
  revert best bestPenalty. induction n as [|n IH]; intros best bestPenalty;
    [apply respects_ret|].
  cbn [attemptLoop]. apply respects_bind; [apply respects_generateCandidate|].
  intros candidate. repeat case_match; auto using respects_ret.
Qed.

(** Two sources with the same draws ahead give the same pairing, or both
    leave the search without an answer. *)
Lemma generateAssignments_same_draws fuel dataMonths members skip prev excludedSet g1 g2 :
  same_draws g1 g2 →
  fst <$> generateAssignments fuel dataMonths members skip prev excludedSet g1
  = fst <$> generateAssignments fuel dataMonths members skip prev excludedSet g2.
Proof.
  revert g1 g2. induction fuel as [|fuel IH]; intros g1 g2 Hg; [done|].
  rewrite !generateAssignments_S. cbv zeta.
  set (eligible0 := initialEligible members skip).
  assert (respects (λ g, if decide (length eligible0 `mod` 2 ≠ 0)
                         then removeRandom eligible0 [] g
                         else (eligible0, [], g))) as Hfirst.
  { case_decide; [apply respects_removeRandom|apply (respects_ret (eligible0, []))]. }
  destruct (Hfirst g1 g2 Hg) as [E1 Hg1]. cbv beta in E1, Hg1.
  destruct (if decide (length eligible0 `mod` 2 ≠ 0) then removeRandom eligible0 [] g1
            else (eligible0, [], g1)) as [[eligible extra] g1'].
  destruct (if decide (length eligible0 `mod` 2 ≠ 0) then removeRandom eligible0 [] g2
            else (eligible0, [], g2)) as [[eligible' extra'] g2'].
  cbn [fst snd] in E1, Hg1. injection E1 as <- <-.
  destruct (respects_attemptLoop attempts eligible (pastSet dataMonths) prev excludedSet
              None None g1' g2' Hg1) as [E2 Hg2].
  destruct (attemptLoop _ _ _ _ _ _ _ g1') as [best g1''].
  destruct (attemptLoop _ _ _ _ _ _ _ g2') as [best' g2''].
  cbn [fst snd] in E2, Hg2. subst best'.
  destruct best as [best|]; [done|].
  destruct (decide (length eligible = 0)); [done|].
  destruct (respects_removeRandom eligible extra g1'' g2'' Hg2) as [_ Hg3].
  destruct (removeRandom eligible extra g1'') as [? g1'''].
  destruct (removeRandom eligible extra g2'') as [? g2'''].
  by apply IH.
Qed.

Lemma main_same_draws fuel data g1 g2 :
  same_draws g1 g2 → main fuel data g1 = main fuel data g2.
Proof.
  intros Hg. unfold main.
  destruct (last (months data)) as [lastMonth|]; [|done].
  destruct (parseMonth (month lastMonth)) as [parsed|]; [|done].
  destruct (nextMonth parsed) as [newYear newMonthNum].
  pose proof (generateAssignments_same_draws fuel (months data) (members data) None
                (findPrevAssignments (months data)) (buildExcludedSet (excluded data))
                g1 g2 Hg) as E.
  destruct (generateAssignments _ _ _ _ _ _ g1) as [[r1 ?]|],
           (generateAssignments _ _ _ _ _ _ g2) as [[r2 ?]|]; cbn in E; try done.
  by injection E as ->.
Qed.

End Determinism.

(** ** The pairing matrix of the greedy variant *)
Section HistoryIndex.
Import Greedy Spec Invariants.

Lemma timesPaired_entry h x y :
  timesPaired h x y = (λ _, default 0 (entry h x y)) <$> h !! x.
Proof. unfold timesPaired, entry. by destruct (h !! x). Qed.

(** Counting never adds or removes a row of the matrix. *)
Lemma row_bump a b h x : is_Some (bump a b h !! x) ↔ is_Some (h !! x).
Proof.
  unfold bump. destruct (h !! a) as [row|] eqn:Ea; [|done].
  destruct (row !! b); [|done].
  destruct (decide (a = x)) as [->|Hne].
  - rewrite lookup_insert_eq, Ea. split; eauto.
  - by rewrite lookup_insert_ne.
Qed.

Lemma row_emptyHistory members x : is_Some (emptyHistory members !! x) ↔ x ∈ members.
Proof.
  unfold emptyHistory.
  rewrite (lookup_foldl_insert
    (λ mentorName, foldl (λ (row : gmap string nat) menteeName,
           if decide (mentorName ≠ menteeName) then <[ menteeName := 0 ]> row else row)
        ∅ members)).
  case_decide; [split; eauto|]. rewrite lookup_empty. split; [by intros [??]|done].
Qed.

(** The matrix has a row exactly for the roster members. *)
Lemma row_countPairings members months x :
  is_Some (countPairings members months !! x) ↔ x ∈ members.
Proof.
  rewrite <-row_emptyHistory. unfold countPairings. generalize (emptyHistory members).
  induction months as [|m months IH]; intros h; [done|].
  cbn [foldl]. rewrite IH. clear IH. generalize (assignments m). intros l. revert h.
  induction l as [|a l IH]; intros h; [done|].
  cbn [foldl]. by rewrite IH, !row_bump.
Qed.

Lemma entry_bump a b h x y :
  entry (bump a b h) x y
  = if decide (a = x ∧ b = y) then S <$> entry h x y else entry h x y.
Proof.
  unfold entry, bump.
  destruct (h !! a) as [row|] eqn:Ea.
  - destruct (row !! b) as [n|] eqn:Eb.
    + destruct (decide (a = x)) as [->|Hne].
      * rewrite lookup_insert_eq, Ea. cbn.
        destruct (decide (b = y)) as [->|Hne'].
        -- rewrite lookup_insert_eq, Eb. by rewrite decide_True.
        -- rewrite lookup_insert_ne by done. rewrite decide_False; [done|]. tauto.
      * rewrite lookup_insert_ne by done. rewrite decide_False; [done|]. tauto.
    + case_decide as H; [|done]. destruct H as [-> ->]. by rewrite Ea; cbn; rewrite Eb.
  - case_decide as H; [|done]. destruct H as [-> ->]. by rewrite Ea.
Qed.

Lemma lookup_row mentorName (l : list string) (acc : gmap string nat) y :
  foldl (λ (row : gmap string nat) menteeName,
           if decide (mentorName ≠ menteeName) then <[ menteeName := 0 ]> row else row)
        acc l !! y
  = if decide (y ∈ l ∧ mentorName ≠ y) then Some 0 else acc !! y.
Proof.
  revert acc. induction l as [|e l IH]; intros acc; cbn [foldl].
  - rewrite decide_False; [done|]. intros [?%elem_of_nil _]. done.
  - rewrite IH. destruct (decide (y ∈ l ∧ mentorName ≠ y)) as [[? ?]|Hn].
    + rewrite decide_True; [done|]. split; [by right|done].
    + destruct (decide (mentorName ≠ e)) as [Hne|He].
      * destruct (decide (e = y)) as [->|Hey].
        -- rewrite lookup_insert_eq. rewrite decide_True; [done|]. split; [by left|done].
        -- rewrite lookup_insert_ne by done. rewrite decide_False; [done|].
           intros [[?|?]%elem_of_cons ?]; [done|tauto].
      * destruct (decide (y ∈ e :: l ∧ mentorName ≠ y)) as [[[->|?]%elem_of_cons ?]|_];
          [done|tauto|done].
Qed.

Lemma entry_emptyHistory members x y :
  entry (emptyHistory members) x y
  = if decide (x ∈ members ∧ y ∈ members ∧ x ≠ y) then Some 0 else None.
Proof.
  unfold entry, emptyHistory.
  rewrite (lookup_foldl_insert
    (λ mentorName, foldl (λ (row : gmap string nat) menteeName,
           if decide (mentorName ≠ menteeName) then <[ menteeName := 0 ]> row else row)
        ∅ members)).
  destruct (decide (x ∈ members)) as [Hx|Hx]; cbn.
  - rewrite lookup_row, lookup_empty.
    destruct (decide (y ∈ members ∧ x ≠ y)) as [[? ?]|Hn].
    + by rewrite decide_True.
    + rewrite decide_False; [done|]. tauto.
  - rewrite lookup_empty. cbn. rewrite decide_False; [done|]. tauto.
Qed.

(** One assignment of the history raises the entry of its own pair, in both
    orientations, and no other entry. *)
Lemma entry_bump_both a h x y :
  x ≠ y →
  entry (bump (mentee a) (mentor a) (bump (mentor a) (mentee a) h)) x y
  = if decide ((mentor a = x ∧ mentee a = y) ∨ (mentor a = y ∧ mentee a = x))
    then S <$> entry h x y else entry h x y.
Proof.
  intros Hne. rewrite !entry_bump.
  destruct (decide (mentee a = x ∧ mentor a = y)) as [[? ?]|H1],
           (decide (mentor a = x ∧ mentee a = y)) as [[? ?]|H2].
  - congruence.
  - rewrite decide_True; [done|]. by right.
  - rewrite decide_True; [done|]. by left.
  - rewrite decide_False; [done|]. tauto.
Qed.

Lemma entry_fold_assignments l h x y :
  x ≠ y →
  entry (foldl (λ h a, bump (mentee a) (mentor a) (bump (mentor a) (mentee a) h)) h l) x y
  = (λ n, n + length (filter (λ a, (mentor a = x ∧ mentee a = y)
                                   ∨ (mentor a = y ∧ mentee a = x)) l))
    <$> entry h x y.
Proof.
  intros Hne. revert h. induction l as [|a l IH]; intros h; cbn [foldl].
  - destruct (entry h x y); cbn; [f_equal; lia|done].
  - rewrite IH, entry_bump_both by done.
    destruct (decide ((mentor a = x ∧ mentee a = y) ∨ (mentor a = y ∧ mentee a = x))).
    + rewrite filter_cons_True by done. destruct (entry h x y); cbn; [f_equal; lia|done].
    + by rewrite filter_cons_False by done.
Qed.

Lemma entry_countPairings members months x y :
  x ≠ y →
  entry (countPairings members months) x y
  = if decide (x ∈ members ∧ y ∈ members ∧ x ≠ y)
    then Some (occurrences x y months) else None.
Proof.
  intros Hne. unfold countPairings, occurrences.
  assert (∀ h, entry (foldl (λ h m,
                 foldl (λ h a, bump (mentee a) (mentor a) (bump (mentor a) (mentee a) h))
                       h (assignments m)) h months) x y
             = (λ n, n + length (filter (λ a, (mentor a = x ∧ mentee a = y)
                                              ∨ (mentor a = y ∧ mentee a = x))
                                        (months ≫= assignments)))
               <$> entry h x y) as H.
  { induction months as [|m months IH]; intros h; cbn [foldl].
    - destruct (entry h x y); cbn; [f_equal; lia|done].
    - rewrite IH, entry_fold_assignments by done.
      rewrite bind_cons, filter_app, length_app.
      destruct (entry h x y); cbn; [f_equal; lia|done]. }
  rewrite H, entry_emptyHistory. by case_decide.
Qed.

(** The History Indexer: for two different roster members the matrix holds
    the number of past assignments on their pair, in either orientation. *)
Lemma timesPaired_countPairings members months x y :
  x ∈ members → y ∈ members → x ≠ y →
  timesPaired (countPairings members months) x y = Some (occurrences x y months).
Proof.
  intros Hx Hy Hne. rewrite timesPaired_entry, entry_countPairings by done.
  rewrite decide_True by done.
  by destruct (proj2 (row_countPairings members months x) Hx) as [row ->].
Qed.


Lemma getPairingScore_eq x y ph prev :
  getPairingScore x y ph prev
  = (λ n, n + (if isRecentPairing x y prev then 100 else 0)) <$> timesPaired ph x y.
Proof.
  unfold getPairingScore. destruct (timesPaired ph x y); [|done].
  cbn. f_equal. case_match; lia.
Qed.

(** The call of [getPairingScore] in [generateNewAssignments] returns: the
    mentor is a roster member and has a row. *)
Lemma getPairingScore_defined members months x y prev :
  x ∈ members → is_Some (getPairingScore x y (countPairings members months) prev).
Proof.
  intros Hx. unfold getPairingScore, timesPaired.
  destruct (proj2 (row_countPairings members months x) Hx) as [row ->]. cbn. eauto.
Qed.

Lemma getPairingScore_stored x y ph prev :
  is_Some (ph !! x) → getPairingScore x y ph prev = Some (storedScore x y ph prev).
Proof.
  intros [row Hrow]. unfold storedScore, getPairingScore, timesPaired.
  by rewrite Hrow.
Qed.

End HistoryIndex.

(** ** Month labels *)
Section MonthLabels.
Import Randomized Invariants.

Lemma allDigits_string_of_uint d : allDigits (NilEmpty.string_of_uint d) = true.
Proof. induction d; cbn [NilEmpty.string_of_uint allDigits]; by rewrite ?IHd. Qed.

Lemma numberToString_digits n :
  allDigits (numberToString n) = true ∧ numberToString n ≠ "".
Proof.
  unfold numberToString, NilZero.string_of_uint.
  destruct (N.to_uint n) eqn:E; try done;
    (split; [apply (allDigits_string_of_uint (_ _))|done]).
Qed.

Lemma parseInt_numberToString n : parseInt (numberToString n) = toNumber n.
Proof.
  unfold parseInt, numberToString, NilZero.string_of_uint.
  pose proof (DecimalN.Unsigned.of_to n) as Hn.
  destruct (N.to_uint n) eqn:E; [by cbn in *; subst|..];
    by rewrite NilEmpty.usu, Hn.
Qed.

Lemma append_nil s : "" +:+ s = s.
Proof. reflexivity. Qed.

Lemma append_String c s t : String c s +:+ t = String c (s +:+ t).
Proof. reflexivity. Qed.

Lemma spanDigits_app d r :
  allDigits d = true →
  (match r with String c _ => isDigit c = false | EmptyString => True end) →
  spanDigits (d +:+ r) = (d, r).
Proof.
  intros Hd Hr. induction d as [|c d IH].
  - rewrite append_nil. destruct r as [|c r]; [done|]. cbn [spanDigits]. by rewrite Hr.
  - rewrite append_String. cbn [allDigits spanDigits] in Hd |- *.
    apply andb_true_iff in Hd as [-> Hd]. by rewrite IH.
Qed.

Lemma stripPrefix_app p s : stripPrefix p (p +:+ s) = Some s.
Proof.
  induction p as [|c p IH]; [by destruct s|].
  rewrite append_String. cbn [stripPrefix]. by rewrite Ascii.eqb_refl.
Qed.

Lemma matchMonth_format y m :
  allDigits y = true → y ≠ "" → allDigits m = true → m ≠ "" →
  matchMonth (y +:+ "年" +:+ m +:+ "月") = Some (y, m).
Proof.
  intros Hy Hy0 Hm Hm0.
  assert (matchHere (y +:+ "年" +:+ m +:+ "月") = Some (y, m)) as Hhere.
  { unfold matchHere. rewrite (spanDigits_app y) by done.
    destruct (String.eqb_spec y "") as [|_]; [done|].
    rewrite (stripPrefix_app "年").
    rewrite (spanDigits_app m "月") by done.
    destruct (String.eqb_spec m "") as [|_]; [done|].
    reflexivity. }
  destruct y; [done|]. rewrite append_String in *. cbn [matchMonth]. by rewrite Hhere.
Qed.

Lemma append_assoc s t u : (s +:+ t) +:+ u = s +:+ t +:+ u.
Proof.
  induction s as [|c s IH]; [done|]. by rewrite !append_String, IH.
Qed.

Lemma matchHere_format y m post :
  allDigits y = true → y ≠ "" → allDigits m = true → m ≠ "" →
  matchHere (y +:+ "年" +:+ m +:+ "月" +:+ post) = Some (y, m).
Proof.
  intros Hy Hy0 Hm Hm0.
  unfold matchHere. rewrite (spanDigits_app y) by done.
  destruct (String.eqb_spec y "") as [|_]; [done|].
  rewrite (stripPrefix_app "年").
  rewrite (spanDigits_app m ("月" +:+ post)) by done.
  destruct (String.eqb_spec m "") as [|_]; [done|].
  by rewrite (stripPrefix_app "月" post).
Qed.

Lemma matchHere_nondigit c s : isDigit c = false → matchHere (String c s) = None.
Proof. intros Hc. unfold matchHere. cbn [spanDigits]. by rewrite Hc. Qed.

Lemma matchMonth_skip pre s :
  noDigit pre = true → matchMonth (pre +:+ s) = matchMonth s.
Proof.
  induction pre as [|c pre IH]; [done|]. cbn [noDigit].
  intros [Hc%negb_true_iff Hpre]%andb_true_iff.
  rewrite append_String. cbn [matchMonth]. rewrite matchHere_nondigit by done.
  by apply IH.
Qed.

Lemma matchMonth_noDigit s : noDigit s = true → matchMonth s = None.
Proof.
  induction s as [|c s IH]; [done|]. cbn [noDigit].
  intros [Hc%negb_true_iff Hs]%andb_true_iff.
  cbn [matchMonth]. rewrite matchHere_nondigit by done. by apply IH.
Qed.

(** The label [Y年M月] for two naturals, inside any text without a digit
    before it, is read as the two numbers. *)
Lemma parseMonth_label pre post y m :
  noDigit pre = true →
  parseMonth (pre +:+ (numberToString y +:+ "年" +:+ numberToString m +:+ "月") +:+ post)
  = Some (toNumber y, toNumber m).
Proof.
  intros Hpre. unfold parseMonth.
  destruct (numberToString_digits y) as [Hy Hy0].
  destruct (numberToString_digits m) as [Hm Hm0].
  rewrite matchMonth_skip by done.
  assert (matchMonth ((numberToString y +:+ "年" +:+ numberToString m +:+ "月") +:+ post)
          = Some (numberToString y, numberToString m)) as ->.
  { replace ((numberToString y +:+ "年" +:+ numberToString m +:+ "月") +:+ post)
      with (numberToString y +:+ "年" +:+ numberToString m +:+ "月" +:+ post).
    - pose proof (matchHere_format _ _ post Hy Hy0 Hm Hm0) as Hhere.
      destruct (numberToString y +:+ "年" +:+ numberToString m +:+ "月" +:+ post);
        cbn [matchMonth]; by rewrite Hhere.
    - by rewrite !append_assoc. }
  by rewrite !parseInt_numberToString.
Qed.

Lemma append_nil_r s : s +:+ "" = s.
Proof. induction s as [|c s IH]; [done|]. by rewrite append_String, IH. Qed.

Lemma parseMonth_label_plain y m :
  parseMonth (numberToString y +:+ "年" +:+ numberToString m +:+ "月")
  = Some (toNumber y, toNumber m).
Proof.
  pose proof (parseMonth_label "" "" y m eq_refl) as H.
  by rewrite append_nil, append_nil_r in H.
Qed.

Lemma showNumber_Some x digits :
  showNumber x = Some digits →
  ∃ n, x = Safe n ∧ toNumber n = Safe n ∧ digits = numberToString n.
Proof.
  destruct x as [n|]; [|done]. unfold showNumber.
  destruct (n <? 2 ^ 53)%N eqn:E; [|done]. intros [= <-]. exists n.
  split_and!; [done| |done]. unfold toNumber. by rewrite E.
Qed.

Lemma formatMonth_Some year month label :
  formatMonth year month = Some label →
  ∃ y m, year = Safe y ∧ month = Safe m
    ∧ toNumber y = Safe y ∧ toNumber m = Safe m
    ∧ label = numberToString y +:+ "年" +:+ numberToString m +:+ "月".
Proof.
  unfold formatMonth.
  destruct (showNumber year) as [ys|] eqn:Ey; [|done].
  destruct (showNumber month) as [ms|] eqn:Em; [|done].
  apply showNumber_Some in Ey as (y & -> & Hy & ->).
  apply showNumber_Some in Em as (m & -> & Hm & ->).
  intros [= <-]. by exists y, m.
Qed.

Lemma parseMonth_embedded pre post year month label :
  noDigit pre = true → formatMonth year month = Some label →
  parseMonth (pre +:+ label +:+ post) = Some (year, month).
Proof.
  intros Hpre (y & m & -> & -> & Hy & Hm & ->)%formatMonth_Some.
  by rewrite parseMonth_label, Hy, Hm.
Qed.

Lemma parseMonth_formatMonth year month label :
  formatMonth year month = Some label → parseMonth label = Some (year, month).
Proof.
  intros (y & m & -> & -> & Hy & Hm & ->)%formatMonth_Some.
  by rewrite parseMonth_label_plain, Hy, Hm.
Qed.

End MonthLabels.

(** ** Utilities of the randomized variant *)
Section RandomizedUtilities.
Import Randomized Spec Invariants.

(** *** The shuffle *)

Lemma shuffleLoop_cursor {A} i (copy : list A) g :
  cursor (shuffleLoop i copy g).2 = cursor g + i
  ∧ draws (shuffleLoop i copy g).2 = draws g.
Proof.
  revert copy g. induction i as [|i IH]; intros copy g.
  { cbn. split; [lia|done]. }
  cbn [shuffleLoop]. unfold bind.
  destruct (randomIndex (S i + 1) g) as [j g'] eqn:Ej.
  destruct (IH (swap (S i) j copy) g') as [-> ->].
  unfold randomIndex in Ej. injection Ej as _ <-. cbn. split; [lia|done].
Qed.

Lemma length_shuffleArray {A} (array : list A) g :
  length (shuffleArray array g).1 = length array.
Proof. apply Permutation_length, shuffleArray_Permutation. Qed.

(** *** Candidates *)

Lemma length_generateCandidate eligible g :
  length eligible `mod` 2 = 0 →
  length (generateCandidate eligible g).1 = length eligible `div` 2.
Proof.
  intros Heven. unfold generateCandidate, bind.
  pose proof (length_shuffleArray eligible g) as Hlen.
  destruct (shuffleArray eligible g) as [shuffled g']; cbn [fst snd ret] in *.
  unfold ret; cbn [fst]. rewrite Hlen.
  set (half := length eligible `div` 2).
  assert (length shuffled = 2 * half) as Hlen'.
  { subst half. pose proof (Nat.div_mod_eq (length eligible) 2). lia. }
  clearbody half.
  rewrite <-(take_drop half shuffled).
  rewrite omap_pairAt_halves by (rewrite ?length_take, ?length_drop; lia).
  rewrite length_zip_with, length_take, length_drop. lia.
Qed.

(** *** [isSamePairing] *)

Lemma isSamePairing_spec a1 a2 :
  isSamePairing a1 a2 = true ↔ length a1 = length a2 ∧ keySet a1 = keySet a2.
Proof.
  unfold isSamePairing. case_decide as Hlen.
  { split; [done|]. by intros [? _]. }
  case_decide as Hsize.
  { split; [done|]. intros [_ Heq]. by rewrite Heq in Hsize. }
  rewrite forallb_forall. setoid_rewrite bool_decide_eq_true.
  setoid_rewrite <-list_elem_of_In. setoid_rewrite elem_of_elements.
  split.
  - intros Hsub. split; [done|].
    apply set_eq. intros k. split; [apply Hsub|].
    intros Hk. destruct (decide (k ∈ keySet a1)) as [|Hnot]; [done|].
    assert (keySet a1 ⊂ keySet a2) as Hlt%subset_size by set_solver. lia.
  - intros [_ ->] k. done.
Qed.

Lemma keySet_Permutation a1 a2 : a1 ≡ₚ a2 → keySet a1 = keySet a2.
Proof.
  intros Hperm. unfold keySet. apply set_eq. intros k.
  rewrite !elem_of_list_to_set. by rewrite Hperm.
Qed.

(** *** Keys and exclusion rules *)

Lemma barFree_key_inj m1 e1 m2 e2 :
  barFree m1 = true → barFree m2 = true →
  m1 +:+ "|" +:+ e1 = m2 +:+ "|" +:+ e2 → m1 = m2 ∧ e1 = e2.
Proof.
  revert m2. induction m1 as [|c1 m1 IH]; intros [|c2 m2] H1 H2 Heq.
  - rewrite !append_nil in Heq. by injection Heq.
  - rewrite append_nil, append_String in Heq. injection Heq as <- _.
    by cbn in H2.
  - rewrite append_nil, append_String in Heq. injection Heq as -> _.
    by cbn in H1.
  - rewrite !append_String in Heq. injection Heq as -> Heq.
    cbn [barFree] in H1, H2.
    apply andb_true_iff in H1 as [_ H1]. apply andb_true_iff in H2 as [_ H2].
    by destruct (IH m2 H1 H2 Heq) as [-> ->].
Qed.

Lemma elem_of_buildExcludedSet_inv rules k :
  k ∈ buildExcludedSet (Some rules) →
  ∃ rule, rule ∈ rules
    ∧ (k = rule.1 +:+ "|" +:+ rule.2 ∨ k = rule.2 +:+ "|" +:+ rule.1).
Proof.
  unfold buildExcludedSet.
  assert (∀ acc : gset string,
    k ∈ foldl (λ set (pair : string * string),
                 set ∪ {[ pair.1 +:+ "|" +:+ pair.2 ]} ∪ {[ pair.2 +:+ "|" +:+ pair.1 ]})
              acc rules →
    k ∈ acc ∨ ∃ rule, rule ∈ rules
      ∧ (k = rule.1 +:+ "|" +:+ rule.2 ∨ k = rule.2 +:+ "|" +:+ rule.1)) as H.
  { induction rules as [|p rules IH]; intros acc Hk; [by left|].
    cbn [foldl] in Hk. apply IH in Hk as [Hk|(rule & Hin & Hk)].
    - apply elem_of_union in Hk as [[Hk|Hk]%elem_of_union|Hk].
      + by left.
      + apply elem_of_singleton in Hk. right. exists p. split; [left|by left].
      + apply elem_of_singleton in Hk. right. exists p. split; [left|by right].
    - right. exists rule. split; [by right|done]. }
  intros [Hk|Hk]%H; [|done]. by apply not_elem_of_empty in Hk.
Qed.

Lemma buildExcludedSet_default excluded :
  buildExcludedSet excluded = buildExcludedSet (Some (default [] excluded)).
Proof. by destruct excluded. Qed.

Lemma candidateHasExcluded_true candidate excludedSet :
  candidateHasExcluded candidate excludedSet = true ↔
  ∃ a, a ∈ candidate ∧ key a ∈ excludedSet.
Proof.
  unfold candidateHasExcluded. rewrite existsb_exists.
  setoid_rewrite bool_decide_eq_true. by setoid_rewrite <-list_elem_of_In.
Qed.

(** *** The penalty *)

Lemma penaltyOf_zero past prev candidate :
  penaltyOf past prev candidate = 0 ↔
  ∀ a, a ∈ candidate →
    (key a ∉ past) ∧ (key a ∉ keySet (default [] prev)).
Proof.
  unfold penaltyOf, countOverlap.
  assert (∀ (P : Assignment → Prop) `{!∀ a, Decision (P a)} (l : list Assignment),
            length (filter P l) = 0 ↔ ∀ a, a ∈ l → ¬ P a) as Hnone.
  { intros P ? l. split.
    - intros Hnil%nil_length_inv a Ha HP.
      assert (a ∈ filter P l) as Hin by by apply list_elem_of_filter.
      rewrite Hnil in Hin. by apply elem_of_nil in Hin.
    - intros Hall. induction l as [|x l IH]; [done|].
      rewrite filter_cons_False by (apply Hall; by left).
      apply IH. intros a Ha. apply Hall. by right. }
  destruct prev as [prev|]; cbn [default]; cbv zeta.
  - rewrite Nat.eq_add_0, !Hnone. split.
    + intros [H1 H2] a Ha. split; [by apply H1|by apply H2].
    + intros H. split; intros a Ha; by apply H.
  - rewrite Nat.add_0_r, Hnone. split.
    + intros H a Ha. split; [by apply H|]. unfold keySet. cbn. apply not_elem_of_empty.
    + intros H a Ha. by apply H.
Qed.

(** *** The attempts *)

Lemma attemptLoop_keeps n eligible past prev excludedSet b bestPenalty g :
  is_Some (attemptLoop n eligible past prev excludedSet (Some b) bestPenalty g).1.
Proof.
  revert b bestPenalty g. induction n as [|n IH]; intros b bestPenalty g; [by eexists|].
  cbn [attemptLoop]. unfold bind.
  destruct (generateCandidate eligible g) as [candidate g1].
  destruct (candidateHasExcluded candidate excludedSet); [apply IH|].
  destruct (belowBest _ bestPenalty); [|apply IH].
  destruct (_ =? 0); [by eexists|apply IH].
Qed.

Lemma attemptLoop_no_rules n eligible past prev g :
  is_Some (attemptLoop (S n) eligible past prev ∅ None None g).1.
Proof.
  cbn [attemptLoop]. unfold bind.
  destruct (generateCandidate eligible g) as [candidate g1].
  assert (candidateHasExcluded candidate ∅ = false) as ->.
  { apply candidateHasExcluded_false. intros a _. apply not_elem_of_empty. }
  cbn [belowBest].
  destruct (_ =? 0); [by eexists|apply attemptLoop_keeps].
Qed.

Lemma generateAssignments_no_rules fuel dataMonths members skip prev g :
  is_Some (generateAssignments (S fuel) dataMonths members skip prev ∅ g).
Proof.
  rewrite generateAssignments_S. cbv zeta.
  destruct (if decide (length (initialEligible members skip) `mod` 2 ≠ 0)
            then removeRandom (initialEligible members skip) [] g
            else (initialEligible members skip, [], g)) as [[eligible extra] g1].
  pose proof (attemptLoop_no_rules 999 eligible (pastSet dataMonths) prev g1) as [c Hc].
  change (S 999) with attempts in Hc.
  destruct (attemptLoop attempts eligible (pastSet dataMonths) prev ∅ None None g1)
    as [best g2].
  cbn [fst] in Hc. subst best. by eexists.
Qed.

Lemma generateAssignments_participants fuel dataMonths members skip prev excludedSet g res g' :
  generateAssignments fuel dataMonths members skip prev excludedSet g = Some (res, g') →
  participants (res_assignments res) ++ res_extraSkip res ≡ₚ initialEligible members skip
  ∧ 2 * length (res_assignments res) + length (res_extraSkip res)
    = length (initialEligible members skip).
Proof.
  intros (eligible & Hperm & Heven & Hlen & [g'' Hcand] & _)%generateAssignments_Some.
  assert (participants (res_assignments res) ≡ₚ eligible) as Hp.
  { rewrite Hcand. by apply generateCandidate_Permutation. }
  split; [by rewrite Hp|].
  rewrite <-Hperm, length_app, <-Hp, length_participants. lia.
Qed.

Lemma main_Exit fuel data g code :
  main fuel data g = Exit code ↔
  code = 1
  ∧ (months data = []
     ∨ ∃ lastMonth, last (months data) = Some lastMonth
                    ∧ parseMonth (month lastMonth) = None).
Proof.
  unfold main. destruct (last (months data)) as [lastMonth|] eqn:Elast.
  - destruct (parseMonth (month lastMonth)) as [parsed|] eqn:Eparse.
    + destruct (nextMonth parsed) as [newYear newMonthNum].
      assert (months data ≠ []) as Hne.
      { intros Hnil. rewrite Hnil in Elast. discriminate Elast. }
      destruct (generateAssignments _ _ _ _ _ _ _) as [[result ?]|];
        [destruct (formatMonth newYear newMonthNum)|];
        (split; [done|]; intros [_ [Hnil|(? & [= <-] & ?)]]; [done|congruence]).
    + split; [intros [= <-]|by intros [-> _]]. split; [done|]. right. by exists lastMonth.
  - apply last_None in Elast. split; [intros [= <-]|by intros [-> _]]. split; [done|]. by left.
Qed.

End RandomizedUtilities.

(** ** Rosters of at most one eligible member *)
Section TinyRosters.
Import Randomized Spec Invariants.

Lemma attemptLoop_nil n past prev excludedSet g :
  (attemptLoop (S n) [] past prev excludedSet None None g).1 = Some [].
Proof. destruct prev; reflexivity. Qed.

Lemma removeRandom_singleton a extraSkipped g :
  (removeRandom [a] extraSkipped g).1 = ([], extraSkipped ++ [a]).
Proof.
  unfold removeRandom, bind, randomIndex. cbn [length fst snd ret].
  by rewrite Nat.mod_1_r.
Qed.

Lemma generateAssignments_tiny fuel dataMonths members skip prev excludedSet g :
  length (initialEligible members skip) ≤ 1 →
  ∃ g', generateAssignments (S fuel) dataMonths members skip prev excludedSet g
        = Some ({| res_assignments := [];
                   res_extraSkip := initialEligible members skip |}, g').
Proof.
  intros Hlen. rewrite generateAssignments_S. cbv zeta.
  destruct (initialEligible members skip) as [|a [|??]]; [| |cbn in Hlen; lia].
  - rewrite decide_False by (cbn; lia).
    pose proof (attemptLoop_nil 999 (pastSet dataMonths) prev excludedSet g) as Hloop.
    change (S 999) with attempts in Hloop.
    destruct (attemptLoop attempts [] _ _ _ _ _ g) as [best g1]. cbn [fst] in Hloop.
    subst best. by eexists.
  - rewrite decide_True by (cbn; lia).
    pose proof (removeRandom_singleton a [] g) as Hrm.
    destruct (removeRandom [a] [] g) as [[eligible extra] g1]. cbn [fst] in Hrm.
    injection Hrm as -> ->.
    pose proof (attemptLoop_nil 999 (pastSet dataMonths) prev excludedSet g1) as Hloop.
    change (S 999) with attempts in Hloop.
    destruct (attemptLoop attempts [] _ _ _ _ _ g1) as [best g2]. cbn [fst] in Hloop.
    subst best. by eexists.
Qed.

End TinyRosters.

(** ** The latest assignment of a member *)
Section RecentPair.
Import CreateAssignments Spec Invariants.

Lemma find_Some_split {A} (f : A → bool) (l : list A) a :
  find f l = Some a →
  ∃ before after, l = before ++ a :: after ∧ f a = true ∧ ∀ b, b ∈ before → f b = false.
Proof.
  unfold find. induction l as [|x l IH]; [done|]. cbn [List.find].
  destruct (f x) eqn:Ex.
  - intros [= ->]. exists [], l. split_and!; [done..|]. by intros ? ?%elem_of_nil.
  - intros (before & after & -> & Ha & Hb)%IH.
    exists (x :: before), after. split_and!; [done..|].
    intros b [->|?]%elem_of_cons; [done|by apply Hb].
Qed.

Lemma find_None_all {A} (f : A → bool) (l : list A) :
  find f l = None ↔ ∀ b, b ∈ l → f b = false.
Proof.
  unfold find. induction l as [|x l IH]; cbn [List.find].
  { split; [by intros _ ? ?%elem_of_nil|done]. }
  destruct (f x) eqn:Ex.
  - split; [done|]. intros H. rewrite H in Ex; [done|by left].
  - rewrite IH. split.
    + intros H b [->|?]%elem_of_cons; [done|by apply H].
    + intros H b Hb. apply H. by right.
Qed.

Lemma takesPart_bool member a :
  bool_decide (mentor a = member) || bool_decide (mentee a = member) = true
  ↔ takesPart member a.
Proof. rewrite orb_true_iff, !bool_decide_eq_true. done. Qed.

Lemma takesPart_bool_false member a :
  bool_decide (mentor a = member) || bool_decide (mentee a = member) = false
  ↔ ¬ takesPart member a.
Proof. rewrite <-takesPart_bool. by destruct (_ || _). Qed.

Lemma recentPairFrom_None member latestFirst :
  recentPairFrom member latestFirst = None ↔
  ∀ m a, m ∈ latestFirst → a ∈ assignments m → ¬ takesPart member a.
Proof.
  induction latestFirst as [|m ms IH]; cbn [recentPairFrom].
  { split; [by intros _ ?? ?%elem_of_nil|done]. }
  destruct (find _ (assignments m)) as [a|] eqn:E.
  - split; [done|]. intros H.
    apply find_Some_split in E as (before & after & E & Ha%takesPart_bool & _).
    destruct (H m a); [by left| |done]. rewrite E. apply elem_of_app. right. by left.
  - rewrite find_None_all in E. rewrite IH. split.
    + intros H m' a [->|Hm]%elem_of_cons Ha; [|by eapply H].
      by apply takesPart_bool_false, E.
    + intros H m' a Hm. apply H. by right.
Qed.

Lemma recentPairFrom_Some member latestFirst a :
  recentPairFrom member latestFirst = Some a →
  ∃ newer m older before after,
    latestFirst = newer ++ m :: older
    ∧ assignments m = before ++ a :: after
    ∧ takesPart member a
    ∧ (∀ b, b ∈ before → ¬ takesPart member b)
    ∧ (∀ m' b, m' ∈ newer → b ∈ assignments m' → ¬ takesPart member b).
Proof.
  induction latestFirst as [|m ms IH]; cbn [recentPairFrom]; [done|].
  destruct (find _ (assignments m)) as [a'|] eqn:E.
  - intros [= ->].
    apply find_Some_split in E as (before & after & E & Ha%takesPart_bool & Hb).
    exists [], m, ms, before, after. split_and!; [done..| |].
    + intros b Hin. by apply takesPart_bool_false, Hb.
    + by intros ?? ?%elem_of_nil.
  - rewrite find_None_all in E.
    intros (newer & m0 & older & before & after & -> & ? & ? & ? & Hn)%IH.
    exists (m :: newer), m0, older, before, after. split_and!; [done..|].
    intros m' b [->|?]%elem_of_cons Hb; [|by eapply Hn].
    by apply takesPart_bool_false, E.
Qed.

End RecentPair.

(** ** What [assignPair] accepts and refuses *)
Section Pools.
Import CreateAssignments Spec Invariants.
Variable members : list string.
Variable excludedList : list (string * string).
Variable pastMonths : list MonthData.

Lemma assignPair_true mentorName menteeName st st' :
  assignPair excludedList pastMonths mentorName menteeName st = (true, st') →
  mentorName ≠ menteeName
  ∧ isExcluded (mentorName, menteeName) excludedList = false
  ∧ isPairUsed st mentorName menteeName = false
  ∧ notRecent pastMonths {| mentor := mentorName; mentee := menteeName |}
  ∧ st' = {| st_assignments :=
               st_assignments st ++ [ {| mentor := mentorName; mentee := menteeName |} ];
             availableMentors := spliceIndexOf mentorName (availableMentors st);
             availableMentees := spliceIndexOf menteeName (availableMentees st);
             usedPairs := usedPairs st ∪ {[ pairKey mentorName menteeName ]} |}.
Proof.
  unfold assignPair, notRecent. cbn [mentor mentee].
  case_decide as Hne; [done|].
  destruct (isExcluded _ _); [done|].
  destruct (isPairUsed _ _ _); [done|].
  case_bool_decide as H1; [done|]. case_bool_decide as H2; [done|].
  by intros [= <-].
Qed.

Lemma assignPair_cases mentorName menteeName st :
  (assignPair excludedList pastMonths mentorName menteeName st = (false, st))
  ∨ ∃ st', assignPair excludedList pastMonths mentorName menteeName st = (true, st').
Proof.
  destruct (assignPair _ _ _ _ st) as [[] st'] eqn:E.
  - right. by exists st'.
  - left. by apply assignPair_false in E as ->.
Qed.

(** Whatever every successful [assignPair] preserves holds of the final
    state. *)
Section Preservation.
Variable P : State → Prop.
Hypothesis assignPair_pres : ∀ mentorName menteeName st st',
  P st → mentorName ∈ availableMentors st → menteeName ∈ availableMentees st →
  assignPair excludedList pastMonths mentorName menteeName st = (true, st') → P st'.

Lemma assignPair_pres2 mentorName menteeName st :
  P st → mentorName ∈ availableMentors st → menteeName ∈ availableMentees st →
  P (assignPair excludedList pastMonths mentorName menteeName st).2.
Proof.
  intros HP Hm He.
  destruct (assignPair_cases mentorName menteeName st) as [->|[st' E]]; [done|].
  rewrite E. by eapply assignPair_pres.
Qed.

Lemma flipStep_pres member1 st member2 :
  P st → P (flipStep excludedList pastMonths member1 st member2).
Proof.
  intros HP. unfold flipStep.
  case_decide; [done|].
  destruct (last _) as [mostRecentPair|]; [|done].
  case_decide; [|done].
  destruct (_ && _) eqn:E; [|done].
  apply andb_true_iff in E as [?%bool_decide_eq_true ?%bool_decide_eq_true].
  by apply assignPair_pres2.
Qed.

Lemma tryMentees_cases mentorName mentees st :
  (tryMentees excludedList pastMonths mentorName mentees st = st
   ∧ ∀ e, e ∈ mentees → e ∈ availableMentees st →
       refused excludedList pastMonths st mentorName e)
  ∨ ∃ e, e ∈ mentees ∧ e ∈ availableMentees st
      ∧ assignPair excludedList pastMonths mentorName e st
        = (true, tryMentees excludedList pastMonths mentorName mentees st).
Proof.
  induction mentees as [|menteeName rest IH]; cbn [tryMentees].
  { left. split; [done|]. by intros e ?%elem_of_nil. }
  case_bool_decide as He.
  - destruct (assignPair_cases mentorName menteeName st) as [E|[st' E]]; rewrite E.
    + destruct IH as [[-> IH]|(e & ? & ? & IH)].
      * left. split; [done|]. intros e [->|?]%elem_of_cons ?; [|by apply IH].
        unfold refused. by rewrite E.
      * right. exists e. split_and!; [by right|done..].
    + right. exists menteeName. split_and!; [by left|done..].
  - destruct IH as [[-> IH]|(e & ? & ? & IH)].
    + left. split; [done|]. intros e [->|?]%elem_of_cons ?; [done|by apply IH].
    + right. exists e. split_and!; [by right|done..].
Qed.

Lemma fillStep_pres st mentorName :
  P st → P (fillStep excludedList pastMonths members st mentorName).
Proof.
  intros HP. unfold fillStep. case_bool_decide as Hm; [|done].
  destruct (tryMentees_cases mentorName members st) as [[-> _]|(e & _ & He & E)]; [done|].
  by eapply assignPair_pres.
Qed.

Lemma foldl_pres {A} (f : State → A → State) (l : list A) st :
  (∀ st x, P st → P (f st x)) → P st → P (foldl f st l).
Proof.
  intros Hf. revert st. induction l as [|x l IH]; intros st HP; [done|].
  cbn. apply IH. by apply Hf.
Qed.

Lemma flipLoop_pres st :
  P st →
  P (foldl (λ st member1, foldl (flipStep excludedList pastMonths member1) st members)
       st members).
Proof.
  apply foldl_pres. intros st' member1 HP.
  apply foldl_pres; [|done]. intros. by apply flipStep_pres.
Qed.

End Preservation.

Lemma elem_of_spliceIndexOf x y l : x ∈ spliceIndexOf y l → x ∈ l.
Proof.
  unfold spliceIndexOf.
  destruct (list_find _ l) as [[i ?]|]; apply list_elem_of_delete_inv.
Qed.

Lemma later_refl st : later st st.
Proof. by split_and!. Qed.

Lemma later_trans st1 st2 st3 : later st1 st2 → later st2 st3 → later st1 st3.
Proof. intros (? & ? & ?) (? & ? & ?). split_and!; [set_solver|naive_solver..]. Qed.

Lemma assignPair_later mentorName menteeName st st' :
  assignPair excludedList pastMonths mentorName menteeName st = (true, st') → later st st'.
Proof.
  intros (_ & _ & _ & _ & ->)%assignPair_true. split_and!; cbn.
  - set_solver.
  - intros x. apply elem_of_spliceIndexOf.
  - intros x. apply elem_of_spliceIndexOf.
Qed.

Lemma refused_later st st' mentorName menteeName :
  later st st' →
  refused excludedList pastMonths st mentorName menteeName →
  refused excludedList pastMonths st' mentorName menteeName.
Proof.
  intros [Hsub _]. unfold refused, assignPair.
  case_decide; [done|]. destruct (isExcluded _ _); [done|].
  destruct (isPairUsed st _ _) eqn:Hu.
  - intros _. assert (isPairUsed st' mentorName menteeName = true) as ->; [|done].
    unfold isPairUsed in *.
    apply orb_true_iff in Hu as [Hu|Hu]; apply bool_decide_eq_true in Hu;
      apply orb_true_iff; [left|right]; apply bool_decide_eq_true; by apply Hsub.
  - destruct (isPairUsed st' _ _); [done|]. by repeat case_bool_decide.
Qed.

(** The recency test and the keys of the used pairs. *)
Lemma distinctPairs_snoc l x :
  distinctPairs l → (∀ a, a ∈ l → ¬ onSamePair a x ∧ ¬ onSamePair x a) →
  distinctPairs (l ++ [x]).
Proof.
  intros Hl Hx i j a b Hi Hj Hab.
  apply lookup_snoc_Some in Hi as [[Hi Ha]|[-> <-]];
    apply lookup_snoc_Some in Hj as [[Hj Hb]|[-> <-]].
  - by apply (Hl i j a b).
  - apply list_elem_of_lookup_2 in Ha. by destruct (Hx a Ha) as [[] _].
  - apply list_elem_of_lookup_2 in Hb. by destruct (Hx b Hb) as [_ []].
  - done.
Qed.

Lemma elem_of_usedKeys l a :
  a ∈ l → pairKey (mentor a) (mentee a) ∈ usedKeys l.
Proof.
  intros Ha. unfold usedKeys. apply elem_of_list_to_set, list_elem_of_fmap.
  by exists a.
Qed.

Lemma assignPair_pairsInv mentorName menteeName st st' :
  pairsInv pastMonths st →
  assignPair excludedList pastMonths mentorName menteeName st = (true, st') →
  pairsInv pastMonths st'.
Proof.
  intros (Hrec & Hkeys & Hdist) (Hne & _ & Hused & Hnot & ->)%assignPair_true.
  unfold pairsInv; cbn [st_assignments usedPairs]. split_and!.
  - apply Forall_app. split; [done|]. by apply Forall_singleton.
  - rewrite Hkeys. unfold usedKeys. rewrite fmap_app, list_to_set_app_L. cbn.
    set_solver.
  - apply distinctPairs_snoc; [done|]. intros a Ha.
    apply elem_of_usedKeys in Ha. rewrite <-Hkeys in Ha.
    unfold isPairUsed in Hused. apply orb_false_iff in Hused as [H1 H2].
    apply bool_decide_eq_false in H1, H2.
    destruct a as [m e]. unfold onSamePair, swapRoles. cbn [mentor mentee] in *.
    split; (intros [Heq|Heq]; injection Heq as ??; subst; done).
Qed.

(** The second loop: a mentor that is still in its pool has been refused
    every name of the mentee pool. *)
Lemma fillStep_later st mentorName :
  later st (fillStep excludedList pastMonths members st mentorName).
Proof.
  apply (fillStep_pres (later st)); [|apply later_refl].
  intros m e st1 st2 Hl _ _ E. eapply later_trans; [done|]. by eapply assignPair_later.
Qed.

Lemma fillStep_triedInv done st mentorName :
  NoDup members →
  poolsInv members excludedList st →
  triedInv excludedList pastMonths done st →
  triedInv excludedList pastMonths (done ++ [mentorName])
    (fillStep excludedList pastMonths members st mentorName).
Proof.
  intros Hnd Hpool Htried m e Hm Hmin Hein.
  pose proof (fillStep_later st mentorName) as Hlater.
  apply elem_of_app in Hm as [Hm|Hm].
  { eapply refused_later; [done|]. destruct Hlater as (_ & Hms & Hes).
    apply Htried; [done|by apply Hms|by apply Hes]. }
  apply list_elem_of_singleton in Hm as ->.
  unfold fillStep in *. case_bool_decide as Hpoolm; [|done].
  destruct (tryMentees_cases mentorName members st) as [[E Hall]|(e' & _ & He' & E)].
  - rewrite E in *. apply Hall; [|done].
    destruct Hpool as (_ & He & _). rewrite <-He. apply elem_of_app. by right.
  - exfalso.
    pose proof (assignPair_inv members excludedList pastMonths mentorName e' st
                  Hpool Hpoolm He') as (Hperm & _).
    rewrite E in Hperm. cbn [snd] in Hperm.
    apply assignPair_true in E as (_ & _ & _ & _ & E).
    rewrite <-Hperm in Hnd. apply NoDup_app in Hnd as (_ & Hdisj & _).
    apply (Hdisj mentorName); [|done].
    rewrite E. cbn [st_assignments]. rewrite fmap_app. apply elem_of_app. right.
    by left.
Qed.

Lemma fillLoop_triedInv done order st :
  NoDup members →
  poolsInv members excludedList st →
  triedInv excludedList pastMonths done st →
  triedInv excludedList pastMonths (done ++ order)
    (foldl (fillStep excludedList pastMonths members) st order).
Proof.
  intros Hnd. revert done st.
  induction order as [|x order IH]; intros done st Hpool Htried.
  { by rewrite app_nil_r. }
  cbn [foldl]. rewrite (assoc_L (++) done [x] order : done ++ x :: order = _).
  apply IH; [by apply fillStep_inv|by apply fillStep_triedInv].
Qed.

Lemma createAssignments_state :
  ∃ st, createAssignments members excludedList pastMonths
        = (st_assignments st, availableMentors st ++ availableMentees st)
      ∧ poolsInv members excludedList st
      ∧ pairsInv pastMonths st
      ∧ (NoDup members →
         ∀ m e, m ∈ availableMentors st → e ∈ availableMentees st →
           refused excludedList pastMonths st m e).
Proof.
  unfold createAssignments. eexists. split; [done|].
  set (P := λ st, poolsInv members excludedList st ∧ pairsInv pastMonths st).
  assert (∀ mentorName menteeName st st',
    P st → mentorName ∈ availableMentors st → menteeName ∈ availableMentees st →
    assignPair excludedList pastMonths mentorName menteeName st = (true, st') → P st')
    as Hpres.
  { intros m e st st' [Hpool Hpairs] Hm He E. split.
    - pose proof (assignPair_inv members excludedList pastMonths m e st Hpool Hm He) as H.
      by rewrite E in H.
    - by eapply assignPair_pairsInv. }
  set (st1 := foldl (λ st member1,
                       foldl (flipStep excludedList pastMonths member1) st members)
                {| availableMentors := members; availableMentees := members;
                   st_assignments := []; usedPairs := ∅ |} members).
  assert (P st1) as [Hpool1 Hpairs1].
  { apply (flipLoop_pres P Hpres).
    split; [by split_and!|]. split_and!; [done..|].
    intros i j a b Hi. cbn in Hi. by rewrite lookup_nil in Hi. }
  assert (P (foldl (fillStep excludedList pastMonths members) st1 members)) as [? ?].
  { apply (foldl_pres P); [intros; by apply fillStep_pres|done]. }
  split_and!; [done..|]. intros Hnd m e Hm He.
  apply (fillLoop_triedInv [] members st1 Hnd Hpool1); [|cbn [app]|done..].
  - by intros ?? ?%elem_of_nil.
  - destruct H as (Hperm & _). rewrite <-Hperm. apply elem_of_app. by right.
Qed.

End Pools.

(** ** Selection and skipping in the greedy loop *)
Section GreedySelection.
Import Greedy Spec Invariants.

Section SortedOrder.
Context {A : Type} (f : A → nat).

Lemma insertBy_sorted x l : sortedBy f l → sortedBy f (insertBy f x l).
Proof.
  induction l as [|y l IH]; intros Hs; cbn [insertBy].
  { split; [by intros ? ?%elem_of_nil|done]. }
  destruct Hs as [Hy Hs]. destruct (Nat.leb_spec (f x) (f y)).
  - split; [|by split].
    intros z [->|Hz]%elem_of_cons; [done|]. specialize (Hy z Hz). lia.
  - split; [|by apply IH].
    intros z Hz. rewrite insertBy_Permutation in Hz.
    apply elem_of_cons in Hz as [->|Hz]; [lia|by apply Hy].
Qed.

Lemma sortBy_sorted l : sortedBy f (sortBy f l).
Proof.
  induction l as [|x l IH]; [done|]. cbn [sortBy foldr]. by apply insertBy_sorted.
Qed.

Lemma sortedBy_filter (P : A → Prop) `{!∀ x, Decision (P x)} l :
  sortedBy f l → sortedBy f (filter P l).
Proof.
  induction l as [|x l IH]; [done|]. intros [Hx Hs].
  rewrite filter_cons. case_decide; [|by apply IH].
  split; [|by apply IH]. intros y [_ Hy]%list_elem_of_filter. by apply Hx.
Qed.

(** The sort is stable: elements of equal [f] keep their order. *)
Lemma insertBy_stable k x l :
  filter (λ y, f y = k) (insertBy f x l) = filter (λ y, f y = k) (x :: l).
Proof.
  induction l as [|y l IH]; [done|]. cbn [insertBy].
  destruct (Nat.leb_spec (f x) (f y)); [done|].
  rewrite (filter_cons _ y), IH, !(filter_cons _ x), !(filter_cons _ y).
  repeat case_decide; try done; lia.
Qed.

Lemma sortBy_stable k l :
  filter (λ y, f y = k) (sortBy f l) = filter (λ y, f y = k) l.
Proof.
  induction l as [|x l IH]; [done|]. cbn [sortBy foldr].
  rewrite insertBy_stable, !filter_cons. fold (sortBy f l). by rewrite IH.
Qed.

End SortedOrder.

Lemma filter_omap_head {A B} (F : A → option B) (P : B → Prop)
    `{!∀ x, Decision (P x)} (l : list A) p rest :
  filter P (omap F l) = p :: rest →
  ∃ before e after,
    l = before ++ e :: after ∧ F e = Some p ∧ P p
    ∧ ∀ e' q, e' ∈ before → F e' = Some q → ¬ P q.
Proof.
  induction l as [|x l IH]; [done|].
  change (omap F (x :: l))
    with (match F x with Some y => y :: omap F l | None => omap F l end).
  destruct (F x) as [q|] eqn:Ex.
  - rewrite filter_cons. case_decide as HP.
    + intros [= -> _]. exists [], x, l. split_and!; [done..|].
      by intros ?? ?%elem_of_nil.
    + intros (before & e & after & -> & He & Hp & Hb)%IH.
      exists (x :: before), e, after. split_and!; [done..|].
      intros e' q' [->|?]%elem_of_cons Hq; [congruence|by eapply Hb].
  - intros (before & e & after & -> & He & Hp & Hb)%IH.
    exists (x :: before), e, after. split_and!; [done..|].
    intros e' q' [->|?]%elem_of_cons Hq; [congruence|by eapply Hb].
Qed.

Section Loop.
Variable members : list string.
Variable excluded : list (list string).
Variable pairingHistory : gmap string (gmap string nat).
Variable previousMonth : option Month.

Let possiblePairings :=
  buildPossiblePairings members excluded pairingHistory previousMonth.

(** The entry of [possiblePairings[mentor]] for one mentee. *)
Let optionOf (mentorName menteeName : string) : option Option_ :=
  if bool_decide (mentorName = menteeName)
     || isPairExcluded mentorName menteeName excluded
  then None
  else Some {| opt_mentee := menteeName;
               opt_score := storedScore mentorName menteeName
                              pairingHistory previousMonth |}.

Lemma validMenteesOf_head used mentorName p rest :
  mentorName ∈ members →
  validMenteesOf possiblePairings used mentorName = p :: rest →
  (∀ q, q ∈ validMenteesOf possiblePairings used mentorName → opt_score p ≤ opt_score q)
  ∧ ∃ before after,
      members = before ++ opt_mentee p :: after
      ∧ ∀ e, e ∈ before → e ≠ mentorName → e ∉ used →
          isPairExcluded mentorName e excluded = false →
          opt_score p < storedScore mentorName e pairingHistory previousMonth.
Proof.
  intros Hin Ev.
  assert (sortedBy opt_score (validMenteesOf possiblePairings used mentorName)) as Hs.
  { unfold validMenteesOf, possiblePairings. rewrite possiblePairings_lookup by done.
    cbn [default]. apply sortedBy_filter, sortBy_sorted. }
  rewrite Ev in Hs |- *. destruct Hs as [Hmin _].
  assert (∀ q, q ∈ p :: rest → opt_score p ≤ opt_score q) as Hmin'.
  { intros q [->|Hq]%elem_of_cons; [done|by apply Hmin]. }
  split; [done|].
  assert (filter (λ q, opt_mentee q ∉ used)
            (filter (λ q, opt_score q = opt_score p) (omap (optionOf mentorName) members))
          = filter (λ q, opt_score q = opt_score p) (p :: rest)) as Hst.
  { rewrite <-Ev. unfold validMenteesOf, possiblePairings.
    rewrite possiblePairings_lookup by done. cbn [default]. unfold optionsFor.
    rewrite <-(sortBy_stable opt_score (opt_score p)).
    rewrite !list_filter_filter. apply list_filter_iff. naive_solver. }
  rewrite filter_cons_True in Hst by done.
  rewrite list_filter_filter in Hst.
  apply filter_omap_head in Hst as (before & e & after & Hm & He & _ & Hb).
  assert (e = opt_mentee p) as ->.
  { unfold optionOf in He. destruct (_ || _); [done|]. by injection He as <-. }
  exists before, after. split; [done|].
  intros e Hbe Hne Hu Hex.
  pose (q := {| opt_mentee := e;
                opt_score := storedScore mentorName e pairingHistory previousMonth |}).
  assert (optionOf mentorName e = Some q) as Hq.
  { unfold optionOf. rewrite Hex, bool_decide_eq_false_2 by done. done. }
  assert (q ∈ validMenteesOf possiblePairings used mentorName) as Hqv.
  { apply elem_of_validMenteesOf; [done|]. cbn. split_and!; try done.
    rewrite Hm. apply elem_of_app. by left. }
  rewrite Ev in Hqv. specialize (Hmin' q Hqv). cbn in Hmin'.
  specialize (Hb e q Hbe Hq). cbn in Hb.
  destruct (decide (opt_score p = storedScore mentorName e pairingHistory previousMonth))
    as [Heq|]; [|lia].
  destruct Hb. by split.
Qed.

Lemma step_selected st mentorName p rest :
  mentorName ∈ members → mentorName ∉ usedMembers st →
  validMenteesOf possiblePairings (usedMembers st) mentorName = p :: rest →
  step excluded previousMonth possiblePairings st mentorName
  = if match previousMonth with
       | Some pm =>
           existsb (λ a, bool_decide (mentor a = mentorName ∧ mentee a = opt_mentee p))
                   (assignments pm)
       | None => false
       end
    then assign (opt_mentee p) mentorName st
    else assign mentorName (opt_mentee p) st.
Proof.
  intros Hin Hused Ev. unfold step.
  rewrite decide_False by done. rewrite Ev.
  assert (p ∈ validMenteesOf possiblePairings (usedMembers st) mentorName) as Hp.
  { rewrite Ev. by left. }
  apply elem_of_validMenteesOf in Hp as (Hu & _ & _ & Hex & _); [|done].
  rewrite (isPairExcluded_comm excluded) in Hex.
  rewrite Hex, bool_decide_eq_true_2 by done. done.
Qed.

Lemma validMenteesOf_nil_excluded used mentorName e :
  mentorName ∈ members →
  validMenteesOf possiblePairings used mentorName = [] →
  e ∈ members → e ≠ mentorName →
  isPairExcluded mentorName e excluded = false → e ∈ used.
Proof.
  intros Hin Hnil He Hne Hex.
  destruct (decide (e ∈ used)) as [|Hnot]; [done|].
  assert ({| opt_mentee := e;
             opt_score := storedScore mentorName e pairingHistory previousMonth |}
          ∈ validMenteesOf possiblePairings used mentorName) as Hp.
  { apply elem_of_validMenteesOf; [done|]. by cbn. }
  rewrite Hnil in Hp. by apply elem_of_nil in Hp.
Qed.

Lemma step_skippedInv st mentorName :
  mentorName ∈ members →
  skippedInv members excluded st →
  skippedInv members excluded (step excluded previousMonth possiblePairings st mentorName).
Proof.
  intros Hin [HJ HK]. unfold possiblePairings.
  destruct (step_cases members excluded pairingHistory previousMonth st mentorName)
    as [[_ ->]|[(Hused & Hnil & ->)|(Hused & p & Hp & [-> | ->])]]; [done|..].
  - split; cbn [st_skip usedMembers].
    + intros m e [Hm|Hm%list_elem_of_singleton]%elem_of_app He Hne Hex;
        apply elem_of_union; left.
      * by apply (HJ m e).
      * subst m. by apply (validMenteesOf_nil_excluded (usedMembers st) mentorName e).
    + intros m m' [Hm|Hm%list_elem_of_singleton]%elem_of_app
        [Hm'|Hm'%list_elem_of_singleton]%elem_of_app Hne; subst.
      * by apply HK.
      * apply not_false_iff_true. intros Hex. apply Hused. by apply (HJ m mentorName).
      * rewrite (isPairExcluded_comm excluded).
        apply not_false_iff_true. intros Hex. apply Hused. by apply (HJ m' mentorName).
      * done.
  - split; cbn [st_skip usedMembers assign]; [|done].
    intros m e Hm He Hne Hex. do 2 (apply elem_of_union; left). by apply (HJ m e).
  - split; cbn [st_skip usedMembers assign]; [|done].
    intros m e Hm He Hne Hex. do 2 (apply elem_of_union; left). by apply (HJ m e).
Qed.

Lemma loop_skippedInv order st :
  (∀ x, x ∈ order → x ∈ members) →
  skippedInv members excluded st →
  skippedInv members excluded (foldl (step excluded previousMonth possiblePairings) st order).
Proof.
  revert st. induction order as [|x order IH]; intros st Hsub Hinv; [done|].
  cbn [foldl]. apply IH.
  - intros y Hy. apply Hsub. by right.
  - apply step_skippedInv; [|done]. apply Hsub. by left.
Qed.

End Loop.

Lemma generateNewAssignments_skippedInv members excluded months :
  ∃ st, generateNewAssignments members excluded months = (st_assignments st, st_skip st)
      ∧ greedyInv members excluded st
      ∧ (∀ x, x ∈ members → x ∈ usedMembers st)
      ∧ skippedInv members excluded st.
Proof.
  destruct (generateNewAssignments_inv members excluded months)
    as (st & Hst & Hfold & Hinv & Hall).
  exists st. split_and!; [done..|]. rewrite Hfold.
  apply loop_skippedInv.
  - intros x. by rewrite sortBy_Permutation.
  - split; intros ?? ?%elem_of_nil; done.
Qed.

(** *** The score *)

Lemma occurrences_comm x y months : occurrences x y months = occurrences y x months.
Proof.
  unfold occurrences. f_equal. apply list_filter_iff. naive_solver.
Qed.

Lemma isRecentPairing_comm x y previousMonth :
  isRecentPairing x y previousMonth = isRecentPairing y x previousMonth.
Proof.
  destruct previousMonth as [pm|]; [|done]. cbn.
  apply eq_true_iff_eq. rewrite !existsb_exists.
  setoid_rewrite orb_true_iff. setoid_rewrite bool_decide_eq_true. naive_solver.
Qed.




Lemma timesPaired_comm members months x y :
  x ∈ members → y ∈ members →
  timesPaired (countPairings members months) x y
  = timesPaired (countPairings members months) y x.
Proof.
  intros Hx Hy. destruct (decide (x = y)) as [->|Hne]; [done|].
  rewrite !timesPaired_countPairings by done. f_equal. apply occurrences_comm.
Qed.

End GreedySelection.

(** ** The order of the greedy loop *)
Section OptionCount.
Import Greedy Spec Invariants.

Lemma sortedBy_ext {A} (f f' : A → nat) (l : list A) :
  (∀ x, x ∈ l → f x = f' x) → sortedBy f l → sortedBy f' l.
Proof.
  induction l as [|x l IH]; [done|]. intros Hext [Hx Hs]. split.
  - intros y Hy. rewrite <-!Hext; [by apply Hx|by right|by left].
  - apply IH; [|done]. intros y Hy. apply Hext. by right.
Qed.

Lemma length_omap_filter {A B} (F : A → option B) (P : A → Prop)
    `{!∀ x, Decision (P x)} (l : list A) :
  (∀ x, is_Some (F x) ↔ P x) → length (omap F l) = length (filter P l).
Proof.
  intros HF. induction l as [|x l IH]; [done|].
  change (omap F (x :: l))
    with (match F x with Some y => y :: omap F l | None => omap F l end).
  rewrite filter_cons. destruct (F x) as [y|] eqn:E.
  - rewrite decide_True by (apply HF; by rewrite E). cbn. by rewrite IH.
  - rewrite decide_False; [done|]. intros HP%HF. rewrite E in HP. by destruct HP.
Qed.

Lemma filter_all {A} (P : A → Prop) `{!∀ x, Decision (P x)} (l : list A) :
  (∀ x, P x) → filter P l = l.
Proof.
  intros HP. induction l as [|x l IH]; [done|].
  by rewrite filter_cons_True, IH.
Qed.

Lemma length_validMenteesOf members excluded pairingHistory previousMonth a :
  a ∈ members →
  length (validMenteesOf
            (buildPossiblePairings members excluded pairingHistory previousMonth) ∅ a)
  = optionCount members excluded a.
Proof.
  intros Hin. unfold validMenteesOf, optionCount.
  rewrite possiblePairings_lookup by done. cbn [default].
  rewrite filter_all by (intros p; apply not_elem_of_empty).
  unfold optionsFor. rewrite sortBy_Permutation.
  apply length_omap_filter. intros e.
  destruct (decide (a = e)) as [->|Hne].
  - rewrite bool_decide_eq_true_2 by done. cbn. split; [by intros [??]|by intros [? _]].
  - rewrite bool_decide_eq_false_2 by done. cbn.
    destruct (isPairExcluded a e excluded); split; try done; by intros [??].
Qed.

Lemma membersByOptionCount_sorted members excluded pairingHistory previousMonth :
  sortedBy (optionCount members excluded)
    (sortBy (λ a, length (validMenteesOf
                            (buildPossiblePairings members excluded pairingHistory
                               previousMonth) ∅ a)) members).
Proof.
  eapply sortedBy_ext; [|apply sortBy_sorted].
  intros a Ha. rewrite sortBy_Permutation in Ha. by apply length_validMenteesOf.
Qed.

Lemma filter_ext_in {A} (P Q : A → Prop) `{!∀ x, Decision (P x)} `{!∀ x, Decision (Q x)}
    (l : list A) :
  (∀ x, x ∈ l → P x ↔ Q x) → filter P l = filter Q l.
Proof.
  induction l as [|x l IH]; [done|]. intros Hext.
  rewrite !filter_cons, IH by (intros y Hy; apply Hext; by right).
  destruct (decide (P x)) as [HP|HP], (decide (Q x)) as [HQ|HQ]; try done.
  - destruct HQ. by apply (Hext x); [left|].
  - destruct HP. by apply (Hext x); [left|].
Qed.

Lemma membersByOptionCount_stable members excluded pairingHistory previousMonth k :
  filter (λ a, optionCount members excluded a = k)
    (sortBy (λ a, length (validMenteesOf
                            (buildPossiblePairings members excluded pairingHistory
                               previousMonth) ∅ a)) members)
  = filter (λ a, optionCount members excluded a = k) members.
Proof.
  set (f := λ a, length (validMenteesOf
                           (buildPossiblePairings members excluded pairingHistory
                              previousMonth) ∅ a)).
  rewrite <-(filter_ext_in (λ a, f a = k) _ members), <-(sortBy_stable f k members).
  - apply filter_ext_in. intros a Ha. rewrite sortBy_Permutation in Ha.
    unfold f. by rewrite length_validMenteesOf.
  - intros a Ha. unfold f. by rewrite length_validMenteesOf.
Qed.

End OptionCount.

(** * The claims *)

(** ** C1: one assignment per member, no excluded pair *)

Lemma NoDup_participants_atMostOne l :
  NoDup (participants l) → Spec.atMostOneAssignment l.
Proof.
  unfold Spec.atMostOneAssignment, Spec.takesPart.
  induction l as [|c l IH]; intros Hnd i j a b name Hi Hj Ha Hb.
  { by rewrite lookup_nil in Hi. }
  rewrite participants_cons in Hnd.
  apply NoDup_cons in Hnd as [Hm [He Hnd]%NoDup_cons].
  assert (∀ k d, l !! k = Some d → mentor d = name ∨ mentee d = name →
                 name ∈ participants l) as Hin.
  { intros k d Hk Hd. apply list_elem_of_lookup_2 in Hk.
    unfold participants. apply list_elem_of_bind. exists d. split; [|done].
    destruct Hd as [<- | <-]; [left|right; left]. }
  destruct i as [|i], j as [|j]; cbn in Hi, Hj.
  - done.
  - injection Hi as <-. specialize (Hin j b Hj Hb).
    destruct Ha as [<- | <-]; [destruct Hm; by right|by destruct He].
  - injection Hj as <-. specialize (Hin i a Hi Ha).
    destruct Hb as [<- | <-]; [destruct Hm; by right|by destruct He].
  - f_equal. by apply (IH Hnd i j a b name).
Qed.

(** C1, as amended.  On a roster without repeated names: the month printed
    by the randomized variant and the assignments of the greedy variant use
    no member twice; [createAssignments] uses no member twice as mentor and
    no member twice as mentee; and in all three no assignment is the pair of
    an exclusion rule, in either orientation. *)
Theorem pairing_validity (members : list string) :
  NoDup members →
  (∀ fuel excluded months g out,
     Randomized.main fuel (Randomized.mkInputData members excluded months) g
       = Randomized.Printed out →
     ∃ newMonth l,
       last (Randomized.months out) = Some newMonth
       ∧ Randomized.assignments newMonth = Some l
       ∧ Spec.atMostOneAssignment l
       ∧ ∀ a rule, a ∈ l → rule ∈ default [] excluded → ¬ Spec.matchesRule a rule)
  ∧ (∀ excludedList pastMonths,
       NoDup (mentor <$> (CreateAssignments.createAssignments members excludedList pastMonths).1)
       ∧ NoDup (mentee <$> (CreateAssignments.createAssignments members excludedList pastMonths).1)
       ∧ ∀ a rule,
           a ∈ (CreateAssignments.createAssignments members excludedList pastMonths).1 →
           rule ∈ excludedList → ¬ Spec.matchesRule a rule)
  ∧ (∀ excluded months,
       Spec.atMostOneAssignment (Greedy.generateNewAssignments members excluded months).1
       ∧ ∀ a rule,
           a ∈ (Greedy.generateNewAssignments members excluded months).1 →
           rule ∈ excluded → ¬ Spec.matchesRuleL a rule).
Proof.
  intros Hnd. split_and!.
  - intros fuel excluded months g out Hmain.
    destruct (randomized_pairs_valid fuel
                (Randomized.mkInputData members excluded months) g out Hnd Hmain)
      as (newMonth & l & ? & ? & ? & ?).
    exists newMonth, l. split_and!; try done. by apply NoDup_participants_atMostOne.
  - intros excludedList pastMonths.
    destruct (createAssignments_valid members excludedList pastMonths Hnd)
      as (? & ? & Hok).
    split_and!; try done. intros a rule Ha. by apply Hok.
  - intros excluded months.
    destruct (generateNewAssignments_inv members excluded months)
      as (st & -> & _ & (Hnd' & _ & _ & Hok) & _).
    cbn [fst]. split.
    + apply NoDup_participants_atMostOne. by apply NoDup_app in Hnd' as [? _].
    + rewrite Forall_forall in Hok. intros a rule Ha. by apply Hok.
Qed.

(** C1 as stated fails: on the roster A, B, C, without rules or history,
    [createAssignments] answers A→B, B→C, C→A, in which every member takes
    part in two assignments. *)
Lemma createAssignments_member_twice :
  NoDup ["A"; "B"; "C"]
  ∧ (CreateAssignments.createAssignments ["A"; "B"; "C"] [] []).1
    = [ {| mentor := "A"; mentee := "B" |};
        {| mentor := "B"; mentee := "C" |};
        {| mentor := "C"; mentee := "A" |} ]
  ∧ ¬ Spec.atMostOneAssignment (CreateAssignments.createAssignments ["A"; "B"; "C"] [] []).1.
Proof.
  split_and!.
  - apply (bool_decide_unpack (NoDup _)). by vm_compute.
  - by vm_compute.
  - intros H.
    specialize (H 0 1 {| mentor := "A"; mentee := "B" |}
                  {| mentor := "B"; mentee := "C" |} "B").
    by discriminate H; [vm_compute..|right|left].
Qed.

Lemma pairing_validity_witness :
  NoDup Examples.roster5
  ∧ ∃ out,
      Randomized.main 1 Examples.input5 Examples.source0 = Randomized.Printed out
      ∧ ∃ newMonth l,
          last (Randomized.months out) = Some newMonth
          ∧ Randomized.assignments newMonth = Some l
          ∧ Spec.atMostOneAssignment l
          ∧ ∀ a rule, a ∈ l → rule ∈ [("A", "B")] → ¬ Spec.matchesRule a rule.
Proof.
  assert (NoDup Examples.roster5) as Hnd.
  { apply (bool_decide_unpack (NoDup _)). by vm_compute. }
  split; [exact Hnd|].
  eexists. split; [by vm_compute|].
  apply (proj1 (pairing_validity Examples.roster5 Hnd) 1 (Some [("A", "B")])
           Examples.history2 Examples.source0).
  by vm_compute.
Defined.

(** ** C2 and C5: inputs without a valid candidate *)

(** C2.  The nested call of [generateAssignments] receives the unchanged
    roster, so a two-member roster whose only pair is excluded is searched
    again and again: no amount of fuel yields a result. *)
Theorem generateAssignments_no_result fuel dataMonths a b rules prev g :
  Randomized.generateAssignments fuel dataMonths [a; b] None prev
    (Randomized.buildExcludedSet (Some ((a, b) :: rules))) g
  = None.
Proof.
  destruct (elem_of_buildExcludedSet ((a, b) :: rules) (a, b)) as [Hab Hba]; [left|].
  by apply generateAssignments_two_excluded.
Qed.

(** C5.  On members A and B with the rule (A, B): the randomized variant's
    [main] never prints (and exits with status 1 on an empty history), while
    the greedy variant answers no assignment and the skip list A, B. *)
Theorem infeasible_pair_outcomes fuel g :
  Randomized.main fuel
    (Randomized.mkInputData ["A"; "B"] (Some [("A", "B")])
       [Randomized.mkMonth "2021年10月" None None None]) g
  = Randomized.NoReturn
  ∧ Randomized.main fuel (Randomized.mkInputData ["A"; "B"] (Some [("A", "B")]) []) g
    = Randomized.Exit 1
  ∧ Greedy.generateNewAssignments ["A"; "B"] [["A"; "B"]] [] = ([], ["A"; "B"]).
Proof.
  split_and!; [|done|by vm_compute].
  unfold Randomized.main.
  cbn [Randomized.months Randomized.members Randomized.excluded Randomized.month last].
  assert (Randomized.parseMonth "2021年10月"
          = Some (Randomized.Safe 2021, Randomized.Safe 10)) as -> by by vm_compute.
  destruct (Randomized.nextMonth _) as [newYear newMonthNum].
  destruct (elem_of_buildExcludedSet [("A", "B")] ("A", "B")) as [Hab Hba]; [left|].
  by rewrite generateAssignments_two_excluded.
Qed.

(** ** C3: the weight of the recency penalty *)

Lemma findPrevAssignments_snoc ms m :
  Randomized.findPrevAssignments (ms ++ [m]) = Randomized.firstAssignments (reverse ms).
Proof.
  unfold Randomized.findPrevAssignments.
  rewrite length_app. cbn [length].
  replace (length ms + 1 - 1) with (length ms) by lia.
  by rewrite take_app_length.
Qed.

(** The loop for [prevAssignments] answers the list of the latest month that
    has one. *)
Lemma firstAssignments_reverse init l :
  Randomized.firstAssignments (reverse init) = Some l ↔
  ∃ older m newer,
    init = older ++ m :: newer ∧ Randomized.assignments m = Some l
    ∧ ∀ m', m' ∈ newer → Randomized.assignments m' = None.
Proof.
  induction init as [|m init IH] using rev_ind.
  { split; [done|]. intros (older & m & newer & E & _). by destruct older. }
  rewrite reverse_snoc. cbn [Randomized.firstAssignments].
  destruct (Randomized.assignments m) as [a|] eqn:Ea.
  - split.
    + intros [= <-]. exists init, m, []. split_and!; [done..|].
      by intros m' ?%elem_of_nil.
    + intros (older & mp & newer & E & Hmp & Hnewer).
      destruct newer as [|n newer _] using rev_ind.
      * apply app_inj_tail in E as [_ <-]. congruence.
      * change (older ++ mp :: newer ++ [n]) with (older ++ (mp :: newer) ++ [n]) in E.
        rewrite app_assoc in E. apply app_inj_tail in E as [_ <-].
        rewrite Hnewer in Ea; [done|]. apply elem_of_app. right. by left.
  - rewrite IH. split.
    + intros (older & mp & newer & -> & Hmp & Hnewer).
      exists older, mp, (newer ++ [m]). split_and!; [by rewrite <-app_assoc|done|].
      intros m' [?|Hm'%list_elem_of_singleton]%elem_of_app; [by apply Hnewer|by subst].
    + intros (older & mp & newer & E & Hmp & Hnewer).
      destruct newer as [|n newer _] using rev_ind.
      * apply app_inj_tail in E as [_ <-]. congruence.
      * change (older ++ mp :: newer ++ [n]) with (older ++ (mp :: newer) ++ [n]) in E.
        rewrite app_assoc in E. apply app_inj_tail in E as [-> <-].
        exists older, mp, newer. split_and!; [done..|].
        intros m' Hm'. apply Hnewer. apply elem_of_app. by left.
Qed.

Lemma findPrevAssignments_latest ms l :
  Randomized.findPrevAssignments ms = Some l ↔ Spec.latestBeforeLast ms l.
Proof.
  unfold Spec.latestBeforeLast.
  destruct ms as [|lastMonth init _] using rev_ind.
  { split; [done|]. intros (older & m & newer & lastMonth & E & _).
    by destruct older. }
  rewrite findPrevAssignments_snoc, firstAssignments_reverse. split.
  - intros (older & m & newer & -> & Hm & Hnewer).
    exists older, m, newer, lastMonth. split_and!; [|done..].
    by rewrite <-app_assoc.
  - intros (older & m & newer & lastMonth' & E & Hm & Hnewer).
    change (older ++ m :: newer ++ [lastMonth'])
      with (older ++ (m :: newer) ++ [lastMonth']) in E.
    rewrite app_assoc in E. apply app_inj_tail in E as [-> _].
    by exists older, m, newer.
Qed.

Lemma elem_of_keySet_Exists a seen :
  Randomized.key a ∈ Randomized.keySet seen
  ↔ Exists (λ b, Randomized.key b = Randomized.key a) seen.
Proof.
  unfold Randomized.keySet.
  rewrite elem_of_list_to_set, list_elem_of_fmap, Exists_exists. naive_solver.
Qed.

Lemma penaltyOf_repeats ms c :
  Spec.candidatePenalty ms c
  = Spec.repeats (Spec.allAssignments ms) c
    + Spec.repeats (default [] (Randomized.findPrevAssignments ms)) c.
Proof.
  unfold Spec.candidatePenalty, Randomized.penaltyOf, Spec.repeats, Randomized.pastSet.
  f_equal.
  - f_equal. apply list_filter_iff. intros a. apply elem_of_keySet_Exists.
  - destruct (Randomized.findPrevAssignments ms) as [prev|]; cbn [default].
    + unfold Randomized.countOverlap. f_equal. apply list_filter_iff. intros a.
      apply elem_of_keySet_Exists.
    + induction c as [|a c IH]; [done|].
      rewrite filter_cons_False; [done|]. by intros ?%Exists_nil.
Qed.

Lemma isRecentPairing_pairedInLast months x y :
  Greedy.isRecentPairing x y (last months) = true ↔ Spec.pairedInLast months x y.
Proof.
  unfold Spec.pairedInLast, Spec.pairedIn, Greedy.isRecentPairing.
  destruct (last months) as [pm|].
  - rewrite existsb_exists. setoid_rewrite orb_true_iff.
    setoid_rewrite bool_decide_eq_true. setoid_rewrite <-list_elem_of_In. split.
    + intros (a & Ha & H). exists pm. split; [done|]. by exists a.
    + intros (? & [= <-] & a & Ha & H). by exists a.
  - split; [done|]. by intros (? & ? & _).
Qed.

Lemma greedyScore_eq members months x y :
  x ∈ members → y ∈ members → x ≠ y →
  Spec.greedyScore members months x y
  = Some (Spec.occurrences x y months
          + if Greedy.isRecentPairing x y (last months) then 100 else 0).
Proof.
  intros Hx Hy Hne. unfold Spec.greedyScore.
  by rewrite getPairingScore_eq, timesPaired_countPairings.
Qed.

(** C3, as amended.  Greedy scorer: the score of two different roster
    members is the number of past assignments on their pair, in either
    orientation, plus 100 when the pair, in either orientation, is in the
    last Period of the history, whether or not that Period has assignments;
    so a pair of the last Period scores strictly higher than a pair that is
    not in it exactly when the other pair has fewer than 100 past assignments
    more.  Randomized scorer: the penalty of a candidate is the number of its
    assignments that occur in any Period of the history plus the number of
    its assignments that occur in [prevAssignments], where to occur is to
    have the same key, which for names without the separator is to be the
    same assignment, with the same mentor and the same mentee;
    [prevAssignments] is the list of the latest Period before the last one
    that has an assignment list. *)
Theorem recency_penalty_weight :
  (∀ members months x y,
     x ∈ members → y ∈ members → x ≠ y →
     (Spec.pairedInLast months x y →
      Spec.greedyScore members months x y = Some (Spec.occurrences x y months + 100))
     ∧ (¬ Spec.pairedInLast months x y →
        Spec.greedyScore members months x y = Some (Spec.occurrences x y months)))
  ∧ (∀ members months x y x' y',
       x ∈ members → y ∈ members → x ≠ y →
       x' ∈ members → y' ∈ members → x' ≠ y' →
       Spec.pairedInLast months x y → ¬ Spec.pairedInLast months x' y' →
       ∃ s s', Spec.greedyScore members months x y = Some s
               ∧ Spec.greedyScore members months x' y' = Some s'
               ∧ (s' < s ↔ Spec.occurrences x' y' months
                           < Spec.occurrences x y months + 100))
  ∧ (∀ ms c,
       Spec.candidatePenalty ms c
       = Spec.repeats (Spec.allAssignments ms) c
         + Spec.repeats (default [] (Randomized.findPrevAssignments ms)) c)
  ∧ (∀ ms l, Randomized.findPrevAssignments ms = Some l ↔ Spec.latestBeforeLast ms l)
  ∧ (∀ a b, Invariants.barFree (mentor a) = true → Invariants.barFree (mentor b) = true →
            (Randomized.key b = Randomized.key a ↔ b = a)).
Proof.
  assert (∀ members months x y,
            x ∈ members → y ∈ members → x ≠ y →
            (Spec.pairedInLast months x y →
             Spec.greedyScore members months x y
             = Some (Spec.occurrences x y months + 100))
            ∧ (¬ Spec.pairedInLast months x y →
               Spec.greedyScore members months x y
               = Some (Spec.occurrences x y months))) as Hscore.
  { intros members months x y Hx Hy Hne. rewrite greedyScore_eq by done.
    rewrite <-isRecentPairing_pairedInLast.
    destruct (Greedy.isRecentPairing x y (last months)).
    - split; [done|]. by intros [].
    - split; [done|]. intros _. f_equal. lia. }
  split_and!.
  - done.
  - intros members months x y x' y' Hx Hy Hne Hx' Hy' Hne' Hin Hout.
    exists (Spec.occurrences x y months + 100), (Spec.occurrences x' y' months).
    split_and!; [by apply Hscore|by apply Hscore|done].
  - apply penaltyOf_repeats.
  - apply findPrevAssignments_latest.
  - intros [am ae] [bm be] Ha Hb. cbn in Ha, Hb. unfold Randomized.key. cbn. split.
    + intros E. apply barFree_key_inj in E as [-> ->]; done.
    + by intros [= -> ->].
Qed.

(** C3 as stated fails in both scorers.  Greedy: after a Period with A and
    B and a last Period without assignments, the pair of A and B is charged
    nothing on top of its count; after 102 Periods of A with B and a last
    Period of A with C, the pair of A and B, which is not recent, scores 102
    and the recent pair of A and C scores 101.  Randomized: an assignment
    with the roles of a recent assignment exchanged is charged nothing for
    it; an assignment of the last Period is charged nothing for it either,
    because [prevAssignments] comes from a Period before the last one; and a
    candidate that repeats one assignment of [prevAssignments] has penalty 2
    where a candidate that repeats three older assignments has penalty 3. *)
Lemma recency_penalty_outweighed :
  ¬ Spec.recencyCharged ∧ ¬ Spec.recencyDominates
  ∧ ¬ Spec.recencyChargedCandidates ∧ ¬ Spec.recencyDominatesCandidates
  ∧ (Spec.mostRecentAssignments Examples.historyLast [ {| mentor := "A"; mentee := "B" |} ]
     ∧ Spec.recencyPart Examples.historyLast [ {| mentor := "A"; mentee := "B" |} ] = 0).
Proof.
  split_and!.
  - intros H.
    specialize (H ["A"; "B"] Examples.idleHistory [ {| mentor := "A"; mentee := "B" |} ]
                  "A" "B" 1).
    assert (1 < 1) as Hlt; [|lia].
    assert (Spec.occurrences "A" "B" Examples.idleHistory = 1) as E by by vm_compute.
    rewrite <-E at 1. apply H.
    + by left.
    + by right; left.
    + done.
    + exists [], (Greedy.mkMonth "m" [] [ {| mentor := "A"; mentee := "B" |} ]),
        [Greedy.mkMonth "n" [] []].
      split_and!; [done..|]. intros m' Hm'%list_elem_of_singleton; by subst.
    + eexists. split; [by left|]. by left.
    + by vm_compute.
  - intros H.
    specialize (H ["A"; "B"; "C"] Examples.longHistory [ {| mentor := "A"; mentee := "C" |} ]
                  "A" "C" "A" "B" 101 102).
    assert (102 < 101) as Hlt; [|lia].
    apply H.
    + by left.
    + by right; right; left.
    + done.
    + by left.
    + by right; left.
    + done.
    + exists (replicate 102 (Greedy.mkMonth "m" [] [ {| mentor := "A"; mentee := "B" |} ])),
        (Greedy.mkMonth "n" [] [ {| mentor := "A"; mentee := "C" |} ]), [].
      split_and!; [done..|]. by intros m' ?%elem_of_nil.
    + eexists. split; [by left|]. by left.
    + intros (a & Ha%list_elem_of_singleton & Hor). subst a.
      by destruct Hor as [[_ [=]]|[[=] _]].
    + by vm_compute.
    + by vm_compute.
  - intros H.
    specialize (H Examples.historySwapped [ {| mentor := "A"; mentee := "B" |} ]
                  {| mentor := "B"; mentee := "A" |} {| mentor := "A"; mentee := "B" |}).
    assert (0 < 0) as Hlt; [|lia].
    assert (Spec.recencyPart Examples.historySwapped [ {| mentor := "B"; mentee := "A" |} ]
            = 0) as E by by vm_compute.
    rewrite <-E at 2. apply H.
    + exists [], (Randomized.mkMonth "2021年11月" None
                    (Some [ {| mentor := "A"; mentee := "B" |} ]) None),
        [Randomized.mkMonth "2021年12月" None None None].
      split_and!; [done..|]. intros m' Hm'%list_elem_of_singleton; by subst.
    + by left.
    + by right.
  - intros H.
    specialize (H Examples.history6 Examples.repeatsRecent Examples.repeatsOlder).
    assert (3 < 2) as Hlt; [|lia].
    assert (Spec.candidatePenalty Examples.history6 Examples.repeatsOlder = 3)
      as <- by by vm_compute.
    assert (Spec.candidatePenalty Examples.history6 Examples.repeatsRecent = 2)
      as <- by by vm_compute.
    apply H; [vm_compute; lia|by vm_compute].
  - exists [Randomized.mkMonth "2021年11月" None
              (Some [ {| mentor := "C"; mentee := "D" |} ]) None],
      (Randomized.mkMonth "2021年12月" None
         (Some [ {| mentor := "A"; mentee := "B" |} ]) None), [].
    split_and!; [done..|]. by intros m' ?%elem_of_nil.
  - by vm_compute.
Qed.

Lemma recency_penalty_weight_witness :
  Spec.greedyScore ["A"; "B"; "C"] Examples.longHistory "A" "C"
  = Some (Spec.occurrences "A" "C" Examples.longHistory + 100)
  ∧ Spec.greedyScore ["A"; "B"; "C"] Examples.longHistory "A" "B"
    = Some (Spec.occurrences "A" "B" Examples.longHistory).
Proof.
  split.
  - apply (proj1 recency_penalty_weight ["A"; "B"; "C"] Examples.longHistory "A" "C").
    + by left.
    + by right; right; left.
    + done.
    + eexists. split; [by vm_compute|]. eexists. split; [by left|]. by left.
  - apply (proj1 recency_penalty_weight ["A"; "B"; "C"] Examples.longHistory "A" "B").
    + by left.
    + by right; left.
    + done.
    + intros (pm & Hpm & a & Ha & H). vm_compute in Hpm. injection Hpm as <-.
      cbn in Ha. apply list_elem_of_singleton in Ha as ->.
      by destruct H as [[_ [=]]|[[=] _]].
Defined.

(** ** C6: an odd number of eligible members *)

(** C6, as amended.  Randomized variant: whenever [generateAssignments]
    answers for an odd number of eligible members, exactly one of them is in
    its skip list, and the month that [main] prints for a roster of odd size
    names exactly one member in its skip field.  Greedy variant: on a roster
    of odd size without repeated names, exactly one member is skipped when
    there are no exclusion rules, and an odd number of members in any case. *)
Theorem odd_roster_one_skipped :
  (∀ fuel dataMonths members skip prev excludedSet g res g',
     Randomized.generateAssignments fuel dataMonths members skip prev excludedSet g
       = Some (res, g') →
     length (Randomized.initialEligible members skip) `mod` 2 = 1 →
     ∃ name, Randomized.res_extraSkip res = [name]
             ∧ name ∈ Randomized.initialEligible members skip)
  ∧ (∀ fuel data g out,
       Randomized.main fuel data g = Randomized.Printed out →
       length (Randomized.members data) `mod` 2 = 1 →
       ∃ newMonth name,
         last (Randomized.months out) = Some newMonth
         ∧ Randomized.skip newMonth = Some (Randomized.SkipName name)
         ∧ name ∈ Randomized.members data)
  ∧ (∀ members months,
       NoDup members → length members `mod` 2 = 1 →
       ∃ name, (Greedy.generateNewAssignments members [] months).2 = [name]
               ∧ name ∈ members)
  ∧ (∀ members excluded months,
       NoDup members → length members `mod` 2 = 1 →
       length (Greedy.generateNewAssignments members excluded months).2 `mod` 2 = 1).
Proof.
  assert (∀ fuel dataMonths members skip prev excludedSet g res g',
     Randomized.generateAssignments fuel dataMonths members skip prev excludedSet g
       = Some (res, g') →
     length (Randomized.initialEligible members skip) `mod` 2 = 1 →
     ∃ name, Randomized.res_extraSkip res = [name]
             ∧ name ∈ Randomized.initialEligible members skip) as Hone.
  { intros fuel dataMonths members skip prev excludedSet g res g' Hgen Hodd.
    apply generateAssignments_Some in Hgen as (eligible & Hperm & _ & Hlen & _).
    rewrite Hodd in Hlen.
    destruct (Randomized.res_extraSkip res) as [|name [|??]]; try done.
    exists name. split; [done|]. rewrite <-Hperm. apply elem_of_app. right. left. }
  split_and!.
  - exact Hone.
  - intros fuel data g out
      (lastMonth & parsed & result & g' & label & _ & _ & Hgen & _ & ->)%main_Printed Hodd.
    destruct (Hone _ _ _ _ _ _ _ _ _ Hgen Hodd) as (name & E & Hin).
    eexists _, name. cbn [Randomized.months]. rewrite last_snoc.
    cbn [Randomized.skip]. by rewrite E.
  - intros members months Hnd Hodd.
    pose proof (generateNewAssignments_skip_parity members months Hnd) as Hlen.
    pose proof (generateNewAssignments_Permutation members [] months Hnd) as Hperm.
    rewrite Hodd in Hlen.
    destruct (Greedy.generateNewAssignments members [] months).2 as [|name [|??]];
      try done.
    exists name. split; [done|]. rewrite <-Hperm. apply elem_of_app. right. left.
  - intros members excluded months Hnd Hodd.
    pose proof (generateNewAssignments_Permutation members excluded months Hnd) as Hperm.
    apply Permutation_length in Hperm.
    rewrite length_app, length_participants in Hperm.
    rewrite <-Hperm in Hodd.
    by rewrite Nat.add_comm, Nat.mul_comm, Nat.Div0.mod_add in Hodd.
Qed.

(** C6 as stated fails: the greedy variant skips all three members of an odd
    roster when every pair is excluded. *)
Lemma odd_roster_three_skipped :
  length ["A"; "B"; "C"] `mod` 2 = 1
  ∧ Greedy.generateNewAssignments ["A"; "B"; "C"]
      [["A"; "B"]; ["A"; "C"]; ["B"; "C"]] []
    = ([], ["A"; "B"; "C"]).
Proof. split; by vm_compute. Qed.

Lemma odd_roster_one_skipped_witness :
  (∃ name, Randomized.res_extraSkip
             {| Randomized.res_assignments :=
                  [ {| mentor := "B"; mentee := "C" |}; {| mentor := "E"; mentee := "A" |} ];
                Randomized.res_extraSkip := ["D"] |} = [name]
           ∧ name ∈ Randomized.initialEligible Examples.roster5 None)
  ∧ (∃ name, (Greedy.generateNewAssignments ["A"; "B"; "C"] [] []).2 = [name]
             ∧ name ∈ ["A"; "B"; "C"]).
Proof.
  split.
  - eapply (proj1 odd_roster_one_skipped 1 Examples.history2 Examples.roster5 None
              (Randomized.findPrevAssignments Examples.history2)
              (Randomized.buildExcludedSet (Some [("A", "B")])) Examples.source0).
    + by vm_compute.
    + by vm_compute.
  - apply (proj1 (proj2 (proj2 odd_roster_one_skipped)) ["A"; "B"; "C"] []).
    + apply (bool_decide_unpack (NoDup _)). by vm_compute.
    + by vm_compute.
Defined.

(** ** C8: the output is the input with one month appended *)





(** ** C9: determinism *)

(** C9.  Two random sources with the same draws ahead give the same run of
    the randomized variant: the same pairing from [generateAssignments] and
    the same outcome of [main], for every input.  The greedy variant draws
    nothing: what its [main] yields is, apart from the label of the new
    month, the same for every reading of the clock. *)
Theorem pairing_deterministic (g1 g2 : Rng) :
  same_draws g1 g2 →
  (∀ fuel data, Randomized.main fuel data g1 = Randomized.main fuel data g2)
  ∧ (∀ fuel dataMonths members skip prev excludedSet,
       fst <$> Randomized.generateAssignments fuel dataMonths members skip prev
                 excludedSet g1
       = fst <$> Randomized.generateAssignments fuel dataMonths members skip prev
                   excludedSet g2)
  ∧ (∀ fullYear monthIndex fullYear' monthIndex' inputData,
       Spec.withoutLabels (Greedy.main fullYear monthIndex inputData)
       = Spec.withoutLabels (Greedy.main fullYear' monthIndex' inputData)).
Proof.
  intros Hg. split_and!.
  - intros fuel data. by apply main_same_draws.
  - intros. by apply generateAssignments_same_draws.
  - intros. unfold Greedy.main.
    destruct (Greedy.members inputData); [|done].
    destruct (Greedy.generateNewAssignments _ _ _) as [newAssignments newSkip].
    unfold Spec.withoutLabels.
    cbn [Greedy.members Greedy.excluded Greedy.months fmap option_fmap option_map].
    by rewrite !fmap_app.
Qed.

Lemma pairing_deterministic_witness :
  same_draws Examples.source0 Examples.source1
  ∧ Randomized.main 2 Examples.input5 Examples.source0
    = Randomized.main 2 Examples.input5 Examples.source1.
Proof.
  assert (same_draws Examples.source0 Examples.source1) as Hg.
  { intros i. cbn. f_equal. lia. }
  split; [exact Hg|].
  apply (proj1 (pairing_deterministic Examples.source0 Examples.source1 Hg)).
Defined.

(** ** C10: the shape of the skip field *)

(** C10.  [main] of the randomized variant stores the skipped members as a
    single name when there is one, as the array when there are several, and
    leaves the field out when there are none.  The skipped members are the
    roster members that take part in no assignment of the new month. *)
Theorem skip_field_shape :
  (∀ extraSkip,
     Randomized.skipOf extraSkip
     = match extraSkip with
       | [] => None
       | [name] => Some (Randomized.SkipName name)
       | _ :: _ :: _ => Some (Randomized.SkipNames extraSkip)
       end)
  ∧ (∀ fuel data g out,
       Randomized.main fuel data g = Randomized.Printed out →
       ∃ result g' newMonth l,
         Randomized.generateAssignments fuel (Randomized.months data)
           (Randomized.members data) None
           (Randomized.findPrevAssignments (Randomized.months data))
           (Randomized.buildExcludedSet (Randomized.excluded data)) g
         = Some (result, g')
         ∧ last (Randomized.months out) = Some newMonth
         ∧ Randomized.skip newMonth = Randomized.skipOf (Randomized.res_extraSkip result)
         ∧ Randomized.assignments newMonth = Some l
         ∧ participants l ++ Randomized.res_extraSkip result ≡ₚ Randomized.members data).
Proof.
  split.
  - by intros [|name [|??]].
  - intros fuel data g out
      (lastMonth & parsed & result & g' & label & Hlast & Hparse & Hgen & Hlabel & ->)%main_Printed.
    eexists result, g', _, _. cbn [Randomized.months].
    rewrite last_snoc. cbn [Randomized.skip Randomized.assignments].
    split_and!; try done.
    apply generateAssignments_Some in Hgen
      as (eligible & Hperm & Heven & _ & [g'' Hcand] & _).
    rewrite adjustAssignments_participants, Hcand.
    by rewrite generateCandidate_Permutation.
Qed.

Lemma skip_field_shape_witness :
  ∃ out,
    Randomized.main 1 Examples.input5 Examples.source0 = Randomized.Printed out
    ∧ ∃ result g' newMonth l,
        Randomized.generateAssignments 1 Examples.history2 Examples.roster5 None
          (Randomized.findPrevAssignments Examples.history2)
          (Randomized.buildExcludedSet (Some [("A", "B")])) Examples.source0
        = Some (result, g')
        ∧ last (Randomized.months out) = Some newMonth
        ∧ Randomized.skip newMonth = Randomized.skipOf (Randomized.res_extraSkip result)
        ∧ Randomized.assignments newMonth = Some l
        ∧ participants l ++ Randomized.res_extraSkip result ≡ₚ Examples.roster5.
Proof.
  eexists. split; [by vm_compute|].
  apply (proj2 skip_field_shape 1 Examples.input5 Examples.source0).
  by vm_compute.
Defined.

(** ** Further properties *)

(** The greedy result splits a roster without repeated names: every member
    is in exactly one assignment or in the skip list, and nobody else is. *)
Theorem greedy_partitions_roster members excluded months :
  NoDup members →
  participants (Greedy.generateNewAssignments members excluded months).1
    ++ (Greedy.generateNewAssignments members excluded months).2 ≡ₚ members.
Proof. apply generateNewAssignments_Permutation. Qed.

Lemma greedy_partitions_roster_witness :
  participants (Greedy.generateNewAssignments ["A"; "B"; "C"] [["A"; "B"]] []).1
    ++ (Greedy.generateNewAssignments ["A"; "B"; "C"] [["A"; "B"]] []).2
  ≡ₚ ["A"; "B"; "C"].
Proof.
  apply (greedy_partitions_roster ["A"; "B"; "C"] [["A"; "B"]] []).
  apply (bool_decide_unpack (NoDup _)). by vm_compute.
Defined.

(** On a roster of even size without repeated names and without exclusion
    rules the greedy variant skips nobody. *)
Theorem greedy_even_roster_none_skipped members months :
  NoDup members → length members `mod` 2 = 0 →
  (Greedy.generateNewAssignments members [] months).2 = [].
Proof.
  intros Hnd Heven. apply nil_length_inv.
  by rewrite generateNewAssignments_skip_parity.
Qed.

Lemma greedy_even_roster_none_skipped_witness :
  (Greedy.generateNewAssignments ["A"; "B"; "C"; "D"] [] []).2 = [].
Proof.
  apply (greedy_even_roster_none_skipped ["A"; "B"; "C"; "D"] []).
  - apply (bool_decide_unpack (NoDup _)). by vm_compute.
  - by vm_compute.
Defined.

(** The pairing matrix of the greedy variant holds, for two different roster
    members, the number of past assignments on their pair in either
    orientation, over all months. *)
Theorem greedy_matrix_counts_pairings members months x y :
  x ∈ members → y ∈ members → x ≠ y →
  Greedy.timesPaired (Greedy.countPairings members months) x y
  = Some (Spec.occurrences x y months).
Proof. apply timesPaired_countPairings. Qed.

Lemma greedy_matrix_counts_pairings_witness :
  Greedy.timesPaired (Greedy.countPairings ["A"; "B"; "C"] Examples.longHistory) "B" "A"
  = Some (Spec.occurrences "B" "A" Examples.longHistory).
Proof.
  apply (greedy_matrix_counts_pairings ["A"; "B"; "C"] Examples.longHistory "B" "A").
  - by right; left.
  - by left.
  - done.
Defined.

Lemma increment_Safe x n' :
  Randomized.increment x = Randomized.Safe n' →
  ∃ n, x = Randomized.Safe n ∧ n' = (n + 1)%N.
Proof.
  destruct x as [n|]; [|done]. cbn. unfold Randomized.toNumber.
  destruct (_ <? _)%N; [|done]. intros [= <-]. by exists n.
Qed.

Lemma nextMonth_cases yr mo :
  Randomized.nextMonth (yr, mo)
  = match mo with
    | Randomized.Safe n =>
        if decide (n < 12)%N then (yr, Randomized.Safe (n + 1))
        else (Randomized.increment yr, Randomized.Safe 1)
    | Randomized.Unsafe => (Randomized.increment yr, Randomized.Safe 1)
    end.
Proof.
  unfold Randomized.nextMonth. destruct mo as [n|]; [|done].
  cbn [Randomized.increment]. unfold Randomized.toNumber.
  change (2 ^ 53)%N with 9007199254740992%N.
  destruct (N.ltb_spec (n + 1) 9007199254740992); cbn [Randomized.above12];
    [destruct (N.ltb_spec 12 (n + 1))|]; case_decide; try done; lia.
Qed.

(** The label of the new month in the randomized variant.  Whenever [main]
    prints, the last label of the input parses, as a year [year] and a month
    [m], and the new label is the text of [year] and [m + 1] when [m] is
    below 12, and the text of [year + 1] and 1 otherwise. *)
Theorem nextMonth_successor fuel data g out :
  Randomized.main fuel data g = Randomized.Printed out →
  ∃ lastMonth newMonth year m,
    last (Randomized.months data) = Some lastMonth
    ∧ Randomized.parseMonth (Randomized.month lastMonth) = Some (Randomized.Safe year, m)
    ∧ Randomized.months out = Randomized.months data ++ [newMonth]
    ∧ Randomized.month newMonth
      = match m with
        | Randomized.Safe n =>
            if decide (n < 12)%N
            then numberToString year +:+ "年" +:+ numberToString (n + 1) +:+ "月"
            else numberToString (year + 1) +:+ "年" +:+ numberToString 1 +:+ "月"
        | Randomized.Unsafe =>
            numberToString (year + 1) +:+ "年" +:+ numberToString 1 +:+ "月"
        end.
Proof.
  intros (lastMonth & [yr mo] & result & g' & label & Hlast & Hparse & _ & Hlabel & ->)%main_Printed.
  cbn [Randomized.months Randomized.month].
  assert (∀ lbl, Randomized.formatMonth (Randomized.increment yr) (Randomized.Safe 1)
                 = Some lbl →
                 ∃ year, yr = Randomized.Safe year
                         ∧ lbl = numberToString (year + 1) +:+ "年"
                                 +:+ numberToString 1 +:+ "月") as Hjan.
  { intros lbl (y' & m' & Hy & [= <-] & _ & _ & ->)%formatMonth_Some.
    apply increment_Safe in Hy as (year & -> & ->). by exists year. }
  rewrite nextMonth_cases in Hlabel.
  destruct mo as [n|]; [case_decide|]; cbn [fst snd] in Hlabel.
  - apply formatMonth_Some in Hlabel as (year & m' & -> & [= <-] & _ & _ & ->).
    eexists lastMonth, _, year, (Randomized.Safe n). split_and!; [done..|].
    cbn [Randomized.month]. by rewrite decide_True.
  - destruct (Hjan label Hlabel) as (year & -> & ->).
    eexists lastMonth, _, year, (Randomized.Safe n). split_and!; [done..|].
    cbn [Randomized.month]. by rewrite decide_False.
  - destruct (Hjan label Hlabel) as (year & -> & ->).
    by eexists lastMonth, _, year, Randomized.Unsafe.
Qed.

Lemma nextMonth_successor_witness :
  ∃ out,
    Randomized.main 1 Examples.input5 Examples.source0 = Randomized.Printed out
    ∧ ∃ lastMonth newMonth year m,
        last Examples.history2 = Some lastMonth
        ∧ Randomized.parseMonth (Randomized.month lastMonth)
          = Some (Randomized.Safe year, m)
        ∧ Randomized.months out = Examples.history2 ++ [newMonth]
        ∧ Randomized.month newMonth
          = match m with
            | Randomized.Safe n =>
                if decide (n < 12)%N
                then numberToString year +:+ "年" +:+ numberToString (n + 1) +:+ "月"
                else numberToString (year + 1) +:+ "年" +:+ numberToString 1 +:+ "月"
            | Randomized.Unsafe =>
                numberToString (year + 1) +:+ "年" +:+ numberToString 1 +:+ "月"
            end.
Proof.
  eexists. split; [by vm_compute|].
  apply (nextMonth_successor 1 Examples.input5 Examples.source0).
  by vm_compute.
Defined.

(** A month printed by the randomized variant for a roster of even size has
    no skip field, and its assignments use every roster member. *)
Theorem randomized_even_roster_all_paired fuel data g out :
  Randomized.main fuel data g = Randomized.Printed out →
  length (Randomized.members data) `mod` 2 = 0 →
  ∃ newMonth l,
    last (Randomized.months out) = Some newMonth
    ∧ Randomized.skip newMonth = None
    ∧ Randomized.assignments newMonth = Some l
    ∧ participants l ≡ₚ Randomized.members data.
Proof.
  intros (lastMonth & parsed & result & g' & label & _ & _ & Hgen & _ & ->)%main_Printed Heven.
  eexists _, _. cbn [Randomized.months]. rewrite last_snoc.
  cbn [Randomized.skip Randomized.assignments].
  apply generateAssignments_Some in Hgen
    as (eligible & Hperm & Heven' & Hlen & [g'' Hcand] & _).
  cbn [Randomized.initialEligible] in Hperm, Hlen. rewrite Heven in Hlen.
  apply nil_length_inv in Hlen. rewrite Hlen in Hperm |- *.
  rewrite app_nil_r in Hperm. split_and!; try done.
  rewrite adjustAssignments_participants, Hcand.
  by rewrite generateCandidate_Permutation.
Qed.

Lemma randomized_even_roster_all_paired_witness :
  ∃ out,
    Randomized.main 1
      (Randomized.mkInputData ["A"; "B"; "C"; "D"] None Examples.history2)
      Examples.source0
    = Randomized.Printed out
    ∧ ∃ newMonth l,
        last (Randomized.months out) = Some newMonth
        ∧ Randomized.skip newMonth = None
        ∧ Randomized.assignments newMonth = Some l
        ∧ participants l ≡ₚ ["A"; "B"; "C"; "D"].
Proof.
  eexists. split; [by vm_compute|].
  apply (randomized_even_roster_all_paired 1
           (Randomized.mkInputData ["A"; "B"; "C"; "D"] None Examples.history2)
           Examples.source0).
  - by vm_compute.
  - by vm_compute.
Defined.

(** ** Further properties of the randomized variant *)
Section RandomizedFurther.
Import Randomized Spec Invariants.

(** A label written by [formatMonth] is read back by [parseMonth] as the
    same year and month, also inside a longer string, as long as no digit
    comes before it.  [formatMonth] is followed on the safe integers, where
    it writes the decimal digits.  The label that the greedy variant takes
    from the clock is read back as the clock's year and month, as far as
    these are safe integers. *)
Theorem month_label_round_trip :
  (∀ year m label,
     formatMonth year m = Some label →
     parseMonth label = Some (year, m)
     ∧ ∀ pre post, noDigit pre = true →
         parseMonth (pre +:+ label +:+ post) = Some (year, m))
  ∧ (∀ y m, (y < 2 ^ 53)%N → (m < 2 ^ 53)%N →
       formatMonth (Safe y) (Safe m)
       = Some (numberToString y +:+ "年" +:+ numberToString m +:+ "月"))
  ∧ (∀ fullYear monthIndex,
       parseMonth (Greedy.getCurrentYearMonth fullYear monthIndex)
       = Some (toNumber fullYear, toNumber (monthIndex + 1))).
Proof.
  split_and!.
  - intros year m label Hlabel. split; [by apply parseMonth_formatMonth|].
    intros. by apply parseMonth_embedded.
  - intros y m Hy%N.ltb_lt Hm%N.ltb_lt. unfold formatMonth, showNumber.
    by rewrite Hy, Hm.
  - intros. apply parseMonth_label_plain.
Qed.

(** What [main] prints can be fed to the next run: the label of the new
    month parses, as the successor of the last input label, so no later run
    on the output ends with [Deno.exit]. *)
Theorem randomized_output_feeds_next_run fuel data g out :
  main fuel data g = Printed out →
  ∃ lastMonth parsed newMonth,
    last (months data) = Some lastMonth
    ∧ parseMonth (month lastMonth) = Some parsed
    ∧ last (months out) = Some newMonth
    ∧ parseMonth (month newMonth) = Some (nextMonth parsed)
    ∧ ∀ fuel' g' code, main fuel' out g' ≠ Exit code.
Proof.
  intros (lastMonth & parsed & result & g' & label & Hlast & Hparse & Hgen & Hlabel & ->)%main_Printed.
  eexists lastMonth, parsed, _. cbn [months]. rewrite last_snoc.
  cbn [month].
  assert (parseMonth label = Some (nextMonth parsed)) as Hnew.
  { rewrite (parseMonth_formatMonth _ _ _ Hlabel). by destruct (nextMonth parsed). }
  split_and!; [done..|].
  intros fuel' g'' code [_ [Hnil|(m & Hm & Hnone)]]%main_Exit.
  - cbn [months] in Hnil. by apply app_nil in Hnil as [_ ?].
  - cbn [months] in Hm. rewrite last_snoc in Hm. injection Hm as <-.
    cbn [month] in Hnone. congruence.
Qed.

Lemma randomized_output_feeds_next_run_witness :
  ∃ out,
    main 1 Examples.input5 Examples.source0 = Printed out
    ∧ ∃ lastMonth parsed newMonth,
        last Examples.history2 = Some lastMonth
        ∧ parseMonth (month lastMonth) = Some parsed
        ∧ last (months out) = Some newMonth
        ∧ parseMonth (month newMonth) = Some (nextMonth parsed)
        ∧ ∀ fuel' g' code, main fuel' out g' ≠ Exit code.
Proof.
  eexists. split; [by vm_compute|].
  apply (randomized_output_feeds_next_run 1 Examples.input5 Examples.source0).
  by vm_compute.
Defined.

(** [main] ends with [Deno.exit] only with status 1, and exactly when the
    history is empty or the label of its last month does not parse; a last
    label without any digit is such a label. *)
Theorem randomized_exit_status fuel data g :
  (∀ code,
     main fuel data g = Exit code ↔
     code = 1
     ∧ (months data = []
        ∨ ∃ lastMonth, last (months data) = Some lastMonth
                       ∧ parseMonth (month lastMonth) = None))
  ∧ (∀ lastMonth,
       last (months data) = Some lastMonth → noDigit (month lastMonth) = true →
       main fuel data g = Exit 1).
Proof.
  split; [intros; apply main_Exit|].
  intros lastMonth Hlast Hno. apply main_Exit. split; [done|]. right.
  exists lastMonth. split; [done|]. unfold parseMonth. by rewrite matchMonth_noDigit.
Qed.

(** [shuffleArray] answers a rearrangement of its argument and takes
    [length - 1] draws from the random source. *)
Theorem shuffleArray_permutes {A} (array : list A) g :
  (shuffleArray array g).1 ≡ₚ array
  ∧ cursor (shuffleArray array g).2 = cursor g + (length array - 1)
  ∧ draws (shuffleArray array g).2 = draws g.
Proof.
  split; [apply shuffleArray_Permutation|]. apply shuffleLoop_cursor.
Qed.

(** On an even number of names [generateCandidate] answers half as many
    assignments, in which every name takes part exactly as often as it is
    listed. *)
Theorem generateCandidate_pairs_everyone eligible g :
  length eligible `mod` 2 = 0 →
  length (generateCandidate eligible g).1 = length eligible `div` 2
  ∧ participants (generateCandidate eligible g).1 ≡ₚ eligible.
Proof.
  intros Heven. split.
  - by apply length_generateCandidate.
  - by apply generateCandidate_Permutation.
Qed.

Lemma generateCandidate_pairs_everyone_witness :
  length (generateCandidate ["A"; "B"; "C"; "D"] Examples.source0).1
  = length ["A"; "B"; "C"; "D"] `div` 2
  ∧ participants (generateCandidate ["A"; "B"; "C"; "D"] Examples.source0).1
    ≡ₚ ["A"; "B"; "C"; "D"].
Proof.
  apply (generateCandidate_pairs_everyone ["A"; "B"; "C"; "D"] Examples.source0).
  by vm_compute.
Defined.

(** [isSamePairing] holds exactly when the two lists are equally long and
    have the same set of keys; it holds of any two arrangements of the same
    assignments and does not depend on the order of its arguments. *)
Theorem isSamePairing_same_keys a1 a2 :
  (isSamePairing a1 a2 = true ↔ length a1 = length a2 ∧ keySet a1 = keySet a2)
  ∧ (a1 ≡ₚ a2 → isSamePairing a1 a2 = true)
  ∧ isSamePairing a1 a2 = isSamePairing a2 a1.
Proof.
  split_and!.
  - apply isSamePairing_spec.
  - intros Hperm. apply isSamePairing_spec. split.
    + by apply Permutation_length.
    + by apply keySet_Permutation.
  - apply eq_true_iff_eq. rewrite !isSamePairing_spec. naive_solver.
Qed.

(** For names without the separator [|], [candidateHasExcluded] on the set
    of [buildExcludedSet] holds exactly when some assignment of the candidate
    is the pair of a rule, in one orientation or the other. *)
Theorem exclusion_check_exact candidate excluded :
  (∀ a, a ∈ candidate → barFree (mentor a) = true) →
  (∀ rule, rule ∈ default [] excluded → barFree rule.1 = true ∧ barFree rule.2 = true) →
  candidateHasExcluded candidate (buildExcludedSet excluded) = true ↔
  ∃ a rule, a ∈ candidate ∧ rule ∈ default [] excluded ∧ matchesRule a rule.
Proof.
  intros Hc Hr. rewrite buildExcludedSet_default, candidateHasExcluded_true. split.
  - intros (a & Ha & (rule & Hrule & Hk)%elem_of_buildExcludedSet_inv).
    exists a, rule. split_and!; [done..|].
    destruct (Hr rule Hrule) as [H1 H2]. unfold key in Hk.
    destruct Hk as [Hk|Hk]; apply barFree_key_inj in Hk as [? ?]; auto.
    + by left.
    + by right.
  - intros (a & rule & Ha & Hrule & Hm). exists a. split; [done|].
    apply elem_of_buildExcludedSet in Hrule as [H1 H2]. unfold key.
    by destruct Hm as [[-> ->]|[-> ->]].
Qed.

Lemma exclusion_check_exact_witness :
  candidateHasExcluded
    [ {| mentor := "C"; mentee := "D" |}; {| mentor := "B"; mentee := "A" |} ]
    (buildExcludedSet (Some [("A", "B")])) = true ↔
  ∃ a rule,
    a ∈ [ {| mentor := "C"; mentee := "D" |}; {| mentor := "B"; mentee := "A" |} ]
    ∧ rule ∈ default [] (Some [("A", "B")]) ∧ matchesRule a rule.
Proof.
  apply (exclusion_check_exact
           [ {| mentor := "C"; mentee := "D" |}; {| mentor := "B"; mentee := "A" |} ]
           (Some [("A", "B")])).
  - intros a Ha. repeat (apply elem_of_cons in Ha as [->|Ha]; [by vm_compute|]).
    by apply elem_of_nil in Ha.
  - intros rule Hr. repeat (apply elem_of_cons in Hr as [->|Hr]; [by vm_compute|]).
    by apply elem_of_nil in Hr.
Defined.

(** The penalty of a candidate is at most twice its length, and it is 0
    (the value on which the attempt loop stops early) exactly when no key of
    the candidate is in the past set or among the keys of
    [prevAssignments]. *)
Theorem penalty_zero_iff past prev candidate :
  penaltyOf past prev candidate ≤ 2 * length candidate
  ∧ (penaltyOf past prev candidate = 0 ↔
     ∀ a, a ∈ candidate → (key a ∉ past) ∧ (key a ∉ keySet (default [] prev))).
Proof.
  split; [|apply penaltyOf_zero].
  unfold penaltyOf, countOverlap.
  pose proof (length_filter (λ pair, key pair ∈ past) candidate).
  destruct prev as [prev|]; [|lia].
  pose proof (length_filter (λ a, key a ∈ keySet prev) candidate). cbv zeta. lia.
Qed.

(** Without exclusion rules the search needs no nested call:
    [generateAssignments] returns, and [main] does not run forever. *)
Theorem search_without_rules_returns fuel :
  (∀ dataMonths members skip prev g,
     is_Some (generateAssignments (S fuel) dataMonths members skip prev ∅ g))
  ∧ (∀ data g, default [] (excluded data) = [] → main (S fuel) data g ≠ NoReturn).
Proof.
  split; [intros; apply generateAssignments_no_rules|].
  intros data g Hex. unfold main.
  assert (buildExcludedSet (excluded data) = ∅) as ->.
  { rewrite buildExcludedSet_default, Hex. done. }
  destruct (last (months data)) as [lastMonth|]; [|done].
  destruct (parseMonth (month lastMonth)) as [parsed|]; [|done].
  destruct (nextMonth parsed) as [newYear newMonthNum].
  destruct (generateAssignments_no_rules fuel (months data) (members data) None
              (findPrevAssignments (months data)) g) as [[result g'] ->].
  by destruct (formatMonth _ _).
Qed.

(** A result of [generateAssignments] splits the eligible members (the
    roster without the [skip] argument) into its assignments and its skip
    list; a member passed as [skip] is in neither. *)
Theorem generateAssignments_respects_skip
    fuel dataMonths members skip prev excludedSet g res g' :
  generateAssignments fuel dataMonths members skip prev excludedSet g = Some (res, g') →
  participants (res_assignments res) ++ res_extraSkip res ≡ₚ initialEligible members skip
  ∧ 2 * length (res_assignments res) + length (res_extraSkip res)
    = length (initialEligible members skip)
  ∧ ∀ s, skip = Some s → s ≠ "" →
      (s ∉ participants (res_assignments res)) ∧ (s ∉ res_extraSkip res).
Proof.
  intros [Hperm Hlen]%generateAssignments_participants. split_and!; [done..|].
  intros s -> Hs.
  assert (s ∉ participants (res_assignments res) ++ res_extraSkip res) as Hnot.
  { rewrite Hperm. unfold initialEligible. rewrite decide_False by done.
    by intros [? _]%list_elem_of_filter. }
  split; intros Hin; apply Hnot, elem_of_app; [by left|by right].
Qed.

Lemma generateAssignments_respects_skip_witness :
  ∃ res g',
    generateAssignments 1 Examples.history2 Examples.roster5 (Some "A")
      (findPrevAssignments Examples.history2) ∅ Examples.source0 = Some (res, g')
    ∧ participants (res_assignments res) ++ res_extraSkip res
      ≡ₚ initialEligible Examples.roster5 (Some "A")
    ∧ 2 * length (res_assignments res) + length (res_extraSkip res)
      = length (initialEligible Examples.roster5 (Some "A"))
    ∧ ∀ s, Some "A" = Some s → s ≠ "" →
        (s ∉ participants (res_assignments res)) ∧ (s ∉ res_extraSkip res).
Proof.
  eexists _, _. split; [by vm_compute|].
  eapply (generateAssignments_respects_skip 1 Examples.history2 Examples.roster5
            (Some "A") (findPrevAssignments Examples.history2) ∅ Examples.source0).
  by vm_compute.
Defined.

(** With at most one eligible member [generateAssignments] returns at once,
    whatever the rules and the history: no assignment, and the member (if
    any) in the skip list. *)
Theorem generateAssignments_tiny_roster fuel dataMonths members skip prev excludedSet g :
  length (initialEligible members skip) ≤ 1 →
  ∃ g', generateAssignments (S fuel) dataMonths members skip prev excludedSet g
        = Some ({| res_assignments := [];
                   res_extraSkip := initialEligible members skip |}, g').
Proof. apply generateAssignments_tiny. Qed.

Lemma generateAssignments_tiny_roster_witness :
  ∃ g', generateAssignments 1 Examples.history2 ["A"; "B"] (Some "B") None
          (buildExcludedSet (Some [("A", "B")])) Examples.source0
        = Some ({| res_assignments := [];
                   res_extraSkip := initialEligible ["A"; "B"] (Some "B") |}, g').
Proof.
  apply (generateAssignments_tiny_roster 0 Examples.history2 ["A"; "B"] (Some "B") None
           (buildExcludedSet (Some [("A", "B")])) Examples.source0).
  vm_compute. lia.
Defined.

(** [adjustAssignments] only ever exchanges the roles inside a pair: the
    result has the same length, each position holds the candidate's
    assignment or its reverse, and an empty history changes nothing. *)
Theorem adjustAssignments_keeps_pairs candidate history :
  length (adjustAssignments candidate history) = length candidate
  ∧ (∀ i pair, candidate !! i = Some pair →
       ∃ r, adjustAssignments candidate history !! i = Some r ∧ onSamePair pair r)
  ∧ adjustAssignments candidate [] = candidate.
Proof.
  unfold adjustAssignments. split_and!.
  - apply length_fmap.
  - intros i pair Hi. exists (adjustOne history pair).
    rewrite list_lookup_fmap, Hi. split; [done|]. apply adjustOne_either.
  - induction candidate as [|pair candidate IH]; [done|].
    cbn [fmap list_fmap] in *. by rewrite IH.
Qed.

End RandomizedFurther.

(** ** Further properties of [createAssignments] *)
Section CreateAssignmentsFurther.
Import CreateAssignments Spec Invariants.

(** [getRecentPair] answers nothing exactly when the member takes part in no
    assignment of the history; otherwise it answers the first assignment with
    the member in the latest month that has one. *)
Theorem getRecentPair_latest member months :
  (getRecentPair member months = None ↔
   ∀ m a, m ∈ months → a ∈ assignments m → ¬ takesPart member a)
  ∧ ∀ a, getRecentPair member months = Some a →
      ∃ older m newer before after,
        months = older ++ m :: newer
        ∧ assignments m = before ++ a :: after
        ∧ takesPart member a
        ∧ (∀ b, b ∈ before → ¬ takesPart member b)
        ∧ (∀ m' b, m' ∈ newer → b ∈ assignments m' → ¬ takesPart member b).
Proof.
  unfold getRecentPair. split.
  - rewrite recentPairFrom_None.
    split; intros H m a Hm; apply H; revert Hm; by rewrite elem_of_reverse.
  - intros a (newer & m & older & before & after & Hrev & Hm & Ha & Hb & Hn)%recentPairFrom_Some.
    exists (reverse older), m, (reverse newer), before, after.
    split_and!; [|done..|].
    + rewrite <-(reverse_involutive months), Hrev.
      by rewrite reverse_app, reverse_cons, <-app_assoc.
    + intros m' b Hm'. rewrite elem_of_reverse in Hm'. by apply Hn.
Qed.

(** The skip list of [createAssignments] is the rest of the mentor pool
    followed by the rest of the mentee pool: together with the mentors
    (mentees) of the assignments each rest makes up the roster, so the skip
    list names two members for every assignment that the roster size is short
    of. *)
Theorem createAssignments_skip_pools members excludedList pastMonths :
  ∃ mentorsLeft menteesLeft,
    (createAssignments members excludedList pastMonths).2 = mentorsLeft ++ menteesLeft
    ∧ (mentor <$> (createAssignments members excludedList pastMonths).1) ++ mentorsLeft
      ≡ₚ members
    ∧ (mentee <$> (createAssignments members excludedList pastMonths).1) ++ menteesLeft
      ≡ₚ members
    ∧ length (createAssignments members excludedList pastMonths).2
      = 2 * (length members - length (createAssignments members excludedList pastMonths).1).
Proof.
  destruct (createAssignments_state members excludedList pastMonths)
    as (st & -> & (Hm & He & _) & _).
  exists (availableMentors st), (availableMentees st). cbn [fst snd].
  split_and!; [done..|].
  apply Permutation_length in Hm, He.
  rewrite length_app, length_fmap in Hm, He. rewrite length_app. lia.
Qed.

(** No assignment of [createAssignments] gives a mentor the mentee of the
    mentor's latest assignment, or a mentee the mentor of the mentee's latest
    assignment. *)
Theorem createAssignments_avoids_recent members excludedList pastMonths a :
  a ∈ (createAssignments members excludedList pastMonths).1 →
  mentee <$> getRecentPair (mentor a) pastMonths ≠ Some (mentee a)
  ∧ mentor <$> getRecentPair (mentee a) pastMonths ≠ Some (mentor a).
Proof.
  destruct (createAssignments_state members excludedList pastMonths)
    as (st & -> & _ & (Hrec & _) & _).
  cbn [fst]. intros Ha. rewrite Forall_forall in Hrec. by apply Hrec.
Qed.

Lemma createAssignments_avoids_recent_witness :
  mentee <$> getRecentPair "B"
               [ mkMonthData "2024年1月" None [ {| mentor := "A"; mentee := "B" |} ] ]
  ≠ Some "A"
  ∧ mentor <$> getRecentPair "A"
                 [ mkMonthData "2024年1月" None [ {| mentor := "A"; mentee := "B" |} ] ]
    ≠ Some "B".
Proof.
  apply (createAssignments_avoids_recent ["A"; "B"] []
           [ mkMonthData "2024年1月" None [ {| mentor := "A"; mentee := "B" |} ] ]
           {| mentor := "B"; mentee := "A" |}).
  apply (bool_decide_unpack (_ ∈ _)). by vm_compute.
Defined.

(** [createAssignments] uses no unordered pair twice: two assignments at
    different places of its result are never on the same two members. *)
Theorem createAssignments_distinct_pairs members excludedList pastMonths i j a b :
  (createAssignments members excludedList pastMonths).1 !! i = Some a →
  (createAssignments members excludedList pastMonths).1 !! j = Some b →
  i ≠ j → ¬ onSamePair a b.
Proof.
  destruct (createAssignments_state members excludedList pastMonths)
    as (st & -> & _ & (_ & _ & Hdist) & _).
  cbn [fst]. intros Hi Hj Hne Hab. by apply Hne, (Hdist i j a b).
Qed.

Lemma createAssignments_distinct_pairs_witness :
  ¬ onSamePair {| mentor := "A"; mentee := "B" |} {| mentor := "B"; mentee := "C" |}.
Proof.
  apply (createAssignments_distinct_pairs ["A"; "B"; "C"] [] [] 0 1).
  - by vm_compute.
  - by vm_compute.
  - lia.
Defined.

Lemma refused_reason excludedList pastMonths st m e :
  refused excludedList pastMonths st m e →
  m = e
  ∨ isExcluded (m, e) excludedList = true
  ∨ pairKey m e ∈ usedPairs st ∨ pairKey e m ∈ usedPairs st
  ∨ ¬ notRecent pastMonths {| mentor := m; mentee := e |}.
Proof.
  intros Href.
  destruct (decide (m = e)) as [|Hne]; [by left|]. right.
  destruct (isExcluded (m, e) excludedList) eqn:Hex; [by left|]. right.
  destruct (decide (pairKey m e ∈ usedPairs st)) as [|H1]; [by left|]. right.
  destruct (decide (pairKey e m ∈ usedPairs st)) as [|H2]; [by left|]. right.
  intros [Hr1 Hr2]. cbn [mentor mentee] in Hr1, Hr2.
  unfold refused, assignPair, isPairUsed in Href.
  rewrite decide_False, Hex in Href by done.
  by rewrite !bool_decide_eq_false_2 in Href by done.
Qed.

(** On a roster without repeated names the skip list of [createAssignments]
    cannot be shortened by [assignPair]: a member left in the mentor pool and
    a member left in the mentee pool are the same member, or excluded from
    each other, or already paired with each other, or barred by the recency
    test. *)
Theorem createAssignments_skip_maximal members excludedList pastMonths :
  NoDup members →
  ∃ mentorsLeft menteesLeft,
    (createAssignments members excludedList pastMonths).2 = mentorsLeft ++ menteesLeft
    ∧ (mentor <$> (createAssignments members excludedList pastMonths).1) ++ mentorsLeft
      ≡ₚ members
    ∧ (mentee <$> (createAssignments members excludedList pastMonths).1) ++ menteesLeft
      ≡ₚ members
    ∧ ∀ m e, m ∈ mentorsLeft → e ∈ menteesLeft →
        m = e
        ∨ isExcluded (m, e) excludedList = true
        ∨ pairKey m e ∈ usedKeys (createAssignments members excludedList pastMonths).1
        ∨ pairKey e m ∈ usedKeys (createAssignments members excludedList pastMonths).1
        ∨ ¬ notRecent pastMonths {| mentor := m; mentee := e |}.
Proof.
  intros Hnd.
  destruct (createAssignments_state members excludedList pastMonths)
    as (st & -> & (Hm & He & _) & (_ & Hkeys & _) & Href).
  exists (availableMentors st), (availableMentees st). cbn [fst snd].
  split_and!; [done..|].
  intros m e Hmin Hein. rewrite <-Hkeys. by apply refused_reason, Href.
Qed.

Lemma createAssignments_skip_maximal_witness :
  ∃ mentorsLeft menteesLeft,
    (createAssignments ["A"; "B"] [("A", "B")] []).2 = mentorsLeft ++ menteesLeft
    ∧ (mentor <$> (createAssignments ["A"; "B"] [("A", "B")] []).1) ++ mentorsLeft
      ≡ₚ ["A"; "B"]
    ∧ (mentee <$> (createAssignments ["A"; "B"] [("A", "B")] []).1) ++ menteesLeft
      ≡ₚ ["A"; "B"]
    ∧ ∀ m e, m ∈ mentorsLeft → e ∈ menteesLeft →
        m = e
        ∨ isExcluded (m, e) [("A", "B")] = true
        ∨ pairKey m e ∈ usedKeys (createAssignments ["A"; "B"] [("A", "B")] []).1
        ∨ pairKey e m ∈ usedKeys (createAssignments ["A"; "B"] [("A", "B")] []).1
        ∨ ¬ notRecent [] {| mentor := m; mentee := e |}.
Proof.
  apply (createAssignments_skip_maximal ["A"; "B"] [("A", "B")] []).
  apply (bool_decide_unpack (NoDup _)). by vm_compute.
Defined.

(** [main] of the first script of the second file leaves the roster, the
    rules and the months of its input as they are and appends one month: its
    label is the clock's year and month (and is read back as these by
    [parseMonth]), its assignments are those of [createAssignments], and its
    skip field is [null] exactly
    when both pools were used up, i.e. when every member is the mentor of one
    assignment and the mentee of another; otherwise it is the skip list
    joined with a comma and a space. *)
Theorem createAssignments_main_appends fullYear monthIndex inputData :
  members (main fullYear monthIndex inputData) = members inputData
  ∧ excluded (main fullYear monthIndex inputData) = excluded inputData
  ∧ ∃ newMonth,
      months (main fullYear monthIndex inputData) = months inputData ++ [newMonth]
      ∧ Randomized.parseMonth (month newMonth)
        = Some (Randomized.toNumber fullYear, Randomized.toNumber (monthIndex + 1))
      ∧ assignments newMonth
        = (createAssignments (members inputData) (excluded inputData) (months inputData)).1
      ∧ (skip newMonth = None ↔
         mentor <$> assignments newMonth ≡ₚ members inputData
         ∧ mentee <$> assignments newMonth ≡ₚ members inputData)
      ∧ ∀ names, skip newMonth = Some names →
          names = String.concat ", "
                    (createAssignments (members inputData) (excluded inputData)
                       (months inputData)).2.
Proof.
  unfold main.
  destruct (createAssignments_state (members inputData) (excluded inputData)
              (months inputData)) as (st & -> & (Hm & He & _) & _).
  cbn [members excluded months]. split_and!; [done..|].
  eexists. split; [done|]. cbn [month assignments skip fst snd].
  split_and!; [apply parseMonth_label_plain|done| |].
  - destruct (Nat.ltb_spec 0 (length (availableMentors st ++ availableMentees st)))
      as [Hpos|Hzero].
    + split; [done|]. intros [Hm' He']. exfalso.
      apply Permutation_length in Hm, Hm'. rewrite length_app in Hm, Hpos.
      apply Permutation_length in He, He'. rewrite length_app in He. lia.
    + split; [intros _|done].
      assert (availableMentors st ++ availableMentees st = []) as [E1 E2]%app_nil.
      { apply nil_length_inv. lia. }
      rewrite E1, E2, !app_nil_r in *. done.
  - intros names. case_match; [|done]. by intros [= <-].
Qed.

End CreateAssignmentsFurther.

(** ** Further properties of the greedy variant *)
Section GreedyFurther.
Import Greedy Spec Invariants.

(** The greedy skip list cannot be shortened: two different skipped members
    are excluded from each other, and every roster member that a skipped
    member could have been paired with has an assignment. *)
Theorem greedy_skip_maximal members excluded months :
  (∀ x y, x ∈ (generateNewAssignments members excluded months).2 →
          y ∈ (generateNewAssignments members excluded months).2 →
          x ≠ y → isPairExcluded x y excluded = true)
  ∧ (∀ m e, m ∈ (generateNewAssignments members excluded months).2 →
            e ∈ members → e ≠ m → isPairExcluded m e excluded = false →
            e ∈ participants (generateNewAssignments members excluded months).1).
Proof.
  destruct (generateNewAssignments_skippedInv members excluded months)
    as (st & -> & (_ & Hused & _) & _ & [HJ HK]).
  cbn [fst snd]. split; [done|].
  intros m e Hm He Hne Hex.
  pose proof (HJ m e Hm He Hne Hex) as [?|Hskip]%Hused%elem_of_app; [done|].
  assert (m ≠ e) as Hne' by done.
  pose proof (HK m e Hm Hskip Hne'). congruence.
Qed.

(** One iteration of the greedy loop for a roster member that is not used
    yet, has a row in the matrix (as every roster member has in the matrix
    of [countPairings]) and has at least one valid mentee: the first valid
    mentee [p] is stored with its score, which is the lowest of all members
    that can still be paired with the mentor; among those of the same score
    it is the one listed first in the roster; the pair is stored with the
    mentor's role reversed exactly when the previous month holds it in this
    orientation. *)
Theorem greedy_step_selects members excluded pairingHistory previousMonth st mentorName p rest :
  mentorName ∈ members → mentorName ∉ usedMembers st →
  is_Some (pairingHistory !! mentorName) →
  validMenteesOf (buildPossiblePairings members excluded pairingHistory previousMonth)
    (usedMembers st) mentorName = p :: rest →
  getPairingScore mentorName (opt_mentee p) pairingHistory previousMonth
  = Some (opt_score p)
  ∧ (∀ e, e ∈ members → e ≠ mentorName → e ∉ usedMembers st →
          isPairExcluded mentorName e excluded = false →
          ∃ s, getPairingScore mentorName e pairingHistory previousMonth = Some s
               ∧ opt_score p ≤ s)
  ∧ (∃ before after,
       members = before ++ opt_mentee p :: after
       ∧ ∀ e, e ∈ before → e ≠ mentorName → e ∉ usedMembers st →
           isPairExcluded mentorName e excluded = false →
           ∃ s, getPairingScore mentorName e pairingHistory previousMonth = Some s
                ∧ opt_score p < s)
  ∧ ((∃ pm, previousMonth = Some pm
            ∧ {| mentor := mentorName; mentee := opt_mentee p |} ∈ assignments pm) →
     step excluded previousMonth
       (buildPossiblePairings members excluded pairingHistory previousMonth) st mentorName
     = assign (opt_mentee p) mentorName st)
  ∧ (¬ (∃ pm, previousMonth = Some pm
              ∧ {| mentor := mentorName; mentee := opt_mentee p |} ∈ assignments pm) →
     step excluded previousMonth
       (buildPossiblePairings members excluded pairingHistory previousMonth) st mentorName
     = assign mentorName (opt_mentee p) st).
Proof.
  intros Hin Hused Hrow Ev.
  destruct (validMenteesOf_head members excluded pairingHistory previousMonth
              (usedMembers st) mentorName p rest Hin Ev) as [Hmin Hfirst].
  pose proof (step_selected members excluded pairingHistory previousMonth
                st mentorName p rest Hin Hused Ev) as Hstep.
  set (same := match previousMonth with
               | Some pm =>
                   existsb (λ a, bool_decide (mentor a = mentorName
                                              ∧ mentee a = opt_mentee p))
                           (assignments pm)
               | None => false
               end) in Hstep.
  assert (same = true ↔
          ∃ pm, previousMonth = Some pm
                ∧ {| mentor := mentorName; mentee := opt_mentee p |} ∈ assignments pm)
    as Hsame.
  { subst same. destruct previousMonth as [pm|]; [|split; [done|by intros (? & ? & _)]].
    rewrite existsb_exists. setoid_rewrite bool_decide_eq_true.
    setoid_rewrite <-list_elem_of_In. split.
    - intros ([m e] & Ha & Hm & He). cbn in Hm, He. subst. by exists pm.
    - intros (? & [= <-] & Ha). by eexists. }
  split_and!.
  - assert (p ∈ validMenteesOf
                  (buildPossiblePairings members excluded pairingHistory previousMonth)
                  (usedMembers st) mentorName) as Hp by (rewrite Ev; by left).
    apply elem_of_validMenteesOf in Hp as (_ & _ & _ & _ & ->); [|done].
    by apply getPairingScore_stored.
  - intros e He Hne Hu Hex. eexists. split; [by apply getPairingScore_stored|].
    apply (Hmin {| opt_mentee := e;
                   opt_score := storedScore mentorName e pairingHistory previousMonth |}).
    apply elem_of_validMenteesOf; [done|]. by cbn.
  - destruct Hfirst as (before & after & Hm & Hlt). exists before, after.
    split; [done|]. intros e He Hne Hu Hex.
    eexists. split; [by apply getPairingScore_stored|]. by apply Hlt.
  - intros Hprev%Hsame. by rewrite Hstep, Hprev.
  - intros Hprev. rewrite Hstep. destruct same; [|done].
    destruct Hprev. by apply Hsame.
Qed.

Lemma greedy_step_selects_witness :
  (∀ e, e ∈ ["A"; "B"; "C"] → e ≠ "A" → e ∉ (∅ : gset string) →
        isPairExcluded "A" e [] = false →
        ∃ s, getPairingScore "A" e
               (countPairings ["A"; "B"; "C"]
                  [ mkMonth "m" [] [ {| mentor := "A"; mentee := "B" |} ] ])
               (Some (mkMonth "m" [] [ {| mentor := "A"; mentee := "B" |} ]))
             = Some s
             ∧ opt_score {| opt_mentee := "C"; opt_score := 0 |} ≤ s)
  ∧ step [] (Some (mkMonth "m" [] [ {| mentor := "A"; mentee := "B" |} ]))
      (buildPossiblePairings ["A"; "B"; "C"] []
         (countPairings ["A"; "B"; "C"]
            [ mkMonth "m" [] [ {| mentor := "A"; mentee := "B" |} ] ])
         (Some (mkMonth "m" [] [ {| mentor := "A"; mentee := "B" |} ])))
      {| st_assignments := []; usedMembers := ∅; st_skip := [] |} "A"
    = assign "A" "C" {| st_assignments := []; usedMembers := ∅; st_skip := [] |}.
Proof.
  destruct (greedy_step_selects ["A"; "B"; "C"] []
              (countPairings ["A"; "B"; "C"]
                 [ mkMonth "m" [] [ {| mentor := "A"; mentee := "B" |} ] ])
              (Some (mkMonth "m" [] [ {| mentor := "A"; mentee := "B" |} ]))
              {| st_assignments := []; usedMembers := ∅; st_skip := [] |} "A"
              {| opt_mentee := "C"; opt_score := 0 |}
              [ {| opt_mentee := "B"; opt_score := 101 |} ])
    as (_ & Hmin & _ & _ & Hstraight).
  - by left.
  - apply not_elem_of_empty.
  - apply (bool_decide_unpack (is_Some _)). by vm_compute.
  - by vm_compute.
  - split; [exact Hmin|]. apply Hstraight.
    intros (pm & [= <-] & Hin). cbn in Hin.
    by apply list_elem_of_singleton in Hin.
Defined.

(** The greedy loop visits the roster most-constrained-first: its order is
    the roster sorted by the number of partners that the rules allow, members
    with the same number staying in roster order. *)
Theorem greedy_most_constrained_first members excluded months :
  ∃ order,
    generateNewAssignments members excluded months
    = (let st := foldl (step excluded (last months)
                          (buildPossiblePairings members excluded
                             (countPairings members months) (last months)))
                   {| st_assignments := []; usedMembers := ∅; st_skip := [] |} order in
       (st_assignments st, st_skip st))
    ∧ order ≡ₚ members
    ∧ sortedBy (optionCount members excluded) order
    ∧ ∀ k, filter (λ a, optionCount members excluded a = k) order
           = filter (λ a, optionCount members excluded a = k) members.
Proof.
  destruct (generateNewAssignments_inv members excluded months)
    as (st & -> & -> & _).
  eexists. split; [done|]. split_and!.
  - apply sortBy_Permutation.
  - apply membersByOptionCount_sorted.
  - intros k. apply membersByOptionCount_stable.
Qed.

(** The score of two roster members in the greedy variant is defined and
    does not depend on the orientation of the pair. *)
Theorem greedy_score_symmetric members months previousMonth x y :
  x ∈ members → y ∈ members →
  is_Some (getPairingScore x y (countPairings members months) previousMonth)
  ∧ getPairingScore x y (countPairings members months) previousMonth
    = getPairingScore y x (countPairings members months) previousMonth.
Proof.
  intros Hx Hy. split; [by apply getPairingScore_defined|].
  rewrite !getPairingScore_eq, (timesPaired_comm members months x y) by done.
  by rewrite (isRecentPairing_comm x y).
Qed.

Lemma greedy_score_symmetric_witness :
  is_Some (getPairingScore "A" "C" (countPairings ["A"; "B"; "C"] Examples.longHistory)
             (last Examples.longHistory))
  ∧ getPairingScore "A" "C" (countPairings ["A"; "B"; "C"] Examples.longHistory)
      (last Examples.longHistory)
    = getPairingScore "C" "A" (countPairings ["A"; "B"; "C"] Examples.longHistory)
        (last Examples.longHistory).
Proof.
  apply (greedy_score_symmetric ["A"; "B"; "C"] Examples.longHistory
           (last Examples.longHistory) "A" "C").
  - by left.
  - by right; right; left.
Defined.



End GreedyFurther.
